(** * QuUI image core: pixel buffers, procedural textures, texture atlas

    A shallow embedding of [src/utils/image.cpp] (with the declarations of
    [src/utils/image.hpp] and the [Vector2f] and [Color] structs of
    [core/math_types.hpp]), the properties of its specification, and
    further properties of the code: lookup, insertion and repacking in the
    atlas, the flips and the grayscale filter.

    Conventions of the embedding:
    - [unsigned int] and [int] are 32 bits wide; they are modelled as [Z]
      with the wrap-around written out ([u32], [s32]);
    - [uint8_t] is [byte]; the pixel store [std::vector<uint8_t>] is
      [list byte], read and written by index;
    - [float] arithmetic goes through the interface [Arith]; the program
      runs on its IEEE 754 binary32 instance [Binary32.arith], and the
      instance [Exact.arith] on the rationals interprets the same code
      without rounding; [std::mt19937] is modelled word by word, the
      value of [std::random_device] is an input;
    - an operation whose behaviour C++ leaves undefined (an index outside
      the vector, a floating value converted to an integer type that cannot
      hold it) or that throws (a vector of negative length) yields [None]
      in the [option] monad. *)

From Stdlib Require Import ZArith QArith Qround Qpower Lia Lqa Bool.
From Stdlib Require Import Floats.SpecFloat.
From Stdlib Require Import Strings.Byte.
From stdpp Require Import base option list strings gmap sorting.

Local Open Scope Z_scope.

(** ** Machine integers *)

Definition u32 (z : Z) : Z := z mod 2 ^ 32.

(** Conversion of an [unsigned int] bit pattern to [int]. *)
Definition s32 (z : Z) : Z :=
  let w := z mod 2 ^ 32 in if w <? 2 ^ 31 then w else w - 2 ^ 32.

Definition INT_MIN : Z := - 2 ^ 31.
Definition INT_MAX : Z := 2 ^ 31 - 1.

Definition byte_to_Z (b : byte) : Z := Z.of_N (Byte.to_N b).

Definition byte_of_Z (z : Z) : option byte :=
  if (0 <=? z) && (z <? 256) then Byte.of_N (Z.to_N z) else None.

(** ** Floating-point interface *)

Class Arith (F : Type) := {
  of_Z : Z -> F;                 (* integer converted to float *)
  of_dec : Z -> positive -> F;   (* the literal n/d, rounded once *)
  fadd : F -> F -> F;
  fsub : F -> F -> F;
  fmul : F -> F -> F;
  fdiv : F -> F -> F;
  fopp : F -> F;
  fltb : F -> F -> bool;         (* x < y *)
  fleb : F -> F -> bool;         (* x <= y *)
  ftrunc : F -> option Z;        (* truncation toward zero; no value for NaN, infinities *)
  fceil : F -> F;                (* std::ceil *)
  ffloor : F -> F;               (* std::floor *)
  FLT_MAX : F;                   (* std::numeric_limits<float>::max() *)
}.

Declare Scope float_scope.
Delimit Scope float_scope with flt.
Infix "+" := fadd : float_scope.
Infix "-" := fsub : float_scope.
Infix "*" := fmul : float_scope.
Infix "/" := fdiv : float_scope.
Notation "- x" := (fopp x) : float_scope.

Section Conversions.
Context {F : Type} {AF : Arith F}.

(** [static_cast<uint8_t>(f)]: truncates; undefined when the truncated
    value is not in 0..255. *)
Definition to_uint8 (f : F) : option byte := z ← ftrunc f; byte_of_Z z.

(** [static_cast<int>(f)]. *)
Definition to_int (f : F) : option Z :=
  z ← ftrunc f; if (INT_MIN <=? z) && (z <=? INT_MAX) then Some z else None.

Definition of_byte (b : byte) : F := of_Z (byte_to_Z b).

(** [std::min(a, b)] and [std::max(a, b)] in terms of [operator<]. *)
Definition fmin (a b : F) : F := if fltb b a then b else a.
Definition fmax (a b : F) : F := if fltb a b then b else a.

(** [std::min({a, b, c})], [std::max({a, b, c})]. *)
Definition fmin3 (a b c : F) : F := fmin (fmin a b) c.
Definition fmax3 (a b c : F) : F := fmax (fmax a b) c.
End Conversions.

(** ** IEEE 754 binary32 *)

Module Binary32.
Definition prec : Z := 24.
Definition emax : Z := 128.

Definition float := spec_float.

Definition of_int (z : Z) : float := binary_normalize prec emax z 0 false.

Definition add := SFadd prec emax.
Definition sub := SFsub prec emax.
Definition mul := SFmul prec emax.
Definition div := SFdiv prec emax.

Definition literal (n : Z) (d : positive) : float :=
  div (of_int n) (of_int (Zpos d)).

(** Magnitude of a finite float, rounded toward zero and upward. *)
Definition mag_down (m : positive) (e : Z) : Z :=
  if 0 <=? e then Z.shiftl (Zpos m) e else Z.shiftr (Zpos m) (- e).
Definition mag_up (m : positive) (e : Z) : Z :=
  if 0 <=? e then Z.shiftl (Zpos m) e
  else - Z.shiftr (- Zpos m) (- e).

Definition trunc (f : float) : option Z :=
  match f with
  | S754_zero _ => Some 0
  | S754_finite s m e => Some (if s then - mag_down m e else mag_down m e)
  | S754_infinity _ | S754_nan => None
  end.

Definition integral (s : bool) (z : Z) : float :=
  if z =? 0 then S754_zero s else of_int z.

Definition ceil (f : float) : float :=
  match f with
  | S754_finite s m e =>
      if 0 <=? e then f
      else if s then integral true (- mag_down m e)
      else integral false (mag_up m e)
  | _ => f
  end.

Definition floor (f : float) : float :=
  match f with
  | S754_finite s m e =>
      if 0 <=? e then f
      else if s then integral true (- mag_up m e)
      else integral false (mag_down m e)
  | _ => f
  end.

Definition max_float : float := SFmax_float prec emax.

(** The rational number a float denotes (0 for NaN and the infinities). *)
Definition to_Q (f : float) : Q :=
  match f with
  | S754_finite s m e =>
      let v := if 0 <=? e then inject_Z (Zpos m * 2 ^ e)
               else Zpos m # Z.to_pos (2 ^ (- e)) in
      if s then Qopp v else v
  | _ => 0%Q
  end.

(** The float nearest to a rational (ties to even). *)
Definition of_Q (q : Q) : float :=
  match Qnum q with
  | Z0 => S754_zero false
  | Zpos n => div (S754_finite false n 0) (S754_finite false (Qden q) 0)
  | Zneg n => div (S754_finite true n 0) (S754_finite false (Qden q) 0)
  end.

#[global] Instance arith : Arith float := {|
  of_Z := of_int;
  of_dec := literal;
  fadd := add;
  fsub := sub;
  fmul := mul;
  fdiv := div;
  fopp := SFopp;
  fltb := SFltb;
  fleb := SFleb;
  ftrunc := trunc;
  fceil := ceil;
  ffloor := floor;
  FLT_MAX := max_float;
|}.
End Binary32.

(** ** Exact arithmetic on the rationals *)

Module Exact.
Definition ltb (x y : Q) : bool := (Qnum x * QDen y <? Qnum y * QDen x)%Z.
Definition leb (x y : Q) : bool := (Qnum x * QDen y <=? Qnum y * QDen x)%Z.

Definition trunc (q : Q) : option Z := Some (Z.quot (Qnum q) (QDen q)).

#[global] Instance arith : Arith Q := {|
  of_Z := inject_Z;
  of_dec := Qmake;
  fadd := Qplus;
  fsub := Qminus;
  fmul := Qmult;
  fdiv := Qdiv;
  fopp := Qopp;
  fltb := ltb;
  fleb := leb;
  ftrunc := trunc;
  fceil := fun q => inject_Z (Qceiling q);
  ffloor := fun q => inject_Z (Qfloor q);
  FLT_MAX := inject_Z (2 ^ 128 - 2 ^ 104);
|}.
End Exact.

(** ** Colours and vectors ([core/math_types.hpp]) *)

Record Vector2f (F : Type) := mkVector2f { vx : F; vy : F }.
Arguments mkVector2f {F} _ _.
Arguments vx {F} _.
Arguments vy {F} _.

Record Color (F : Type) := mkColor { cr : F; cg : F; cb : F; ca : F }.
Arguments mkColor {F} _ _ _ _.
Arguments cr {F} _.
Arguments cg {F} _.
Arguments cb {F} _.
Arguments ca {F} _.

(** [Vector4f] is used by the blur only: four components, scaled, added and
    divided component by component. *)
Record Vector4f (F : Type) := mkVector4f { v4x : F; v4y : F; v4z : F; v4w : F }.
Arguments mkVector4f {F} _ _ _ _.
Arguments v4x {F} _.
Arguments v4y {F} _.
Arguments v4z {F} _.
Arguments v4w {F} _.

Section ColorOps.
Context {F : Type} {AF : Arith F}.

(** [Color(r, g, b)]: alpha defaults to [1.0f]. *)
Definition Color3 (r g b : F) : Color F := mkColor r g b (of_Z 1).

(** [Color()]: every channel defaults to [1.0f]. *)
Definition Color_default : Color F :=
  mkColor (of_Z 1) (of_Z 1) (of_Z 1) (of_Z 1).

(** [Color::white()] is [Color(1, 1, 1, 1)]. *)
Definition Color_white : Color F :=
  mkColor (of_Z 1) (of_Z 1) (of_Z 1) (of_Z 1).

(** [Color::fromRGB(r, g, b, a)]: [Color(r / 255.0f, g / 255.0f, b / 255.0f,
    a / 255.0f)]. *)
Definition Color_fromRGB (r g b a : byte) : Color F :=
  mkColor (of_byte r / of_Z 255)%flt (of_byte g / of_Z 255)%flt
          (of_byte b / of_Z 255)%flt (of_byte a / of_Z 255)%flt.

(** [Color::fromHex(hex)], [hex] an [unsigned int] read as [0xAARRGGBB]. *)
Definition Color_fromHex (hex : Z) : Color F :=
  mkColor (of_Z (Z.land (Z.shiftr hex 16) 255) / of_Z 255)%flt
          (of_Z (Z.land (Z.shiftr hex 8) 255) / of_Z 255)%flt
          (of_Z (Z.land hex 255) / of_Z 255)%flt
          (of_Z (Z.land (Z.shiftr hex 24) 255) / of_Z 255)%flt.

Definition v4_zero : Vector4f F :=
  mkVector4f (of_Z 0) (of_Z 0) (of_Z 0) (of_Z 0).
Definition v4_scale (v : Vector4f F) (k : F) : Vector4f F :=
  mkVector4f (v4x v * k)%flt (v4y v * k)%flt (v4z v * k)%flt (v4w v * k)%flt.
Definition v4_add (u v : Vector4f F) : Vector4f F :=
  mkVector4f (v4x u + v4x v)%flt (v4y u + v4y v)%flt
             (v4z u + v4z v)%flt (v4w u + v4w v)%flt.
Definition v4_div (v : Vector4f F) (k : F) : Vector4f F :=
  mkVector4f (v4x v / k)%flt (v4y v / k)%flt (v4z v / k)%flt (v4w v / k)%flt.
End ColorOps.

(** ** Image *)

Inductive Format := RGB | RGBA | BGR | BGRA | Grayscale.

Record Image := mkImage {
  width_ : Z;
  height_ : Z;
  format_ : Format;
  data_ : list byte;
}.

Definition bytesPerPixel (f : Format) : Z :=
  match f with
  | RGB => 3
  | RGBA => 4
  | BGR => 3
  | BGRA => 4
  | Grayscale => 1
  end.

Definition getBytesPerPixel (img : Image) : Z := bytesPerPixel (format_ img).

(** The byte count [width * height * getBytesPerPixel()] is computed in
    [unsigned int]. *)
Definition bufferSize (w h : Z) (f : Format) : nat :=
  Z.to_nat (u32 (w * h * bytesPerPixel f)).

Definition zero_byte : byte := x00.

(** [Image(width, height, format)]: a fresh vector, value-initialised. *)
Definition Image_new (w h : Z) (f : Format) : Image :=
  mkImage w h f (replicate (bufferSize w h f) zero_byte).

(** [Image()]. *)
Definition Image_empty : Image := mkImage 0 0 RGBA [].

(** [create]: [std::vector::resize] keeps the elements it already has and
    value-initialises only the ones it appends. *)
Definition create (img : Image) (w h : Z) (f : Format) : Image :=
  mkImage w h f (resize (bufferSize w h f) zero_byte (data_ img)).

Definition getPixelIndex (img : Image) (x y : Z) : Z :=
  u32 ((y * width_ img + x) * getBytesPerPixel img).

(** [data_[i]] as an rvalue and [data_[i] = v]. *)
Definition load (d : list byte) (i : Z) : option byte := d !! Z.to_nat i.

Definition store (d : list byte) (i : Z) (v : byte) : option (list byte) :=
  if (Z.to_nat i <? length d)%nat then Some (<[Z.to_nat i := v]> d) else None.

Definition with_data (img : Image) (d : list byte) : Image :=
  mkImage (width_ img) (height_ img) (format_ img) d.

Section Pixels.
Context {F : Type} {AF : Arith F}.

(** [0.299f * r + 0.587f * g + 0.114f * b]. *)
Definition luminance (c : Color F) : F :=
  (of_dec 299 1000 * cr c + of_dec 587 1000 * cg c
   + of_dec 114 1000 * cb c)%flt.

Definition setPixelUnsafe (img : Image) (x y : Z) (c : Color F)
  : option Image :=
  let index := getPixelIndex img x y in
  let d := data_ img in
  match format_ img with
  | RGB =>
      r ← to_uint8 (cr c); d ← store d index r;
      g ← to_uint8 (cg c); d ← store d (index + 1) g;
      b ← to_uint8 (cb c); d ← store d (index + 2) b;
      Some (with_data img d)
  | RGBA =>
      r ← to_uint8 (cr c); d ← store d index r;
      g ← to_uint8 (cg c); d ← store d (index + 1) g;
      b ← to_uint8 (cb c); d ← store d (index + 2) b;
      a ← to_uint8 (ca c); d ← store d (index + 3) a;
      Some (with_data img d)
  | BGR =>
      b ← to_uint8 (cb c); d ← store d index b;
      g ← to_uint8 (cg c); d ← store d (index + 1) g;
      r ← to_uint8 (cr c); d ← store d (index + 2) r;
      Some (with_data img d)
  | BGRA =>
      b ← to_uint8 (cb c); d ← store d index b;
      g ← to_uint8 (cg c); d ← store d (index + 1) g;
      r ← to_uint8 (cr c); d ← store d (index + 2) r;
      a ← to_uint8 (ca c); d ← store d (index + 3) a;
      Some (with_data img d)
  | Grayscale =>
      l ← to_uint8 (luminance c); d ← store d index l;
      Some (with_data img d)
  end.

Definition getPixelUnsafe (img : Image) (x y : Z) : option (Color F) :=
  let index := getPixelIndex img x y in
  let d := data_ img in
  match format_ img with
  | RGB =>
      r ← load d index; g ← load d (index + 1); b ← load d (index + 2);
      Some (Color3 (of_byte r) (of_byte g) (of_byte b))
  | RGBA =>
      r ← load d index; g ← load d (index + 1); b ← load d (index + 2);
      a ← load d (index + 3);
      Some (mkColor (of_byte r) (of_byte g) (of_byte b) (of_byte a))
  | BGR =>
      r ← load d (index + 2); g ← load d (index + 1); b ← load d index;
      Some (Color3 (of_byte r) (of_byte g) (of_byte b))
  | BGRA =>
      r ← load d (index + 2); g ← load d (index + 1); b ← load d index;
      a ← load d (index + 3);
      Some (mkColor (of_byte r) (of_byte g) (of_byte b) (of_byte a))
  | Grayscale =>
      l ← load d index;
      Some (Color3 (of_byte l) (of_byte l) (of_byte l))
  end.

Definition in_bounds (img : Image) (x y : Z) : bool :=
  (x <? width_ img) && (y <? height_ img).

Definition setPixel (img : Image) (x y : Z) (c : Color F) : option Image :=
  if in_bounds img x y then setPixelUnsafe img x y c else Some img.

Definition getPixel (img : Image) (x y : Z) : option (Color F) :=
  if in_bounds img x y then getPixelUnsafe img x y else Some Color_default.
End Pixels.

(** ** Loops *)

(** [for (i = lo; i < lo + n; ++i) s = body(i, s)], stopping at the first
    undefined step. *)
Fixpoint for_loop {S : Type} (lo : Z) (n : nat)
    (body : Z -> S -> option S) (s : S) : option S :=
  match n with
  | O => Some s
  | Datatypes.S n' => s' ← body lo s; for_loop (lo + 1) n' body s'
  end.

(** ** TextureAtlas *)

(** [Rect] as [image.cpp] uses it: built as [Rect(x, y, width, height)], its
    fields read and assigned as [unsigned int]. *)
Record Rect := mkRect { rect_x : Z; rect_y : Z; rect_width : Z; rect_height : Z }.

Record Region := mkRegion { bounds : Rect; name : string }.

Record TextureAtlas := mkTextureAtlas {
  atlasImage_ : Image;
  regions_ : list Region;
  regionMap_ : gmap string nat;
}.

(** [TextureAtlas(width, height)]. *)
Definition TextureAtlas_new (w h : Z) : TextureAtlas :=
  mkTextureAtlas (Image_new w h RGBA) [] ∅.

(** The packing cursor [(currentX, currentY, maxRowHeight)]. *)
Record Cursor := mkCursor { currentX : Z; currentY : Z; rowHeight : Z }.

Definition cursor0 : Cursor := mkCursor 0 0 0.

(** One iteration of the scan over [regions_] in [addTexture]. *)
Definition scan_step (textureWidth atlasWidth : Z) (cur : Cursor)
    (region : Region) : Cursor :=
  let cur :=
    if u32 (currentX cur + textureWidth) >? atlasWidth
    then mkCursor 0 (u32 (currentY cur + rowHeight cur)) 0
    else cur in
  mkCursor (u32 (currentX cur + rect_width (bounds region)))
           (currentY cur)
           (Z.max (rowHeight cur) (rect_height (bounds region))).

Definition scan (textureWidth atlasWidth : Z) (regions : list Region)
    : Cursor :=
  fold_left (scan_step textureWidth atlasWidth) regions cursor0.

Section Atlas.
Context {F : Type} {AF : Arith F}.

(** Copies the [w] x [h] block of [src] at [(sx, sy)] to [(dx, dy)] of
    [dst] through [getPixel] and [setPixel], row by row. *)
Definition copy_block (src : Image) (sx sy w h : Z) (dst : Image)
    (dx dy : Z) : option Image :=
  for_loop 0 (Z.to_nat h) (fun y dst =>
    for_loop 0 (Z.to_nat w) (fun x dst =>
      c ← getPixel (F:=F) src (u32 (sx + x)) (u32 (sy + y));
      setPixel dst (u32 (dx + x)) (u32 (dy + y)) c) dst) dst.

Definition addTexture (atlas : TextureAtlas) (nm : string)
    (texture : Image) : option (bool * TextureAtlas) :=
  if decide (is_Some (regionMap_ atlas !! nm)) then Some (false, atlas)
  else
    let cur := scan (width_ texture) (width_ (atlasImage_ atlas))
                    (regions_ atlas) in
    if u32 (currentY cur + height_ texture) >? height_ (atlasImage_ atlas)
    then Some (false, atlas)
    else
      img ← copy_block texture 0 0 (width_ texture) (height_ texture)
              (atlasImage_ atlas) (currentX cur) (currentY cur);
      let region :=
        mkRegion (mkRect (currentX cur) (currentY cur)
                         (width_ texture) (height_ texture)) nm in
      let regions := regions_ atlas ++ [region] in
      Some (true,
            mkTextureAtlas img regions
              (<[nm := (length regions - 1)%nat]> (regionMap_ atlas))).

Definition getRegion (atlas : TextureAtlas) (nm : string) : option Region :=
  i ← regionMap_ atlas !! nm; regions_ atlas !! i.

(** [regionMap_[regions_[i].name] = i] for [i = 0 .. size - 1]. *)
Fixpoint index_regions (i : nat) (regions : list Region)
    (m : gmap string nat) : gmap string nat :=
  match regions with
  | [] => m
  | r :: rest => index_regions (Datatypes.S i) rest (<[name r := i]> m)
  end.

(** The comparator of [optimize] is [a.bounds.height > b.bounds.height];
    [taller_or_equal a b] says that it does not put [b] before [a]. *)
Definition taller_or_equal (a b : Region) : Prop :=
  rect_height (bounds b) <= rect_height (bounds a).

#[local] Instance taller_or_equal_dec a b : Decision (taller_or_equal a b).
Proof. unfold taller_or_equal. apply _. Defined.

#[local] Instance taller_or_equal_total : Total taller_or_equal.
Proof. intros a b. unfold taller_or_equal. lia. Qed.

#[local] Instance taller_or_equal_trans : Transitive taller_or_equal.
Proof. intros a b c. unfold taller_or_equal. lia. Qed.

(** [std::sort] with that comparator.  The standard fixes two things only:
    the result is a permutation of the range, and no region in it is
    followed by a taller one.  In which order regions of equal height come
    out is the library's choice, so [optimize] is modelled over every
    sorting routine with these two properties. *)
Class StdSort := {
  std_sort : list Region -> list Region;
  std_sort_permutation regions : std_sort regions ≡ₚ regions;
  std_sort_sorted regions :
    StronglySorted taller_or_equal (std_sort regions);
}.

(** One such routine, to run [optimize] on concrete inputs: merge sort. *)
Definition merge_std_sort : StdSort := {|
  std_sort := merge_sort taller_or_equal;
  std_sort_permutation := merge_sort_Permutation taller_or_equal;
  std_sort_sorted := StronglySorted_merge_sort taller_or_equal;
|}.

(** One iteration of the repacking loop of [optimize]: the state is the
    new image, the cursor and the regions already moved. *)
Definition repack_step (old : Image)
    (st : Image * Cursor * list Region) (region : Region)
    : option (Image * Cursor * list Region) :=
  let '(newAtlas, cur, moved) := st in
  let b := bounds region in
  let cur :=
    if u32 (currentX cur + rect_width b) >? width_ newAtlas
    then mkCursor 0 (u32 (currentY cur + rowHeight cur)) 0
    else cur in
  newAtlas ← copy_block old (rect_x b) (rect_y b) (rect_width b)
               (rect_height b) newAtlas (currentX cur) (currentY cur);
  let region :=
    mkRegion (mkRect (currentX cur) (currentY cur)
                     (rect_width b) (rect_height b)) (name region) in
  Some (newAtlas,
        mkCursor (u32 (currentX cur + rect_width b)) (currentY cur)
                 (Z.max (rowHeight cur) (rect_height b)),
        moved ++ [region]).

Definition optimize {SR : StdSort} (atlas : TextureAtlas)
    : option TextureAtlas :=
  let sorted := std_sort (regions_ atlas) in
  let old := atlasImage_ atlas in
  let newAtlas := Image_new (width_ old) (height_ old) (format_ old) in
  st ← foldl (fun st region => st ← st; repack_step old st region)
             (Some (newAtlas, cursor0, [])) sorted;
  let '(newAtlas, _, regions) := st in
  Some (mkTextureAtlas newAtlas regions (index_regions 0 regions ∅)).

Definition clear (atlas : TextureAtlas) : TextureAtlas :=
  let img := atlasImage_ atlas in
  mkTextureAtlas (create img (width_ img) (height_ img) (format_ img)) [] ∅.
End Atlas.

(** ** The math library *)

(** [std::exp], [std::cos], [std::sin] on [float], and [std::pow] with an
    [int] exponent, narrowed to [float].  These are not fixed by IEEE 754;
    the program is modelled over any implementation of them. *)
Class Libm (F : Type) := {
expf : F -> F;
cosf : F -> F;
sinf : F -> F;
powf : F -> Z -> F;
}.

(** ** Gaussian blur *)

Section Blur.
Context {F : Type} {AF : Arith F} {LF : Libm F}.

(** [static_cast<int>(std::ceil(sigma * 6))]. *)
Definition kernelSize (sigma : F) : option Z :=
  to_int (fceil (sigma * of_Z 6)%flt).

(** [x = i - (kernelSize - 1) / 2.0f; std::exp(-(x * x) / (2 * sigma * sigma))]. *)
Definition kernel_sample (sigma : F) (k i : Z) : F :=
  let x := (of_Z i - of_Z (k - 1) / of_Z 2)%flt in
  expf (- (x * x) / (of_Z 2 * sigma * sigma))%flt.

Definition kernel_samples (sigma : F) (k : Z) : list F :=
  kernel_sample sigma k <$> seqZ 0 k.

(** [sum += kernel[i]], from [0.0f], in index order. *)
Definition kernel_sum (samples : list F) : F :=
  foldl fadd (of_Z 0) samples.

(** The normalised kernel.  [std::vector<float> kernel(kernelSize)] has no
    result for a negative size. *)
Definition makeKernel (sigma : F) (k : Z) : option (list F) :=
  if k <? 0 then None
  else
    let samples := kernel_samples sigma k in
    Some ((fun w => w / kernel_sum samples)%flt <$> samples).

Definition gaussianKernel (sigma : F) : option (list F) :=
  k ← kernelSize sigma; makeKernel sigma k.

Definition color_vector (c : Color F) : Vector4f F :=
  mkVector4f (cr c) (cg c) (cb c) (ca c).

(** The inner loop over the [k] taps: [get] reads the source pixel at a
    position along the pass direction, [limit] is the extent in that
    direction, [pos] the coordinate of the output pixel.  The source
    position is computed in [unsigned int] and converted to [int]. *)
Definition blur_taps (get : Z -> option (Color F)) (limit pos k : Z)
    (kernel : list F) : option (Vector4f F * F) :=
  for_loop 0 (Z.to_nat k) (fun i acc =>
    let src := s32 (pos + i - Z.quot k 2) in
    if (0 <=? src) && (src <? s32 limit) then
      pixel ← get src;
      w ← kernel !! Z.to_nat i;
      Some (v4_add acc.1 (v4_scale (color_vector pixel) w), (acc.2 + w)%flt)
    else Some acc) (v4_zero, of_Z 0).

(** [sum /= weightSum] and the four [static_cast<uint8_t>]. *)
Definition blur_pixel (get : Z -> option (Color F)) (limit pos k : Z)
    (kernel : list F) : option (Color F) :=
  acc ← blur_taps get limit pos k kernel;
  let sum := v4_div acc.1 acc.2 in
  r ← to_uint8 (v4x sum); g ← to_uint8 (v4y sum);
  b ← to_uint8 (v4z sum); a ← to_uint8 (v4w sum);
  Some (mkColor (of_byte r) (of_byte g) (of_byte b) (of_byte a)).

(** One pass: every pixel of [dst] is set from [pixel x y]. *)
Definition fill_pixels (w h : Z) (pixel : Z -> Z -> option (Color F))
    (dst : Image) : option Image :=
  for_loop 0 (Z.to_nat h) (fun y dst =>
    for_loop 0 (Z.to_nat w) (fun x dst =>
      c ← pixel x y; setPixel dst x y c) dst) dst.

Definition applyGaussianBlur (img : Image) (sigma : F) : option Image :=
  k ← kernelSize sigma;
  kernel ← makeKernel sigma k;
  let w := width_ img in
  let h := height_ img in
  temp ← fill_pixels w h
           (fun x y =>
              blur_pixel (fun srcX => getPixel img srcX y) w x k kernel)
           (Image_new w h (format_ img));
  fill_pixels w h
    (fun x y => blur_pixel (fun srcY => getPixel temp x srcY) h y k kernel)
    img.
End Blur.

(** ** Triangle rasterisation *)

Section Triangle.
Context {F : Type} {AF : Arith F}.

(** The lambda [edge] of [fillTriangle]. *)
Definition edge (a b p : Vector2f F) : F :=
  ((vx p - vx a) * (vy b - vy a) - (vy p - vy a) * (vx b - vx a))%flt.

(** The centre of pixel [(x, y)]. *)
Definition pixel_center (x y : Z) : Vector2f F :=
  mkVector2f (of_Z x + of_dec 1 2)%flt (of_Z y + of_dec 1 2)%flt.

(** [w1 >= 0 && w2 >= 0 && w3 >= 0]. *)
Definition inside (p1 p2 p3 : Vector2f F) (x y : Z) : bool :=
  let p := pixel_center x y in
  fleb (of_Z 0) (edge p2 p3 p) && fleb (of_Z 0) (edge p3 p1 p)
  && fleb (of_Z 0) (edge p1 p2 p).

(** The bounding box [(minX, minY, maxX, maxY)], clipped to the buffer. *)
Definition clipped_box (img : Image) (p1 p2 p3 : Vector2f F)
    : option (Z * Z * Z * Z) :=
  minX ← to_int (fmin3 (vx p1) (vx p2) (vx p3));
  minY ← to_int (fmin3 (vy p1) (vy p2) (vy p3));
  maxX ← to_int (fceil (fmax3 (vx p1) (vx p2) (vx p3)));
  maxY ← to_int (fceil (fmax3 (vy p1) (vy p2) (vy p3)));
  Some (Z.max minX 0, Z.max minY 0,
        Z.min maxX (s32 (width_ img)), Z.min maxY (s32 (height_ img))).

Definition fillTriangle (img : Image) (p1 p2 p3 : Vector2f F)
    (color : Color F) : option Image :=
  box ← clipped_box img p1 p2 p3;
  let '(minX, minY, maxX, maxY) := box in
  for_loop minY (Z.to_nat (maxY - minY)) (fun y img =>
    for_loop minX (Z.to_nat (maxX - minX)) (fun x img =>
      if inside p1 p2 p3 x y then setPixel img (u32 x) (u32 y) color
      else Some img) img) img.
End Triangle.

(** ** Gradient noise *)

Section Perlin.
Context {F : Type} {AF : Arith F} {LF : Libm F}.

(** The lambdas [fade] and [lerp]. *)
Definition fade (t : F) : F :=
  (t * t * t * (t * (t * of_Z 6 - of_Z 15) + of_Z 10))%flt.

Definition lerp (t a b : F) : F := (a + t * (b - a))%flt.

(** The 256 gradient vectors; [draw i] is the value of the [i]-th call
    [dis(gen)] of this invocation. *)
Definition gradient (draw : nat -> F) (i : nat) : Vector2f F :=
  let angle := (draw i * of_Z 2 * of_dec 314159 100000)%flt in
  mkVector2f (cosf angle) (sinf angle).

Definition make_gradients (draw : nat -> F) : list (Vector2f F) :=
  gradient draw <$> seq 0 256.

(** [x0 + y0] in [int]: overflow is undefined. *)
Definition int_add (a b : Z) : option Z :=
  let s := a + b in
  if (INT_MIN <=? s) && (s <=? INT_MAX) then Some s else None.

(** [gradients[(a + b) & 255]]. *)
Definition gradient_at (gradients : list (Vector2f F)) (a b : Z)
    : option (Vector2f F) :=
  s ← int_add a b; gradients !! Z.to_nat (Z.land s 255).

(** The value one octave contributes at pixel [(x, y)]. *)
Definition octave_value (gradients : list (Vector2f F))
    (width height : Z) (scale frequency : F) (x y : Z) : option F :=
  let fx := (of_Z x * scale * frequency / of_Z width)%flt in
  let fy := (of_Z y * scale * frequency / of_Z height)%flt in
  x0 ← to_int (ffloor fx);
  y0 ← to_int (ffloor fy);
  x1 ← int_add x0 1;
  y1 ← int_add y0 1;
  let tx := fade (fx - of_Z x0)%flt in
  let ty := fade (fy - of_Z y0)%flt in
  g00 ← gradient_at gradients x0 y0;
  g10 ← gradient_at gradients x1 y0;
  g01 ← gradient_at gradients x0 y1;
  g11 ← gradient_at gradients x1 y1;
  let n00 := (vx g00 * (fx - of_Z x0) + vy g00 * (fy - of_Z y0))%flt in
  let n10 := (vx g10 * (fx - of_Z x1) + vy g10 * (fy - of_Z y0))%flt in
  let n01 := (vx g01 * (fx - of_Z x0) + vy g01 * (fy - of_Z y1))%flt in
  let n11 := (vx g11 * (fx - of_Z x1) + vy g11 * (fy - of_Z y1))%flt in
  let nx0 := lerp tx n00 n10 in
  let nx1 := lerp tx n01 n11 in
  Some (lerp ty nx0 nx1).

(** [noise[x][y]]: a vector of [width] columns of [height] floats. *)
Definition noise_get (noise : list (list F)) (x y : Z) : option F :=
  col ← noise !! Z.to_nat x; col !! Z.to_nat y.

Definition noise_add (noise : list (list F)) (x y : Z) (v : F)
    : option (list (list F)) :=
  col ← noise !! Z.to_nat x;
  old ← col !! Z.to_nat y;
  Some (<[Z.to_nat x := <[Z.to_nat y := (old + v)%flt]> col]> noise).

(** The accumulator before the first octave: [width] columns of [height]
    zeros. *)
Definition flat_noise (width height : Z) : list (list F) :=
  replicate (Z.to_nat width) (replicate (Z.to_nat height) (of_Z 0)).

(** The octave loop. *)
Definition accumulate (gradients : list (Vector2f F)) (width height : Z)
    (scale : F) (octaves : Z) : option (list (list F)) :=
  for_loop 0 (Z.to_nat octaves) (fun octave noise =>
    let frequency := powf (of_Z 2) octave in
    let amplitude := powf (of_dec 1 2) octave in
    for_loop 0 (Z.to_nat height) (fun y noise =>
      for_loop 0 (Z.to_nat width) (fun x noise =>
        value ← octave_value gradients width height scale frequency x y;
        noise_add noise x y (value * amplitude)%flt) noise) noise)
    (flat_noise width height).

(** The scan for [minVal] and [maxVal]. *)
Definition min_max (noise : list (list F)) (width height : Z)
    : option (F * F) :=
  for_loop 0 (Z.to_nat height) (fun y mm =>
    for_loop 0 (Z.to_nat width) (fun x mm =>
      v ← noise_get noise x y;
      Some (fmin mm.1 v, fmax mm.2 v)) mm) (FLT_MAX, (- FLT_MAX)%flt).

(** [(noise[x][y] - minVal) / range]. *)
Definition normalizedValue (noise : list (list F)) (minVal range : F)
    (x y : Z) : option F :=
  v ← noise_get noise x y; Some ((v - minVal) / range)%flt.

Definition emit (noise : list (list F)) (minVal range : F)
    (width height : Z) (result : Image) : option Image :=
  for_loop 0 (Z.to_nat height) (fun y result =>
    for_loop 0 (Z.to_nat width) (fun x result =>
      n ← normalizedValue noise minVal range x y;
      pixel ← to_uint8 (n * of_Z 255)%flt;
      setPixel result x y
        (Color3 (of_byte pixel) (of_byte pixel) (of_byte pixel)))
      result) result.

Definition generatePerlinNoise (draw : nat -> F) (width height : Z)
    (scale : F) (octaves : Z) : option Image :=
  let result := Image_new width height Grayscale in
  let gradients := make_gradients draw in
  noise ← accumulate gradients width height scale octaves;
  mm ← min_max noise width height;
  let range := (mm.2 - mm.1)%flt in
  emit noise mm.1 range width height result.
End Perlin.

(** ** Random numbers *)

(** [std::mt19937], as the C++ standard fixes it: 624 words of state and
    the position of the next word to hand out. *)
Record mt19937 := mkMt19937 { mt_x : list Z; mt_p : nat }.

(** The words [x_1 .. x_623] of the seeding recurrence, after [x]. *)
Fixpoint mt_seed_words (n : nat) (i : Z) (x : Z) : list Z :=
  match n with
  | O => []
  | Datatypes.S n' =>
      let x' := u32 (1812433253 * Z.lxor x (Z.shiftr x 30) + i) in
      x' :: mt_seed_words n' (i + 1) x'
  end.

(** [std::mt19937 gen(value)]. *)
Definition mt19937_seed (value : Z) : mt19937 :=
  mkMt19937 (u32 value :: mt_seed_words 623 1 (u32 value)) 624.

(** The new word from [x_k], [x_(k+1)] and [x_(k+397)]. *)
Definition mt_twist (xk xk1 xkm : Z) : Z :=
  let y := Z.lor (Z.land xk 2147483648) (Z.land xk1 2147483647) in
  Z.lxor (Z.lxor xkm (Z.shiftr y 1)) (if Z.odd y then 2567483615 else 0).

(** All 624 words are replaced, in place and in index order. *)
Definition mt_regenerate (x : list Z) : list Z :=
  foldl (fun x k =>
           match x !! k, x !! ((k + 1) mod 624)%nat,
                 x !! ((k + 397) mod 624)%nat with
           | Some a, Some b, Some c => <[k := mt_twist a b c]> x
           | _, _, _ => x
           end) x (seq 0 624).

Definition mt_temper (z : Z) : Z :=
  let z := Z.lxor z (Z.land (Z.shiftr z 11) 4294967295) in
  let z := Z.lxor z (Z.land (Z.shiftl z 7) 2636928640) in
  let z := Z.lxor z (Z.land (Z.shiftl z 15) 4022730752) in
  Z.lxor z (Z.shiftr z 18).

(** [gen()]: the next 32-bit output and the engine after the call. *)
Definition mt19937_next (gen : mt19937) : Z * mt19937 :=
  let gen := if (624 <=? mt_p gen)%nat
             then mkMt19937 (mt_regenerate (mt_x gen)) 0 else gen in
  (mt_temper (default 0 (mt_x gen !! mt_p gen)),
   mkMt19937 (mt_x gen) (Datatypes.S (mt_p gen))).

(** [std::uniform_real_distribution<float> dis(0.0f, 1.0f)]: [dis gen] is
    the value of [dis(gen)] and the engine after the call.  *)
Class Random (F : Type) := { dis : mt19937 -> F * mt19937 }.

Section Draws.
Context {F : Type} {AF : Arith F} {LF : Libm F} {RF : Random F}.

(** The value of the [i]-th call [dis(gen)], counted from 0. *)
Fixpoint draws_from (gen : mt19937) (i : nat) : F :=
  match i with
  | O => (dis gen).1
  | Datatypes.S i' => draws_from (dis gen).2 i'
  end.

(** The loop that fills [gradients]: 256 calls [dis(gen)], each of which
    advances the engine, and the engine it leaves. *)
Definition fill_gradients (gen : mt19937) : list (Vector2f F) * mt19937 :=
  foldl (fun st _ =>
           let '(value, gen) := dis st.2 in
           let angle := (value * of_Z 2 * of_dec 314159 100000)%flt in
           (st.1 ++ [mkVector2f (cosf angle) (sinf angle)], gen))
        ([], gen) (seq 0 256).

(** [TextureGenerator::generatePerlinNoise(width, height, scale, octaves)]
    in a run in which [std::random_device] returns [rd]: the arguments
    carry no seed, the engine is seeded with [rd] on every call. *)
Definition TextureGenerator_generatePerlinNoise (rd : Z) (width height : Z)
    (scale : F) (octaves : Z) : option Image :=
  let result := Image_new width height Grayscale in
  let gen := mt19937_seed rd in
  let gradients := (fill_gradients gen).1 in
  noise ← accumulate gradients width height scale octaves;
  mm ← min_max noise width height;
  let range := (mm.2 - mm.1)%flt in
  emit noise mm.1 range width height result.
End Draws.

(** ** Byte blocks *)

(** [&data_[i]]: the element must exist. *)
Definition element (d : list byte) (i : Z) : option Z :=
  if (Z.to_nat i <? length d)%nat then Some i else None.

(** The [n] bytes of [d] from offset [i], as [std::memcpy] reads them. *)
Definition read_block (d : list byte) (i n : Z) : option (list byte) :=
  if (Z.to_nat i + Z.to_nat n <=? length d)%nat
  then Some (take (Z.to_nat n) (drop (Z.to_nat i) d))
  else None.

(** [d] with [block] written from offset [i] on, as [std::memcpy] writes
    it. *)
Definition write_block (d : list byte) (i : Z) (block : list byte)
    : option (list byte) :=
  if (Z.to_nat i + length block <=? length d)%nat
  then Some (take (Z.to_nat i) d ++ block
             ++ drop (Z.to_nat i + length block) d)
  else None.

(** [std::memcpy(d + dst, d + src, n)] inside one vector: the two ranges
    must not overlap. *)
Definition move_block (d : list byte) (dst src n : Z) : option (list byte) :=
  if (dst + n <=? src) || (src + n <=? dst) || (n =? 0)
  then block ← read_block d src n; write_block d dst block
  else None.

(** ** Flips *)

Definition flipHorizontally (img : Image) : option Image :=
  let bytesPerPixel := getBytesPerPixel img in
  let rowSize := u32 (width_ img * bytesPerPixel) in
  d ← for_loop 0 (Z.to_nat (height_ img)) (fun y d =>
         rowStart ← element d (u32 (y * rowSize));
         row ← read_block d rowStart rowSize;
         for_loop 0 (Z.to_nat (width_ img)) (fun x d =>
           let flippedX := u32 (width_ img - 1 - x) in
           pixel ← read_block row (u32 (flippedX * bytesPerPixel))
                     bytesPerPixel;
           write_block d (rowStart + u32 (x * bytesPerPixel)) pixel) d)
       (data_ img);
  Some (with_data img d).

Definition flipVertically (img : Image) : option Image :=
  let rowSize := u32 (width_ img * getBytesPerPixel img) in
  d ← for_loop 0 (Z.to_nat (height_ img / 2)) (fun y d =>
         let flippedY := u32 (height_ img - 1 - y) in
         topRow ← element d (u32 (y * rowSize));
         bottomRow ← element d (u32 (flippedY * rowSize));
         row ← read_block d topRow rowSize;
         d ← move_block d topRow bottomRow rowSize;
         write_block d bottomRow row) (data_ img);
  Some (with_data img d).

(** ** The grayscale filter *)

Section Transform.
Context {F : Type} {AF : Arith F}.

(** [0.299f * pixel[0] + 0.587f * pixel[1] + 0.114f * pixel[2]]. *)
Definition gray_level (p0 p1 p2 : byte) : F :=
  (of_dec 299 1000 * of_byte p0 + of_dec 587 1000 * of_byte p1
   + of_dec 114 1000 * of_byte p2)%flt.

(** One iteration of [applyGrayscale]: [pixel] points at [data_[i * bytesPerPixel]];
    [pixel[0]], [pixel[1]] and [pixel[2]] are read and then all set to
    [gray]. *)
Definition gray_step (bytesPerPixel i : Z) (d : list byte)
    : option (list byte) :=
  pixel ← element d (u32 (i * bytesPerPixel));
  p0 ← load d pixel; p1 ← load d (pixel + 1); p2 ← load d (pixel + 2);
  gray ← to_uint8 (gray_level p0 p1 p2);
  d ← store d (pixel + 2) gray;
  d ← store d (pixel + 1) gray;
  store d pixel gray.

Definition applyGrayscale (img : Image) : option Image :=
  let numPixels := u32 (width_ img * height_ img) in
  d ← for_loop 0 (Z.to_nat numPixels) (gray_step (getBytesPerPixel img))
        (data_ img);
  Some (with_data img d).
End Transform.

(** ** Reference math libraries *)

(** *** A reference math library for binary32

    Each function evaluates its Taylor polynomial of degree about 60 in
    exact rational arithmetic and rounds the result once, to nearest.  It
    serves to run the program on concrete inputs; the theorems below that
    quantify over [Libm] do not depend on it. *)
Module RefLibm.
Import Binary32.

(** [sum_{j < n} t_j] with [t_{j+1} = t_j * ratio / (step j)]; the
    summation stops at the first term that is zero. *)
Fixpoint series (n : nat) (j : Z) (term ratio : Q) (step : Z -> Z) (acc : Q)
    : Q :=
  match n with
  | O => acc
  | Datatypes.S n' =>
      if Qnum term =? 0 then acc
      else series n' (j + 1)
             (Qred (term * ratio / inject_Z (step j))) ratio step
             (Qred (acc + term))
  end.

Definition exp_Q (x : Q) : Q := series 60 0 1 x (fun j => j + 1) 0.
Definition cos_Q (x : Q) : Q :=
  series 30 0 1 (- (x * x)) (fun j => (2 * j + 1) * (2 * j + 2)) 0.
Definition sin_Q (x : Q) : Q :=
  series 30 0 x (- (x * x)) (fun j => (2 * j + 2) * (2 * j + 3)) 0.

Definition on_finite (g : Q -> Q) (f : float) : float :=
  match f with
  | S754_zero _ => of_Q (g 0%Q)
  | S754_finite _ _ _ => of_Q (g (to_Q f))
  | _ => S754_nan
  end.

(** [base] multiplied [n] times, or divided for a negative [n]. *)
Definition pow_int (base : float) (n : Z) : float :=
  match n with
  | Z0 => of_int 1
  | Zpos p => Pos.iter (fun acc => mul acc base) (of_int 1) p
  | Zneg p => Pos.iter (fun acc => div acc base) (of_int 1) p
  end.

#[global] Instance libm : Libm float := {|
  expf := on_finite exp_Q;
  cosf := on_finite cos_Q;
  sinf := on_finite sin_Q;
  powf := pow_int;
|}.
End RefLibm.

(** *** A reference distribution

    [std::uniform_real_distribution<float>(0.0f, 1.0f)] as libstdc++
    implements it: one output of the engine, converted to [float] and
    divided by [2^32]; a quotient that rounds to 1 is replaced by the
    largest [float] below 1. *)
Module RefRandom.
Definition canonical (z : Z) : Binary32.float :=
  let r := Binary32.div (Binary32.of_int z) (Binary32.of_int 4294967296) in
  if SFltb r (Binary32.of_int 1) then r else S754_finite false 16777215 (-24).

#[global] Instance random : Random Binary32.float := {|
  dis gen := let '(z, gen) := mt19937_next gen in (canonical z, gen);
|}.
End RefRandom.

(** ** Notions of the specification *)

(** *** Buffers *)

(** The invariant of a pixel buffer: the byte vector holds exactly
    [width * height * bytesPerPixel] bytes, a count that fits
    [unsigned int]. *)
Definition wf (img : Image) : Prop :=
  0 <= width_ img /\ 0 <= height_ img /\
  width_ img * height_ img * getBytesPerPixel img < 2 ^ 32 /\
  length (data_ img) =
    Z.to_nat (width_ img * height_ img * getBytesPerPixel img).

(** Same geometry, same format, same byte count: what [setPixel]
    preserves. *)
Definition same_shape (img img' : Image) : Prop :=
  width_ img' = width_ img /\ height_ img' = height_ img /\
  format_ img' = format_ img /\ length (data_ img') = length (data_ img).

Section Convert.
Context {F : Type} {AF : Arith F}.

(** What a colour becomes when it is written to and read back from a
    buffer of the given format. *)
Definition convert (f : Format) (c : Color F) : option (Color F) :=
  match f with
  | RGB | BGR =>
      r ← to_uint8 (cr c); g ← to_uint8 (cg c); b ← to_uint8 (cb c);
      Some (Color3 (of_byte r) (of_byte g) (of_byte b))
  | RGBA | BGRA =>
      r ← to_uint8 (cr c); g ← to_uint8 (cg c); b ← to_uint8 (cb c);
      a ← to_uint8 (ca c);
      Some (mkColor (of_byte r) (of_byte g) (of_byte b) (of_byte a))
  | Grayscale =>
      l ← to_uint8 (luminance c);
      Some (Color3 (of_byte l) (of_byte l) (of_byte l))
  end.
End Convert.

(** A colour all of whose channels convert to a byte. *)
Definition storable (c : Color Binary32.float) : Prop :=
  is_Some (to_uint8 (cr c)) /\ is_Some (to_uint8 (cg c)) /\
  is_Some (to_uint8 (cb c)) /\ is_Some (to_uint8 (ca c)).

(** A colour whose channels are byte values. *)
Definition byte_pixel (r g b a : byte) : Color Binary32.float :=
  mkColor (of_byte r) (of_byte g) (of_byte b) (of_byte a).

(** [body x y] rewrites pixel [(x, y)] to [new x y old] and nothing else, on
    every image of the shape of [img0]. *)
Definition local_write {F : Type} {AF : Arith F} (img0 : Image)
    (body : Z -> Z -> Image -> option Image)
    (new : Z -> Z -> option (Color F) -> option (Color F)) (x y : Z) : Prop :=
  forall img, same_shape img0 img ->
    exists img',
      body x y img = Some img' /\ same_shape img img' /\
      getPixel img' x y = new x y (getPixel img x y) /\
      forall x' y', 0 <= x' -> 0 <= y' -> (x', y') <> (x, y) ->
                    getPixel (F:=F) img' x' y' = getPixel img x' y'.

(** The gray levels [l] for which [0.299f * l + 0.587f * l + 0.114f * l],
    each operation rounded to binary32, falls below [l]. *)
Definition dimmed_levels : list Z :=
  [37; 61; 74; 93; 111; 122; 148; 186; 215; 222; 233; 244; 253].

(** The colour whose weighted sum [applyGrayscale] takes: the filter weighs
    the first three bytes of a pixel as red, green and blue, in every
    format. *)
Definition as_stored {F : Type} (f : Format) (c : Color F) : Color F :=
  match f with
  | BGR | BGRA => mkColor (cb c) (cg c) (cr c) (ca c)
  | _ => c
  end.

(** The byte [static_cast<uint8_t>(v / 255.0f)] for a byte [v]: the
    quotient is below 1 unless [v] is 255. *)
Definition unit_byte (v : byte) : byte :=
  if byte_to_Z v =? 255 then x01 else x00.

(** *** Kernel taps *)

(** Offsets at which a kernel of [k] taps samples the source, relative to the
    pixel being computed: tap [i] reads position [pos + i - k / 2]. *)
Definition tap_offset (k i : Z) : Z := i - Z.quot k 2.

Definition tap_offsets (k : Z) : list Z :=
  tap_offset k <$> seqZ 0 k.

(** The weighted sum the specification describes: every weight comes with
    its offset and is applied to the source pixel at [pos + offset], when
    that lies inside the buffer. *)
Definition weighted_taps {F : Type} {AF : Arith F}
    (get : Z -> option (Color F)) (limit pos : Z) (taps : list (Z * F))
    : option (Vector4f F * F) :=
  foldl (fun acc tap =>
           acc ← acc;
           let src := pos + tap.1 in
           if (0 <=? src) && (src <? limit) then
             pixel ← get src;
             Some (v4_add acc.1 (v4_scale (color_vector pixel) tap.2),
                   (acc.2 + tap.2)%flt)
           else Some acc)
        (Some (v4_zero, of_Z 0)) taps.

(** *** Rounding *)

(** A positive normal binary32 number. *)
Definition normal (f : Binary32.float) : bool :=
  match f with
  | S754_finite false m e =>
      (2 ^ 23 <=? Zpos m) && (Zpos m <? 2 ^ 24) && (-149 <=? e) && (e <=? 104)
  | _ => false
  end.

(** The relative error of one rounding is at most [eps = 2^-23]. *)
Definition eps : Q := 1 # 8388608.

Definition close (x r : Q) : Prop :=
  (x * (1 - eps) <= r /\ r <= x * (1 + eps))%Q.

Definition p2 (e : Z) : Q := (2 ^ e)%Q.

(** *** Running sums *)

(** The bound on the relative error of the weighted sum against the weight
    total after [c] taps. *)
Definition drift (c : Z) : Q := (6 * eps * inject_Z c)%Q.

(** A kernel weight: a normal binary32 number not above 1. *)
Definition weight (w : Binary32.float) : Prop :=
  normal w = true /\ (Binary32.to_Q w <= 1)%Q.

(** One channel of the running sums of [blur_taps] over a source whose
    pixels all carry the byte value [v] in that channel, after [c] taps
    inside the buffer: [S] is the weighted sum, [W] the weight total. *)
Definition channel (v c : Z) (S W : Binary32.float) : Prop :=
  (c = 0 /\ S = S754_zero false /\ W = S754_zero false) \/
  (0 < c /\ normal W = true /\ (Binary32.to_Q W <= inject_Z (2 * c))%Q /\
   (v = 0 /\ S = S754_zero false \/
    0 < v /\ normal S = true /\
    (inject_Z v * Binary32.to_Q W * (1 - drift c) <= Binary32.to_Q S)%Q /\
    (Binary32.to_Q S <= inject_Z v * Binary32.to_Q W * (1 + drift c))%Q)).

(** The number of taps of index below [i] that read inside [0, limit). *)
Definition taps_inside (limit pos k i : Z) : Z :=
  Z.max 0 (Z.min limit (pos - k / 2 + i))
  - Z.max 0 (Z.min limit (pos - k / 2)).

(** The sum of the rationals that the floats of a list denote. *)
Definition exact_sum (l : list Binary32.float) : Q :=
  foldr (fun w acc => (Binary32.to_Q w + acc)%Q) 0%Q l.

(** A Gaussian sample: a normal binary32 number between [2^-64] and 1. *)
Definition sample (s : Binary32.float) : Prop :=
  normal s = true /\ (p2 (-64) <= Binary32.to_Q s)%Q /\
  (Binary32.to_Q s <= 1)%Q.

(** The running sum of [c] samples against its exact value [T]. *)
Definition summed (c : Z) (T : Q) (acc : Binary32.float) : Prop :=
  (c = 0 /\ acc = S754_zero false /\ (T == 0)%Q) \/
  (0 < c /\ normal acc = true /\ (p2 (-64) <= T)%Q /\ (T <= inject_Z c)%Q /\
   (T * (1 - 2 * eps * inject_Z c) <= Binary32.to_Q acc)%Q /\
   (Binary32.to_Q acc <= T * (1 + 2 * eps * inject_Z c))%Q).

(** A weight of a kernel made of Gaussian samples: a normal binary32 number
    between [2^-80] and 2. *)
Definition bounded_weight (w : Binary32.float) : Prop :=
  normal w = true /\ (p2 (-80) <= Binary32.to_Q w)%Q /\
  (Binary32.to_Q w <= 2)%Q.

(** One channel of the running sums of [blur_taps] over a source of
    arbitrary bytes, after [c] taps inside the buffer: the weighted sum [S]
    is zero or a normal number not above 255 times the weight total [W], up
    to the drift. *)
Definition mixed_channel (c : Z) (S W : Binary32.float) : Prop :=
  (c = 0 /\ S = S754_zero false /\ W = S754_zero false) \/
  (0 < c /\ normal W = true /\ (p2 (-81) <= Binary32.to_Q W)%Q /\
   (Binary32.to_Q W <= inject_Z (3 * c))%Q /\
   (S = S754_zero false \/
    normal S = true /\ (p2 (-82) <= Binary32.to_Q S)%Q /\
    (Binary32.to_Q S <= 255 * Binary32.to_Q W * (1 + drift c))%Q)).

(** *** Atlas invariants *)

(** [bounds] lies within the extent of the image. *)
Definition rect_within (img : Image) (b : Rect) : Prop :=
  0 <= rect_x b /\ 0 <= rect_y b /\
  rect_x b + rect_width b <= width_ img /\
  rect_y b + rect_height b <= height_ img.

(** Two rectangles share a pixel. *)
Definition rects_overlap (a b : Rect) : Prop :=
  rect_x a < rect_x b + rect_width b /\ rect_x b < rect_x a + rect_width a /\
  rect_y a < rect_y b + rect_height b /\ rect_y b < rect_y a + rect_height a.

Definition regions_within (atlas : TextureAtlas) : Prop :=
  Forall (fun r => rect_within (atlasImage_ atlas) (bounds r))
         (regions_ atlas).

Definition regions_disjoint (atlas : TextureAtlas) : Prop :=
  forall (i j : nat) (ri rj : Region),
    i <> j -> regions_ atlas !! i = Some ri -> regions_ atlas !! j = Some rj ->
    ~ rects_overlap (bounds ri) (bounds rj).

(** The name index holds exactly the names of [regions_], each mapped to
    the position of its region. *)
Definition index_consistent (atlas : TextureAtlas) : Prop :=
  forall (nm : string) (i : nat),
    regionMap_ atlas !! nm = Some i <->
    exists r, regions_ atlas !! i = Some r /\ name r = nm.

(** Atlases reachable from the constructor by [addTexture], [optimize] and
    [clear]; every call of [optimize] may sort with any sorting routine. *)
Inductive reachable : TextureAtlas -> Prop :=
  | reachable_new (w h : Z) :
      0 <= w < 2 ^ 32 -> 0 <= h < 2 ^ 32 -> reachable (TextureAtlas_new w h)
  | reachable_addTexture atlas nm texture ok atlas' :
      reachable atlas ->
      addTexture (F:=Binary32.float) atlas nm texture = Some (ok, atlas') ->
      reachable atlas'
  | reachable_optimize (SR : StdSort) atlas atlas' :
      reachable atlas ->
      optimize (F:=Binary32.float) atlas = Some atlas' ->
      reachable atlas'
  | reachable_clear atlas :
      reachable atlas -> reachable (clear atlas).

(** The regions already moved by the repacking loop of [optimize] stand on
    shelves: each lies between the left and right edge of an atlas [W]
    pixels wide, and either ends above the current shelf or stands on it,
    to the left of the cursor and no higher than the shelf so far; no two
    of them overlap. *)
Definition shelved (W : Z) (cur : Cursor) (moved : list Region) : Prop :=
  0 <= currentX cur <= W /\ 0 <= currentY cur /\ 0 <= rowHeight cur /\
  Forall (fun r =>
            0 <= rect_x (bounds r) /\
            rect_x (bounds r) + rect_width (bounds r) <= W /\
            (rect_y (bounds r) + rect_height (bounds r) <= currentY cur \/
             rect_y (bounds r) = currentY cur /\
             rect_x (bounds r) + rect_width (bounds r) <= currentX cur /\
             rect_height (bounds r) <= rowHeight cur)) moved /\
  (forall i j ri rj,
     i <> j -> moved !! i = Some ri -> moved !! j = Some rj ->
     ~ rects_overlap (bounds ri) (bounds rj)).

(** Region [r'] of the image [new] carries region [r] of the image [old]:
    same name, same size, and wherever a pixel of [r'] lies above the lower
    edge of [new] it reads as the corresponding pixel of [r] in [old]. *)
Definition moved_from (old new : Image) (r r' : Region) : Prop :=
  name r' = name r /\
  rect_width (bounds r') = rect_width (bounds r) /\
  rect_height (bounds r') = rect_height (bounds r) /\
  0 <= rect_x (bounds r') /\ 0 <= rect_y (bounds r') /\
  forall dx dy,
    0 <= dx < rect_width (bounds r) -> 0 <= dy < rect_height (bounds r) ->
    rect_y (bounds r') + dy < height_ new ->
    getPixel (F:=Binary32.float) new
      (rect_x (bounds r') + dx) (rect_y (bounds r') + dy)
    = getPixel old (rect_x (bounds r) + dx) (rect_y (bounds r) + dy).

(** ** Concrete inputs *)

(** A 1 x 1 atlas holding one white texel. *)
Definition white_texel : Image :=
  mkImage 1 1 RGBA ["255"; "255"; "255"; "255"]%byte.

Definition white_atlas : TextureAtlas :=
  mkTextureAtlas white_texel [mkRegion (mkRect 0 0 1 1) "a"]
                 (<["a"%string := 0%nat]> ∅).

(** A 2 x 2 atlas of four different texels with two regions: "a" is the
    texel at (0, 0), "b" the right column. *)
Definition two_columns : TextureAtlas :=
  mkTextureAtlas
    (mkImage 2 2 RGBA
       ["010"; "011"; "012"; "013"; "020"; "021"; "022"; "023";
        "030"; "031"; "032"; "033"; "040"; "041"; "042"; "043"]%byte)
    [mkRegion (mkRect 0 0 1 1) "a"; mkRegion (mkRect 1 0 1 2) "b"]
    (<["b"%string := 1%nat]> (<["a"%string := 0%nat]> ∅)).

(** Successive insertions, as a caller performs them. *)
Definition add_all (atlas : TextureAtlas) (textures : list (string * Image))
    : option TextureAtlas :=
  foldl (fun acc nt => a ← acc; r ← addTexture (F:=Binary32.float) a nt.1 nt.2;
                       Some r.2)
        (Some atlas) textures.

(** What the invariants speak about: the regions and the extent. *)
Definition layout (atlas : TextureAtlas) : list Region * Z * Z :=
  (regions_ atlas, width_ (atlasImage_ atlas), height_ (atlasImage_ atlas)).

(** Three 10 x 10 textures on a 20 x 10 atlas. *)
Definition three_squares : option TextureAtlas :=
  add_all (TextureAtlas_new 20 10)
    [("a"%string, Image_new 10 10 RGBA); ("b"%string, Image_new 10 10 RGBA);
     ("c"%string, Image_new 10 10 RGBA)].

(** Five strips of height 1 on a 10 x 2 atlas. *)
Definition five_strips : option TextureAtlas :=
  add_all (TextureAtlas_new 10 2)
    [("a"%string, Image_new 3 1 RGBA); ("b"%string, Image_new 3 1 RGBA);
     ("c"%string, Image_new 3 1 RGBA); ("d"%string, Image_new 5 1 RGBA);
     ("e"%string, Image_new 2 1 RGBA)].

(** A uniform 10 x 10 RGBA buffer: every pixel is (200, 200, 200, 255). *)
Definition gray_square : Image :=
  mkImage 10 10 RGBA (concat (replicate 100 ["200"; "200"; "200"; "255"]%byte)).

(** The rational coordinates of a point with [float] coordinates. *)
Definition exact_point (p : Vector2f Binary32.float) : Vector2f Q :=
  mkVector2f (Binary32.to_Q (vx p)) (Binary32.to_Q (vy p)).

(** [(0.5, 0.5)], [(-7.5, -7.5)] and [(3, 3 - 2^-22)]: all coordinates are
    binary32 numbers. *)
Definition thin_p1 : Vector2f Binary32.float :=
  mkVector2f (of_dec 1 2) (of_dec 1 2).
Definition thin_p2 : Vector2f Binary32.float :=
  mkVector2f (of_dec (-15) 2) (of_dec (-15) 2).
Definition thin_p3 : Vector2f Binary32.float :=
  mkVector2f (of_Z 3) (of_dec 12582911 4194304).

Definition opaque_white : Color Binary32.float :=
  mkColor (of_Z 255) (of_Z 255) (of_Z 255) (of_Z 255).

(** Values that the draws [dis(gen)] in [0, 1) can take: 0.5 at the second
    draw, 0 elsewhere. *)
Definition draws_a (i : nat) : Binary32.float :=
  match i with 1%nat => of_dec 1 2 | _ => of_Z 0 end.

(** A row of 13 opaque black pixels, and the same row with one white pixel
    at column [x]. *)
Definition black_row : Image :=
  mkImage 13 1 RGBA (concat (replicate 13 ["000"; "000"; "000"; "255"]%byte)).

Definition lit_row (x : Z) : option Image :=
  setPixel black_row x 0 opaque_white.

(** * Properties *)

(** ** Buffer indexing *)

Lemma bytesPerPixel_pos f : 1 <= bytesPerPixel f <= 4.
Proof. destruct f; simpl; lia. Qed.

Lemma u32_small z : 0 <= z < 2 ^ 32 -> u32 z = z.
Proof. intros; unfold u32; apply Z.mod_small; lia. Qed.

Lemma pixel_span (w h bpp x y : Z) :
  0 <= x < w -> 0 <= y < h -> 1 <= bpp ->
  0 <= (y * w + x) * bpp /\ (y * w + x) * bpp + bpp <= w * h * bpp.
Proof.
  intros Hx Hy Hb.
  assert (H1 : 0 <= y * w) by nia.
  assert (H2 : (y + 1) * w <= h * w) by (apply Z.mul_le_mono_nonneg_r; lia).
  assert (H3 : (y * w + x + 1) * bpp <= h * w * bpp)
    by (apply Z.mul_le_mono_nonneg_r; lia).
  split; [apply Z.mul_nonneg_nonneg; lia |].
  replace (w * h * bpp) with (h * w * bpp) by ring. lia.
Qed.

Lemma getPixelIndex_wf img x y :
  wf img -> 0 <= x < width_ img -> 0 <= y < height_ img ->
  getPixelIndex img x y = (y * width_ img + x) * getBytesPerPixel img /\
  0 <= getPixelIndex img x y /\
  (Z.to_nat (getPixelIndex img x y + getBytesPerPixel img)
     <= length (data_ img))%nat.
Proof.
  intros (Hw & Hh & Hlt & Hlen) Hx Hy.
  pose proof (bytesPerPixel_pos (format_ img)) as Hb.
  fold (getBytesPerPixel img) in Hb.
  destruct (pixel_span (width_ img) (height_ img) (getBytesPerPixel img) x y)
    as [H0 H1]; [lia .. |].
  assert (E : getPixelIndex img x y
              = (y * width_ img + x) * getBytesPerPixel img).
  { unfold getPixelIndex. apply u32_small. lia. }
  rewrite E, Hlen. repeat split; lia.
Qed.

Lemma store_Some d i v :
  (Z.to_nat i < length d)%nat -> store d i v = Some (<[Z.to_nat i := v]> d).
Proof.
  intros Hi. unfold store.
  destruct (Nat.ltb_spec (Z.to_nat i) (length d)); [done | lia].
Qed.

Lemma store_inv d i v d' :
  store d i v = Some d' ->
  (Z.to_nat i < length d)%nat /\ d' = <[Z.to_nat i := v]> d.
Proof.
  unfold store.
  destruct (Nat.ltb_spec (Z.to_nat i) (length d)); [|done].
  intros [= <-]. done.
Qed.

(** ** Write then read *)

Section RoundTrip.
Context {F : Type} {AF : Arith F}.

Lemma in_bounds_true img x y :
  x < width_ img -> y < height_ img -> in_bounds img x y = true.
Proof.
  intros. unfold in_bounds.
  apply andb_true_intro; split; apply Z.ltb_lt; lia.
Qed.

Lemma in_bounds_false img x y :
  ~ (x < width_ img /\ y < height_ img) -> in_bounds img x y = false.
Proof.
  intros Hn. unfold in_bounds.
  destruct (Z.ltb_spec x (width_ img)), (Z.ltb_spec y (height_ img));
    simpl; try reflexivity.
  exfalso; apply Hn; lia.
Qed.

Lemma load_insert_eq (d : list byte) i v :
  (Z.to_nat i < length d)%nat -> load (<[Z.to_nat i := v]> d) i = Some v.
Proof. intros. unfold load. by apply list_lookup_insert_eq. Qed.

Lemma load_insert_ne (d : list byte) i j v :
  Z.to_nat i <> Z.to_nat j -> load (<[Z.to_nat i := v]> d) j = load d j.
Proof. intros. unfold load. by apply list_lookup_insert_ne. Qed.

Lemma setPixelUnsafe_getPixelUnsafe img x y (c : Color F) :
  wf img -> 0 <= x < width_ img -> 0 <= y < height_ img ->
  (img' ← setPixelUnsafe img x y c; getPixelUnsafe img' x y)
  = convert (format_ img) c.
Proof.
  intros Hwf Hx Hy.
  destruct (getPixelIndex_wf img x y Hwf Hx Hy) as (_ & Hi0 & Hlen).
  unfold setPixelUnsafe, getPixelUnsafe, convert.
  assert (Hi : forall d, getPixelIndex (with_data img d) x y
                         = getPixelIndex img x y) by done.
  set (i := getPixelIndex img x y) in *.
  unfold getBytesPerPixel in Hlen.
  destruct (format_ img) eqn:Hf; simpl in Hlen.
  all: destruct (to_uint8 (cr c)) as [r|], (to_uint8 (cg c)) as [g|],
         (to_uint8 (cb c)) as [b|], (to_uint8 (ca c)) as [a|],
         (to_uint8 (luminance c)) as [l|]; simpl.
  all: repeat (rewrite store_Some by (rewrite ?length_insert; lia); simpl).
  all: try reflexivity.
  all: rewrite ?Hf, ?Hi.
  all: repeat first
       [ rewrite load_insert_eq by (rewrite ?length_insert; lia)
       | rewrite load_insert_ne by lia ]; simpl.
  all: reflexivity.
Qed.

(** Round trip through the checked accessors. *)
Lemma setPixel_getPixel img x y (c : Color F) :
  wf img -> 0 <= x < width_ img -> 0 <= y < height_ img ->
  (img' ← setPixel img x y c; getPixel img' x y) = convert (format_ img) c.
Proof.
  intros Hwf Hx Hy.
  rewrite <- (setPixelUnsafe_getPixelUnsafe img x y c Hwf Hx Hy).
  unfold setPixel. rewrite in_bounds_true by lia.
  destruct (setPixelUnsafe img x y c) as [img'|] eqn:E; simpl; [|done].
  unfold getPixel.
  assert (in_bounds img' x y = in_bounds img x y) as ->.
  { unfold setPixelUnsafe in E.
    destruct (format_ img); simplify_option_eq; done. }
  by rewrite in_bounds_true by lia.
Qed.
End RoundTrip.

(** ** Pixel access *)

Lemma to_uint8_of_byte (b : byte) :
  to_uint8 (F:=Binary32.float) (of_byte b) = Some b.
Proof. destruct b; vm_compute; reflexivity. Qed.

Lemma wf_Image_new w h f :
  0 <= w -> 0 <= h -> w * h * bytesPerPixel f < 2 ^ 32 ->
  wf (Image_new w h f).
Proof.
  intros Hw Hh Hlt. unfold wf, Image_new, getBytesPerPixel; simpl.
  repeat split; try lia.
  rewrite length_replicate. unfold bufferSize.
  pose proof (bytesPerPixel_pos f).
  rewrite u32_small; [done | split; [|done]].
  apply Z.mul_nonneg_nonneg; [apply Z.mul_nonneg_nonneg|]; lia.
Qed.

(** C9. For every buffer and every coordinate outside it, [setPixel] returns
    the buffer as it was (every byte unchanged) and [getPixel] returns the
    default colour [Color()], which is [Color::white()], fully opaque white;
    both are defined results, no error is raised.  In particular this holds
    at [x = width, y = 0]. *)
Theorem out_of_bounds_access {F : Type} {AF : Arith F}
    (img : Image) (x y : Z) (c : Color F) :
  ~ (x < width_ img /\ y < height_ img) ->
  setPixel img x y c = Some img /\
  getPixel img x y = Some Color_white /\
  setPixel img (width_ img) 0 c = Some img /\
  getPixel img (width_ img) 0 = Some Color_white.
Proof.
  intros Hout. unfold setPixel, getPixel.
  rewrite (in_bounds_false img x y Hout).
  rewrite (in_bounds_false img (width_ img) 0) by lia.
  done.
Qed.

Lemma out_of_bounds_access_witness :
  let img := Image_new 2 2 RGBA in
  let c := mkColor (of_Z 9) (of_Z 8) (of_Z 7) (of_Z 6) in
  setPixel (F:=Binary32.float) img 2 0 c = Some img /\
  getPixel (F:=Binary32.float) img 2 0 = Some Color_white /\
  setPixel img (width_ img) 0 c = Some img /\
  getPixel (F:=Binary32.float) img (width_ img) 0 = Some Color_white.
Proof.
  intros img c. apply (out_of_bounds_access img 2 0 c). simpl. lia.
Defined.

(** C8, the claim as stated, fails: a colour with fractional channels written
    to an RGBA buffer is read back truncated. *)
Lemma roundtrip_counterexample :
  let half : Binary32.float := of_dec 1 2 in
  let c := mkColor half half half half in
  let zero : Binary32.float := of_Z 0 in
  (img' ← setPixel (Image_new 1 1 RGBA) 0 0 c; getPixel img' 0 0)
    = Some (mkColor zero zero zero zero) /\
  (img' ← setPixel (Image_new 1 1 RGBA) 0 0 c; getPixel img' 0 0) <> Some c.
Proof. split; [vm_compute; reflexivity | vm_compute; discriminate]. Qed.

(** C8 (amended). On a well-formed buffer and at an in-bounds coordinate,
    [setPixel] followed by [getPixel] returns the colour passed through the
    format's conversion.  On an RGBA buffer a colour whose four channels are
    byte values (whole numbers 0..255) comes back exactly.  On a Grayscale
    buffer, when the single-precision luminance
    [0.299f * R + 0.587f * G + 0.114f * B] truncates to the byte [l], the
    colour that comes back has R = G = B = [l] and alpha [1.0]. *)
Theorem setPixel_getPixel_roundtrip (img : Image) (x y : Z) :
  wf img -> 0 <= x < width_ img -> 0 <= y < height_ img ->
  (forall c : Color Binary32.float,
     (img' ← setPixel img x y c; getPixel img' x y)
     = convert (format_ img) c) /\
  (format_ img = RGBA -> forall r g b a : byte,
     let c : Color Binary32.float :=
       mkColor (of_byte r) (of_byte g) (of_byte b) (of_byte a) in
     exists img', setPixel img x y c = Some img' /\
                  getPixel img' x y = Some c) /\
  (format_ img = Grayscale -> forall (c : Color Binary32.float) (l : byte),
     to_uint8 (luminance c) = Some l ->
     exists img', setPixel img x y c = Some img' /\
                  getPixel (F:=Binary32.float) img' x y
                  = Some (mkColor (of_byte l) (of_byte l) (of_byte l)
                                  (of_Z 1))).
Proof.
  intros Hwf Hx Hy.
  split; [intros c; by apply setPixel_getPixel|].
  split.
  - intros Hf r g b a c.
    pose proof (setPixel_getPixel img x y c Hwf Hx Hy) as E.
    rewrite Hf in E. unfold convert, c in E; cbn [cr cg cb ca] in E.
    rewrite !to_uint8_of_byte in E.
    destruct (setPixel img x y _) as [img'|]; [|done].
    exists img'. split; [done|]. exact E.
  - intros Hf c l Hl.
    pose proof (setPixel_getPixel img x y c Hwf Hx Hy) as E.
    rewrite Hf in E. unfold convert in E. rewrite Hl in E.
    destruct (setPixel img x y c) as [img'|]; [|done].
    exists img'. split; [done|]. exact E.
Qed.

Lemma setPixel_getPixel_roundtrip_witness :
  let img := Image_new 2 2 RGBA in
  (forall c : Color Binary32.float,
     (img' ← setPixel img 1 1 c; getPixel img' 1 1)
     = convert (format_ img) c) /\
  (format_ img = RGBA -> forall r g b a : byte,
     let c : Color Binary32.float :=
       mkColor (of_byte r) (of_byte g) (of_byte b) (of_byte a) in
     exists img', setPixel img 1 1 c = Some img' /\
                  getPixel img' 1 1 = Some c) /\
  (format_ img = Grayscale -> forall (c : Color Binary32.float) (l : byte),
     to_uint8 (luminance c) = Some l ->
     exists img', setPixel img 1 1 c = Some img' /\
                  getPixel (F:=Binary32.float) img' 1 1
                  = Some (mkColor (of_byte l) (of_byte l) (of_byte l)
                                  (of_Z 1))).
Proof.
  intros img. apply (setPixel_getPixel_roundtrip img 1 1).
  - apply wf_Image_new; simpl; lia.
  - simpl; lia.
  - simpl; lia.
Defined.

(** ** Loops and block copies *)

Lemma for_loop_invariant {S : Type} (P : S -> Prop) (body : Z -> S -> option S)
    (n : nat) (lo : Z) (s : S) :
  (forall i s, lo <= i < lo + Z.of_nat n -> P s ->
               exists s', body i s = Some s' /\ P s') ->
  P s -> exists s', for_loop lo n body s = Some s' /\ P s'.
Proof.
  revert lo s. induction n as [|n IH]; intros lo s Hbody Hs.
  - exists s. done.
  - simpl. destruct (Hbody lo s) as (s1 & -> & Hs1); [lia | done |]. simpl.
    apply IH; [|done]. intros i s2 Hi. apply Hbody. lia.
Qed.

Lemma for_loop_shift {S : Type} (f g : Z -> S -> option S) (k : Z) (n : nat) :
  forall lo s,
    (forall i s, lo <= i < lo + Z.of_nat n -> g i s = f (i + k) s) ->
    for_loop lo n g s = for_loop (lo + k) n f s.
Proof.
  induction n as [|n IH]; intros lo s Hfg; simpl; [done|].
  rewrite Hfg by lia. destruct (f (lo + k) s) as [s1|]; simpl; [|done].
  replace (lo + k + 1) with (lo + 1 + k) by lia.
  apply IH. intros i s' Hi. apply Hfg. lia.
Qed.

Lemma byte_to_Z_range (b : byte) : 0 <= byte_to_Z b <= 255.
Proof. destruct b; vm_compute; split; discriminate. Qed.

Lemma same_shape_wf img img' : same_shape img img' -> wf img -> wf img'.
Proof.
  intros (Hw & Hh & Hf & Hl) (H1 & H2 & H3 & H4).
  unfold wf, getBytesPerPixel in *. rewrite Hw, Hh, Hf, Hl. done.
Qed.

Lemma same_shape_refl img : same_shape img img.
Proof. done. Qed.

Lemma same_shape_trans a b c :
  same_shape a b -> same_shape b c -> same_shape a c.
Proof.
  intros (?&?&?&?) (?&?&?&?). unfold same_shape. repeat split; congruence.
Qed.

Lemma load_is_Some d i :
  0 <= i -> (Z.to_nat i < length d)%nat -> exists v, load d i = Some v.
Proof.
  intros _ Hi. unfold load.
  destruct (lookup_lt_is_Some_2 d (Z.to_nat i) Hi) as [v Hv]. by exists v.
Qed.

Lemma to_uint8_one : to_uint8 (F:=Binary32.float) (of_Z 1) = Some x01.
Proof. vm_compute. reflexivity. Qed.

Lemma storable_default : storable Color_default.
Proof.
  unfold storable, Color_default; cbn [cr cg cb ca].
  rewrite to_uint8_one. repeat split; by eexists.
Qed.

Lemma getPixel_storable img x y :
  wf img -> 0 <= x -> 0 <= y ->
  exists c, getPixel (F:=Binary32.float) img x y = Some c /\ storable c.
Proof.
  intros Hwf Hx Hy. unfold getPixel, in_bounds.
  destruct (Z.ltb_spec x (width_ img)), (Z.ltb_spec y (height_ img)); simpl.
  2-4: exists Color_default; split; [done|]; apply storable_default.
  destruct (getPixelIndex_wf img x y Hwf) as (_ & Hi0 & Hlen); [lia..|].
  unfold getPixelUnsafe. set (i := getPixelIndex img x y) in *.
  unfold getBytesPerPixel in Hlen.
  pose proof to_uint8_one as Hone.
  destruct (format_ img); simpl in Hlen.
  all: repeat match goal with
       | |- context [load ?d ?j] =>
           let v := fresh "v" in
           destruct (load_is_Some d j) as [v ->]; [lia | lia |];
           cbn [mbind option_bind]
       end.
  all: eexists; split; [reflexivity|].
  all: unfold storable, Color3; cbn [cr cg cb ca];
       rewrite ?to_uint8_of_byte, ?Hone; repeat split; by eexists.
Qed.

Lemma setPixel_total img x y (c : Color Binary32.float) :
  wf img -> format_ img <> Grayscale -> 0 <= x -> 0 <= y -> storable c ->
  exists img', setPixel img x y c = Some img' /\ same_shape img img'.
Proof.
  intros Hwf Hf Hx Hy ([r Hr] & [g Hg] & [b Hb] & [a Ha]).
  unfold setPixel, in_bounds.
  destruct (Z.ltb_spec x (width_ img)), (Z.ltb_spec y (height_ img)); simpl.
  2-4: by exists img.
  destruct (getPixelIndex_wf img x y Hwf) as (_ & Hi0 & Hlen); [lia..|].
  unfold setPixelUnsafe. set (i := getPixelIndex img x y) in *.
  unfold getBytesPerPixel in Hlen. rewrite Hr, Hg, Hb, Ha.
  destruct (format_ img) eqn:E; simpl in Hlen; [| | | |done]; simpl.
  all: repeat (rewrite store_Some by (rewrite ?length_insert; lia); simpl).
  all: eexists; split; [reflexivity|].
  all: unfold same_shape, with_data; simpl; rewrite ?length_insert; done.
Qed.

Lemma copy_block_total src sx sy w h dst dx dy :
  wf src -> wf dst -> format_ dst <> Grayscale ->
  exists dst', copy_block (F:=Binary32.float) src sx sy w h dst dx dy
               = Some dst' /\ same_shape dst dst'.
Proof.
  intros Hsrc Hdst Hf. unfold copy_block.
  pose (P := fun d : Image => same_shape dst d).
  apply (for_loop_invariant P); [|apply same_shape_refl].
  intros y d _ Hd.
  apply (for_loop_invariant P); [|done].
  intros x d' _ Hd'.
  destruct (getPixel_storable src (u32 (sx + x)) (u32 (sy + y)))
    as (c & -> & Hc); [done | apply Z.mod_pos_bound; lia ..|]; simpl.
  destruct (setPixel_total d' (u32 (dx + x)) (u32 (dy + y)) c)
    as (d'' & -> & Hs); try done.
  - by apply (same_shape_wf dst).
  - destruct Hd' as (_ & _ & -> & _). done.
  - apply Z.mod_pos_bound; lia.
  - apply Z.mod_pos_bound; lia.
  - exists d''. split; [done|]. by apply (same_shape_trans dst d').
Qed.

(** ** Successful insertion *)

(** An insertion under a fresh name that passes the height test completes,
    appends the region at the scanned cursor and indexes it. *)
Lemma addTexture_fresh (atlas : TextureAtlas) (nm : string) (texture : Image) :
  wf (atlasImage_ atlas) -> format_ (atlasImage_ atlas) <> Grayscale ->
  wf texture -> regionMap_ atlas !! nm = None ->
  let cur := scan (width_ texture) (width_ (atlasImage_ atlas))
                  (regions_ atlas) in
  u32 (currentY cur + height_ texture) <= height_ (atlasImage_ atlas) ->
  exists img',
    same_shape (atlasImage_ atlas) img' /\
    addTexture (F:=Binary32.float) atlas nm texture
    = Some (true,
            mkTextureAtlas img'
              (regions_ atlas ++
                 [mkRegion (mkRect (currentX cur) (currentY cur)
                                   (width_ texture) (height_ texture)) nm])
              (<[nm := length (regions_ atlas)]> (regionMap_ atlas))).
Proof.
  intros Hwf Hf Ht Hnm cur Hfit. unfold addTexture.
  destruct (decide (is_Some (regionMap_ atlas !! nm))) as [[i Hi]|_];
    [congruence|].
  fold cur. destruct (Z.gtb_spec (u32 (currentY cur + height_ texture))
                                 (height_ (atlasImage_ atlas))); [lia|].
  destruct (copy_block_total texture 0 0 (width_ texture) (height_ texture)
              (atlasImage_ atlas) (currentX cur) (currentY cur))
    as (img' & -> & Hs); try done.
  exists img'. split; [done|]. simpl. do 3 f_equal.
  rewrite length_app; simpl. f_equal. lia.
Qed.

Lemma addTexture_placed (atlas : TextureAtlas) (nm : string) (texture : Image)
    (cx cy rh : Z) :
  wf (atlasImage_ atlas) -> format_ (atlasImage_ atlas) <> Grayscale ->
  wf texture -> regionMap_ atlas !! nm = None ->
  scan (width_ texture) (width_ (atlasImage_ atlas)) (regions_ atlas)
    = mkCursor cx cy rh ->
  u32 (cy + height_ texture) <= height_ (atlasImage_ atlas) ->
  exists atlas',
    addTexture (F:=Binary32.float) atlas nm texture = Some (true, atlas') /\
    regions_ atlas'
      = regions_ atlas ++
          [mkRegion (mkRect cx cy (width_ texture) (height_ texture)) nm] /\
    regionMap_ atlas' = <[nm := length (regions_ atlas)]> (regionMap_ atlas) /\
    same_shape (atlasImage_ atlas) (atlasImage_ atlas').
Proof.
  intros Hwf Hf Ht Hnm Hscan Hfit.
  destruct (addTexture_fresh atlas nm texture) as (img' & Hs & Hadd);
    try done.
  - rewrite Hscan. done.
  - rewrite Hscan in Hadd. simpl in Hadd.
    eexists. split; [exact Hadd|]. done.
Qed.

(** ** The packing scenario of the specification *)

(** C1. On a 20 x 10 atlas the textures "a" and "b", both 10 x 10, are placed
    at (0,0) and (10,0).  A third 10 x 10 texture under any other name is
    NOT refused: the scan ends with the cursor at (20,0) without wrapping,
    the height test [0 + 10 > 10] does not fire, [addTexture] returns [true]
    and a third region is recorded at origin (20,0), outside the atlas. *)
Theorem third_texture_is_accepted (t1 t2 t3 : Image) (nm : string) :
  wf t1 -> width_ t1 = 10 -> height_ t1 = 10 ->
  wf t2 -> width_ t2 = 10 -> height_ t2 = 10 ->
  wf t3 -> width_ t3 = 10 -> height_ t3 = 10 ->
  nm <> "a"%string -> nm <> "b"%string ->
  exists a1 a2 a3,
    addTexture (F:=Binary32.float) (TextureAtlas_new 20 10) "a" t1
      = Some (true, a1) /\
    regions_ a1 = [mkRegion (mkRect 0 0 10 10) "a"] /\
    addTexture (F:=Binary32.float) a1 "b" t2 = Some (true, a2) /\
    regions_ a2 = [mkRegion (mkRect 0 0 10 10) "a";
                   mkRegion (mkRect 10 0 10 10) "b"] /\
    addTexture (F:=Binary32.float) a2 nm t3 = Some (true, a3) /\
    regions_ a3 = [mkRegion (mkRect 0 0 10 10) "a";
                   mkRegion (mkRect 10 0 10 10) "b";
                   mkRegion (mkRect 20 0 10 10) nm].
Proof.
  intros H1 W1 E1 H2 W2 E2 H3 W3 E3 Na Nb.
  assert (Hnew : wf (Image_new 20 10 RGBA))
    by (apply wf_Image_new; simpl; lia).
  destruct (addTexture_placed (TextureAtlas_new 20 10) "a" t1 0 0 0)
    as (a1 & A1 & R1 & M1 & S1); try done.
  { rewrite E1. vm_compute. discriminate. }
  simpl in R1, M1, S1. rewrite W1, E1 in R1.
  destruct S1 as (Sw1 & Sh1 & Sf1 & Sl1).
  destruct (addTexture_placed a1 "b" t2 10 0 10)
    as (a2 & A2 & R2 & M2 & S2); try done.
  { apply (same_shape_wf (Image_new 20 10 RGBA)); done. }
  { rewrite Sf1. done. }
  { rewrite M1. by rewrite lookup_insert_ne, lookup_empty. }
  { rewrite R1, W2, Sw1. reflexivity. }
  { rewrite E2, Sh1. vm_compute. discriminate. }
  rewrite R1, W2, E2 in R2. rewrite R1, M1 in M2. simpl in R2, M2.
  destruct S2 as (Sw2 & Sh2 & Sf2 & Sl2).
  destruct (addTexture_placed a2 nm t3 20 0 10)
    as (a3 & A3 & R3 & M3 & S3); try done.
  { apply (same_shape_wf a1.(atlasImage_)); [done|].
    apply (same_shape_wf (Image_new 20 10 RGBA)); done. }
  { rewrite Sf2, Sf1. done. }
  { rewrite M2. by rewrite !lookup_insert_ne, lookup_empty. }
  { rewrite R2, W3, Sw2, Sw1. reflexivity. }
  { rewrite E3, Sh2, Sh1. vm_compute. discriminate. }
  rewrite R2, W3, E3 in R3. simpl in R3.
  exists a1, a2, a3. done.
Qed.

Lemma third_texture_is_accepted_witness :
  let t := Image_new 10 10 RGBA in
  exists a1 a2 a3,
    addTexture (F:=Binary32.float) (TextureAtlas_new 20 10) "a" t
      = Some (true, a1) /\
    regions_ a1 = [mkRegion (mkRect 0 0 10 10) "a"] /\
    addTexture (F:=Binary32.float) a1 "b" t = Some (true, a2) /\
    regions_ a2 = [mkRegion (mkRect 0 0 10 10) "a";
                   mkRegion (mkRect 10 0 10 10) "b"] /\
    addTexture (F:=Binary32.float) a2 "c" t = Some (true, a3) /\
    regions_ a3 = [mkRegion (mkRect 0 0 10 10) "a";
                   mkRegion (mkRect 10 0 10 10) "b";
                   mkRegion (mkRect 20 0 10 10) "c"].
Proof.
  intros t.
  assert (Ht : wf t) by (apply wf_Image_new; simpl; lia).
  apply (third_texture_is_accepted t t t "c"); done.
Defined.

(** ** Clearing *)

Lemma create_same_size (img : Image) :
  wf img -> create img (width_ img) (height_ img) (format_ img) = img.
Proof.
  intros (Hw & Hh & Hlt & Hlen). destruct img as [w h f d]; simpl in *.
  unfold create, getBytesPerPixel in *; simpl in *. f_equal.
  assert (E : bufferSize w h f = length d).
  { unfold bufferSize. rewrite Hlen, u32_small; [done|].
    pose proof (bytesPerPixel_pos f).
    split; [|done].
    apply Z.mul_nonneg_nonneg; [apply Z.mul_nonneg_nonneg|]; lia. }
  rewrite E. apply resize_all.
Qed.

(** C3. [clear] empties the region list and the name index, but the atlas
    image keeps every byte it had: [create] with unchanged dimensions and
    format resizes the byte vector to the size it already has, which
    preserves its contents instead of zeroing them. *)
Theorem clear_keeps_atlas_image (atlas : TextureAtlas) :
  wf (atlasImage_ atlas) ->
  regions_ (clear atlas) = [] /\
  regionMap_ (clear atlas) = ∅ /\
  atlasImage_ (clear atlas) = atlasImage_ atlas.
Proof.
  intros Hwf. repeat split; try done.
  unfold clear; simpl. by apply create_same_size.
Qed.

Lemma white_atlas_built :
  addTexture (F:=Binary32.float) (TextureAtlas_new 1 1) "a" white_texel
  = Some (true, white_atlas).
Proof. vm_compute. reflexivity. Qed.

Lemma clear_keeps_atlas_image_witness :
  (regions_ (clear white_atlas) = [] /\
   regionMap_ (clear white_atlas) = ∅ /\
   atlasImage_ (clear white_atlas) = atlasImage_ white_atlas) /\
  data_ (atlasImage_ white_atlas) = [xff; xff; xff; xff].
Proof.
  split; [|reflexivity].
  apply (clear_keeps_atlas_image white_atlas).
  unfold wf; simpl. repeat split; lia.
Defined.

Lemma cleared_atlas_not_blank :
  data_ (atlasImage_ (clear white_atlas)) = [xff; xff; xff; xff] /\
  data_ (create white_texel 1 1 RGBA) = [xff; xff; xff; xff].
Proof. split; vm_compute; reflexivity. Qed.

(** ** The packing invariant *)

Lemma reachable_add_all (textures : list (string * Image))
    (atlas atlas' : TextureAtlas) :
  reachable atlas -> add_all atlas textures = Some atlas' -> reachable atlas'.
Proof.
  unfold add_all. revert atlas.
  induction textures as [|[nm t] rest IH]; intros atlas Hr; simpl.
  - intros [= <-]. done.
  - destruct (addTexture atlas nm t) as [[ok a1]|] eqn:E; simpl.
    + apply IH. by eapply reachable_addTexture.
    + intros Hnone. exfalso. clear -Hnone.
      induction rest as [|x rest IH]; simpl in *; [done|]. by apply IH.
Qed.

Lemma three_squares_layout :
  layout <$> three_squares
  = Some ([mkRegion (mkRect 0 0 10 10) "a"; mkRegion (mkRect 10 0 10 10) "b";
           mkRegion (mkRect 20 0 10 10) "c"], 20, 10).
Proof. vm_compute. reflexivity. Qed.

Lemma five_strips_layout :
  layout <$> five_strips
  = Some ([mkRegion (mkRect 0 0 3 1) "a"; mkRegion (mkRect 3 0 3 1) "b";
           mkRegion (mkRect 6 0 3 1) "c"; mkRegion (mkRect 3 1 5 1) "d";
           mkRegion (mkRect 5 1 2 1) "e"], 10, 2).
Proof. vm_compute. reflexivity. Qed.

(** C2. The first two parts of the invariant do not hold of the reachable
    atlases.  After three 10 x 10 insertions into a 20 x 10 atlas the third
    region lies at x = 20..30, outside the image.  After strips of widths
    3, 3, 3, 5, 2 are inserted into a 10 x 2 atlas every region lies within
    the image, yet "d" = (3,1,5,1) and "e" = (5,1,2,1) overlap. *)
Theorem packing_invariant_broken :
  (exists atlas, reachable atlas /\ ~ regions_within atlas) /\
  (exists atlas, reachable atlas /\ regions_within atlas /\
                 ~ regions_disjoint atlas).
Proof.
  split.
  - pose proof three_squares_layout as L.
    destruct three_squares as [atlas|] eqn:E; [|done].
    exists atlas. split.
    + eapply (reachable_add_all _ (TextureAtlas_new 20 10)); [|exact E].
      apply reachable_new; lia.
    + injection L as Lr Lw Lh. unfold regions_within.
      rewrite Lr. intros Hall.
      apply Forall_cons in Hall as [_ Hall].
      apply Forall_cons in Hall as [_ Hall].
      apply Forall_cons in Hall as [(_ & _ & Hx & _) _].
      simpl in Hx. lia.
  - pose proof five_strips_layout as L.
    destruct five_strips as [atlas|] eqn:E; [|done].
    exists atlas. split; [|split].
    + eapply (reachable_add_all _ (TextureAtlas_new 10 2)); [|exact E].
      apply reachable_new; lia.
    + injection L as Lr Lw Lh. unfold regions_within. rewrite Lr.
      repeat apply Forall_cons_2; try apply Forall_nil_2;
        unfold rect_within; simpl; lia.
    + injection L as Lr Lw Lh. intros Hdis.
      apply (Hdis 3%nat 4%nat (mkRegion (mkRect 3 1 5 1) "d")
                  (mkRegion (mkRect 5 1 2 1) "e")).
      * lia.
      * by rewrite Lr.
      * by rewrite Lr.
      * unfold rects_overlap; simpl. lia.
Qed.

(** ** The name index *)

Lemma index_consistent_NoDup (atlas : TextureAtlas) :
  index_consistent atlas -> NoDup (name <$> regions_ atlas).
Proof.
  intros Hc. apply NoDup_alt. intros i j nm Hi Hj.
  apply list_lookup_fmap_Some in Hi as (ri & -> & Hri).
  apply list_lookup_fmap_Some in Hj as (rj & Hn & Hrj).
  assert (Ei : regionMap_ atlas !! name ri = Some i)
    by (apply Hc; by exists ri).
  assert (Ej : regionMap_ atlas !! name ri = Some j)
    by (apply Hc; by exists rj).
  congruence.
Qed.

Lemma index_regions_spec (regions : list Region) :
  NoDup (name <$> regions) ->
  forall (k : nat) (m : gmap string nat) (nm : string) (i : nat),
    index_regions k regions m !! nm = Some i <->
    (exists r, (k <= i)%nat /\ regions !! (i - k)%nat = Some r /\ name r = nm)
    \/ ((nm ∉ (name <$> regions)) /\ m !! nm = Some i).
Proof.
  induction regions as [|r rest IH]; intros Hnd k m nm i; simpl.
  - split.
    + intros Hm. right. split; [apply not_elem_of_nil | done].
    + intros [(r & _ & Hr & _) | [_ Hm]]; [done | done].
  - apply NoDup_cons in Hnd as [Hr Hrest].
    rewrite (IH Hrest). split.
    + intros [(r' & Hk & Hl & Hn) | [Hnot Hm]].
      * left. exists r'. split; [lia|]. split; [|done].
        replace (i - k)%nat with (Datatypes.S (i - Datatypes.S k)) by lia.
        done.
      * destruct (decide (name r = nm)) as [<-|Hne].
        -- rewrite lookup_insert_eq in Hm. injection Hm as <-.
           left. exists r. split; [lia|]. by rewrite Nat.sub_diag.
        -- rewrite lookup_insert_ne in Hm by done.
           right. split; [|done].
           apply not_elem_of_cons. split; [congruence | done].
    + intros [(r' & Hk & Hl & Hn) | [Hnot Hm]].
      * destruct (decide (i = k)) as [->|Hik].
        -- rewrite Nat.sub_diag in Hl. injection Hl as <-.
           right. split; [by rewrite <- Hn|].
           rewrite <- Hn. apply lookup_insert_eq.
        -- left. exists r'. split; [lia|]. split; [|done].
           replace (i - k)%nat with (Datatypes.S (i - Datatypes.S k)) in Hl
             by lia.
           done.
      * apply not_elem_of_cons in Hnot as [Hne Hnot].
        right. split; [done|]. by rewrite lookup_insert_ne.
Qed.

Lemma repack_names (old : Image) (regions : list Region) :
  forall st0 st,
    foldl (fun st region => st ← st;
             repack_step (F:=Binary32.float) old st region)
          (Some st0) regions = Some st ->
    name <$> st.2 = (name <$> st0.2) ++ (name <$> regions).
Proof.
  induction regions as [|r rest IH]; intros st0 st; simpl.
  - intros [= <-]. by rewrite app_nil_r.
  - destruct (repack_step old st0 r) as [st1|] eqn:E.
    + intros Hf. rewrite (IH _ _ Hf).
      destruct st0 as [[img cur] moved]. unfold repack_step in E.
      destruct (copy_block _ _ _ _ _ _ _ _) as [img1|]; [|done].
      simpl in E. injection E as <-. simpl.
      rewrite fmap_app, <- app_assoc. done.
    + intros Hf. exfalso. clear -Hf.
      induction rest as [|x rest IH]; simpl in *; [done|]. by apply IH.
Qed.

Lemma addTexture_index_consistent atlas nm texture ok atlas' :
  index_consistent atlas ->
  addTexture (F:=Binary32.float) atlas nm texture = Some (ok, atlas') ->
  index_consistent atlas'.
Proof.
  intros Hc. unfold addTexture.
  destruct (decide (is_Some (regionMap_ atlas !! nm))) as [_|Hfresh];
    [by intros [= _ <-]|].
  destruct (_ >? _); [by intros [= _ <-]|].
  destruct (copy_block _ _ _ _ _ _ _ _) as [img|]; [|done].
  simpl. intros [= _ <-]. intros nm' i; simpl.
  set (r := mkRegion _ nm).
  rewrite length_app; simpl.
  replace (length (regions_ atlas) + 1 - 1)%nat
    with (length (regions_ atlas)) by lia.
  assert (Hnone : regionMap_ atlas !! nm = None).
  { destruct (regionMap_ atlas !! nm) eqn:E; [|done].
    exfalso. apply Hfresh. by eexists. }
  destruct (decide (nm = nm')) as [<-|Hne].
  - rewrite lookup_insert_eq. split.
    + intros [= <-]. exists r. split; [|done].
      rewrite lookup_app_r by lia. by rewrite Nat.sub_diag.
    + intros (r' & Hl & Hn).
      destruct (decide (i < length (regions_ atlas))%nat) as [Hlt|Hge].
      * rewrite lookup_app_l in Hl by done.
        assert (regionMap_ atlas !! nm = Some i)
          by (apply Hc; by exists r').
        congruence.
      * apply lookup_lt_Some in Hl. rewrite length_app in Hl; simpl in Hl.
        f_equal. lia.
  - rewrite lookup_insert_ne by done. rewrite (Hc nm' i). split.
    + intros (r' & Hl & Hn). exists r'. split; [|done].
      apply lookup_app_l_Some. done.
    + intros (r' & Hl & Hn).
      destruct (decide (i < length (regions_ atlas))%nat) as [Hlt|Hge].
      * rewrite lookup_app_l in Hl by done. by exists r'.
      * rewrite lookup_app_r in Hl by lia.
        apply list_lookup_singleton_Some in Hl as [_ <-]. done.
Qed.

Lemma optimize_index_consistent {SR : StdSort} atlas atlas' :
  index_consistent atlas ->
  optimize (F:=Binary32.float) atlas = Some atlas' ->
  index_consistent atlas'.
Proof.
  intros Hc. unfold optimize.
  destruct (foldl _ _ _) as [[[img cur] regions]|] eqn:E; [|done].
  simpl. intros [= <-]. intros nm i; simpl.
  apply repack_names in E. simpl in E.
  assert (Hnd : NoDup (name <$> regions)).
  { rewrite E, std_sort_permutation. by apply index_consistent_NoDup. }
  rewrite (index_regions_spec regions Hnd). rewrite Nat.sub_0_r. split.
  - intros [(r & _ & Hl & Hn) | [_ Hm]]; [by exists r | done].
  - intros (r & Hl & Hn). left. exists r. split; [lia | done].
Qed.

(** The third part of the atlas invariant does hold: in every reachable
    atlas the name index and the region list agree. *)
Lemma reachable_index_consistent (atlas : TextureAtlas) :
  reachable atlas -> index_consistent atlas.
Proof.
  induction 1 as [w h Hw Hh | atlas nm t ok atlas' _ IH Hadd
                 | SR atlas atlas' _ IH Hopt | atlas _ IH].
  - intros nm i; simpl. rewrite lookup_empty. split; [done|].
    by intros (r & Hl & _).
  - by eapply addTexture_index_consistent.
  - by eapply optimize_index_consistent.
  - intros nm i; simpl. rewrite lookup_empty. split; [done|].
    by intros (r & Hl & _).
Qed.

(** ** Writing one pixel *)

Lemma pixel_index_inj (w x y x' y' : Z) :
  0 <= x < w -> 0 <= x' < w -> 0 <= y -> 0 <= y' ->
  (x, y) <> (x', y') -> y * w + x <> y' * w + x'.
Proof.
  intros Hx Hx' Hy Hy' Hne Heq.
  destruct (Z.lt_trichotomy y y') as [Hlt | [-> | Hgt]].
  - assert ((y + 1) * w <= y' * w) by (apply Z.mul_le_mono_nonneg_r; lia).
    lia.
  - apply Hne. f_equal. lia.
  - assert ((y' + 1) * w <= y * w) by (apply Z.mul_le_mono_nonneg_r; lia).
    lia.
Qed.

Section WritePixel.
Context {F : Type} {AF : Arith F}.

Lemma setPixel_shape img x y (c : Color F) img' :
  setPixel img x y c = Some img' -> same_shape img img'.
Proof.
  unfold setPixel. destruct (in_bounds img x y); [|by intros [= <-]].
  unfold setPixelUnsafe. intros E.
  destruct (format_ img) eqn:Hf; simplify_option_eq.
  all: repeat match goal with
       | H : store _ _ _ = Some _ |- _ => apply store_inv in H as [_ ->]
       end.
  all: unfold same_shape, with_data; simpl; rewrite ?length_insert; done.
Qed.

Lemma getPixel_same_data img img' x y :
  width_ img' = width_ img -> height_ img' = height_ img ->
  format_ img' = format_ img ->
  (x < width_ img -> y < height_ img ->
   forall i, getPixelIndex img x y <= i
             < getPixelIndex img x y + getBytesPerPixel img ->
             load (data_ img') i = load (data_ img) i) ->
  getPixel (F:=F) img' x y = getPixel img x y.
Proof.
  intros Hw Hh Hf Hd. unfold getPixel, in_bounds. rewrite Hw, Hh.
  destruct (Z.ltb_spec x (width_ img)), (Z.ltb_spec y (height_ img));
    simpl; try done.
  specialize (Hd ltac:(done) ltac:(done)).
  unfold getPixelUnsafe.
  assert (Hi : getPixelIndex img' x y = getPixelIndex img x y)
    by (unfold getPixelIndex, getBytesPerPixel; by rewrite Hw, Hf).
  rewrite Hi, Hf. unfold getBytesPerPixel in Hd.
  destruct (format_ img); simpl in Hd; rewrite !Hd by lia; done.
Qed.

(** Writing a pixel leaves every other pixel as it was. *)
Lemma setPixel_frame img x y (c : Color F) img' x' y' :
  wf img -> 0 <= x -> 0 <= y -> 0 <= x' -> 0 <= y' ->
  setPixel img x y c = Some img' -> (x', y') <> (x, y) ->
  getPixel (F:=F) img' x' y' = getPixel img x' y'.
Proof.
  intros Hwf Hx Hy Hx' Hy' Hset Hne.
  pose proof (setPixel_shape _ _ _ _ _ Hset) as (Sw & Sh & Sf & Sl).
  apply getPixel_same_data; try done.
  intros Hxw Hyh k Hk.
  revert Hset. unfold setPixel, in_bounds.
  destruct (Z.ltb_spec x (width_ img)), (Z.ltb_spec y (height_ img));
    simpl; try by intros [= <-].
  intros Hset.
  destruct (getPixelIndex_wf img x y Hwf) as (Ei & Hi0 & _); [lia..|].
  destruct (getPixelIndex_wf img x' y' Hwf) as (Ej & Hj0 & _); [lia..|].
  assert (Hij : y * width_ img + x <> y' * width_ img + x').
  { apply pixel_index_inj; try lia. congruence. }
  unfold setPixelUnsafe in Hset.
  set (i := getPixelIndex img x y) in *.
  set (j := getPixelIndex img x' y') in *.
  clearbody i j.
  unfold getBytesPerPixel in *.
  destruct (format_ img) eqn:Hf; simpl in Ei, Ej, Hk; simplify_option_eq.
  all: repeat match goal with
       | H : store _ _ _ = Some _ |- _ => apply store_inv in H as [_ ->]
       end.
  all: simpl; rewrite ?load_insert_ne by lia; done.
Qed.

(** Writing a pixel whose colour the format can hold. *)
Lemma setPixel_spec img x y (c c' : Color F) :
  wf img -> 0 <= x < width_ img -> 0 <= y < height_ img ->
  convert (format_ img) c = Some c' ->
  exists img',
    setPixel img x y c = Some img' /\ same_shape img img' /\
    getPixel img' x y = Some c' /\
    forall x' y', 0 <= x' -> 0 <= y' -> (x', y') <> (x, y) ->
                  getPixel (F:=F) img' x' y' = getPixel img x' y'.
Proof.
  intros Hwf Hx Hy Hc.
  pose proof (setPixel_getPixel img x y c Hwf Hx Hy) as E. rewrite Hc in E.
  destruct (setPixel img x y c) as [img'|] eqn:Hset; [|done].
  exists img'. split; [done|]. split; [by eapply setPixel_shape|].
  split; [exact E|].
  intros x' y' Hx' Hy' Hne.
  apply (setPixel_frame img x y c img' x' y'); try done; lia.
Qed.
End WritePixel.

(** ** Loops over pixels *)

Section PixelLoops.
Context {F : Type} {AF : Arith F}.

Lemma row_loop (img0 : Image) (body : Z -> Z -> Image -> option Image)
    (new : Z -> Z -> option (Color F) -> option (Color F)) (y : Z) (n : nat) :
  forall (x0 : Z) (img : Image),
    0 <= x0 -> 0 <= y ->
    (forall x, x0 <= x < x0 + Z.of_nat n -> local_write img0 body new x y) ->
    same_shape img0 img ->
    exists img',
      for_loop x0 n (fun x img => body x y img) img = Some img' /\
      same_shape img img' /\
      forall x' y', 0 <= x' -> 0 <= y' ->
        getPixel (F:=F) img' x' y'
        = if decide (y' = y /\ x0 <= x' < x0 + Z.of_nat n)
          then new x' y (getPixel img x' y)
          else getPixel img x' y'.
Proof.
  induction n as [|n IH]; intros x0 img Hx0 Hy Hbody Hs.
  - exists img. split; [done|]. split; [apply same_shape_refl|].
    intros x' y' _ _. case_decide; [lia|done].
  - destruct (Hbody x0 ltac:(lia) img Hs) as (img1 & Hb & Hs1 & Hnew & Hfr).
    destruct (IH (x0 + 1) img1) as (img' & Hl & Hs' & Hpix); try lia.
    { intros x Hx. apply Hbody. lia. }
    { by apply (same_shape_trans img0 img img1). }
    exists img'. simpl. rewrite Hb. simpl. split; [exact Hl|].
    split; [by apply (same_shape_trans img img1 img')|].
    intros x' y' Hx' Hy'. rewrite (Hpix x' y' Hx' Hy').
    destruct (decide (y' = y /\ x0 + 1 <= x' < x0 + 1 + Z.of_nat n))
      as [[-> Hr]|Hn].
    + rewrite decide_True by lia.
      rewrite Hfr; [done | lia | lia |]. intros [= ->]. lia.
    + destruct (decide ((x', y') = (x0, y))) as [[= -> ->]|Hne].
      * rewrite decide_True by lia. done.
      * rewrite Hfr by done. apply eq_sym, decide_False.
        intros [-> Hr]. assert (x' <> x0) by congruence. lia.
Qed.

Lemma box_loop (img0 : Image) (body : Z -> Z -> Image -> option Image)
    (new : Z -> Z -> option (Color F) -> option (Color F))
    (x0 : Z) (nx ny : nat) :
  forall (y0 : Z) (img : Image),
    0 <= x0 -> 0 <= y0 ->
    (forall x y, x0 <= x < x0 + Z.of_nat nx -> y0 <= y < y0 + Z.of_nat ny ->
                 local_write img0 body new x y) ->
    same_shape img0 img ->
    exists img',
      for_loop y0 ny
        (fun y img => for_loop x0 nx (fun x img => body x y img) img) img
      = Some img' /\
      same_shape img img' /\
      forall x' y', 0 <= x' -> 0 <= y' ->
        getPixel (F:=F) img' x' y'
        = if decide (x0 <= x' < x0 + Z.of_nat nx /\
                     y0 <= y' < y0 + Z.of_nat ny)
          then new x' y' (getPixel img x' y')
          else getPixel img x' y'.
Proof.
  induction ny as [|ny IH]; intros y0 img Hx0 Hy0 Hbody Hs.
  - exists img. split; [done|]. split; [apply same_shape_refl|].
    intros x' y' _ _. case_decide; [lia|done].
  - destruct (row_loop img0 body new y0 nx x0 img)
      as (img1 & Hrow & Hs1 & Hpix1); try done.
    { intros x Hx. apply Hbody; lia. }
    destruct (IH (y0 + 1) img1) as (img' & Hl & Hs' & Hpix); try lia.
    { intros x y Hx Hy. apply Hbody; lia. }
    { by apply (same_shape_trans img0 img img1). }
    exists img'. simpl. rewrite Hrow. simpl. split; [exact Hl|].
    split; [by apply (same_shape_trans img img1 img')|].
    intros x' y' Hx' Hy'. rewrite (Hpix x' y' Hx' Hy').
    rewrite !(Hpix1 x' y' Hx' Hy').
    destruct (decide (y' = y0 /\ x0 <= x' < x0 + Z.of_nat nx)) as [[-> Hr]|Hn].
    + rewrite decide_False by lia. rewrite decide_True by lia. done.
    + destruct (decide (x0 <= x' < x0 + Z.of_nat nx /\
                        y0 + 1 <= y' < y0 + 1 + Z.of_nat ny)) as [Hin|Hout].
      * rewrite decide_True by lia. done.
      * rewrite decide_False by lia. done.
Qed.
End PixelLoops.

(** ** Triangle rasterisation *)

Lemma for_loop_id {S : Type} (body : Z -> S -> option S) (n : nat) :
  forall (lo : Z) (s : S),
    (forall i, lo <= i < lo + Z.of_nat n -> body i s = Some s) ->
    for_loop lo n body s = Some s.
Proof.
  induction n as [|n IH]; intros lo s Hbody; [done|].
  simpl. rewrite Hbody by lia. simpl. apply IH. intros i Hi. apply Hbody. lia.
Qed.

Lemma s32_small z : 0 <= z < 2 ^ 31 -> s32 z = z.
Proof.
  intros Hz. unfold s32. rewrite Z.mod_small by lia.
  destruct (Z.ltb_spec z (2 ^ 31)); lia.
Qed.

Lemma clipped_box_range {F : Type} {AF : Arith F} img (p1 p2 p3 : Vector2f F)
    minX minY maxX maxY :
  0 <= width_ img < 2 ^ 31 -> 0 <= height_ img < 2 ^ 31 ->
  clipped_box img p1 p2 p3 = Some (minX, minY, maxX, maxY) ->
  0 <= minX /\ 0 <= minY /\ maxX <= width_ img /\ maxY <= height_ img.
Proof.
  intros Hw Hh. unfold clipped_box. intros Hbox. simplify_option_eq.
  rewrite !s32_small by done. lia.
Qed.

(** The pixels [fillTriangle] writes: exactly those of the clipped box that
    pass the edge test. *)
Lemma fillTriangle_pixels {F : Type} {AF : Arith F} img (p1 p2 p3 : Vector2f F)
    (color c' : Color F) minX minY maxX maxY :
  wf img -> width_ img < 2 ^ 31 -> height_ img < 2 ^ 31 ->
  clipped_box img p1 p2 p3 = Some (minX, minY, maxX, maxY) ->
  convert (format_ img) color = Some c' ->
  exists img',
    fillTriangle img p1 p2 p3 color = Some img' /\ same_shape img img' /\
    forall x y, 0 <= x -> 0 <= y ->
      getPixel img' x y
      = if decide (minX <= x < maxX /\ minY <= y < maxY)
        then if inside p1 p2 p3 x y then Some c' else getPixel img x y
        else getPixel img x y.
Proof.
  intros Hwf Hw Hh Hbox Hconv.
  destruct (clipped_box_range img p1 p2 p3 minX minY maxX maxY)
    as (Hx0 & Hy0 & Hx1 & Hy1); try done.
  { destruct Hwf as (? & _). lia. }
  { destruct Hwf as (_ & ? & _). lia. }
  unfold fillTriangle. rewrite Hbox. simpl.
  pose (body := fun (x y : Z) (im : Image) =>
    if inside p1 p2 p3 x y then setPixel im (u32 x) (u32 y) color
    else Some im).
  pose (new := fun (x y : Z) (old : option (Color F)) =>
    if inside p1 p2 p3 x y then Some c' else old).
  destruct (box_loop img body new minX (Z.to_nat (maxX - minX))
              (Z.to_nat (maxY - minY)) minY img)
    as (img' & Hloop & Hs & Hpix); try done.
  - intros x y Hx Hy im Him. unfold body, new.
    destruct (inside p1 p2 p3 x y).
    + rewrite !u32_small by lia.
      destruct Him as (Ew & Eh & Ef & El).
      destruct (setPixel_spec im x y color c') as (im' & ? & ? & ? & ?);
        try (rewrite ?Ew, ?Eh, ?Ef; done || lia).
      { apply (same_shape_wf img); [done | done]. }
      by exists im'.
    + exists im. repeat split; done.
  - exists img'. split; [exact Hloop|]. split; [done|].
    intros x y Hx Hy. rewrite (Hpix x y Hx Hy). unfold new.
    destruct (decide (minX <= x < maxX /\ minY <= y < maxY)).
    + rewrite decide_True by lia. done.
    + rewrite decide_False by lia. done.
Qed.

(** In exact arithmetic the three edge values add up to the signed-area
    value [edge p1 p2 p3], whatever the point. *)
Lemma edge_sum (p1 p2 p3 p : Vector2f Q) :
  (edge p2 p3 p + edge p3 p1 p + edge p1 p2 p == edge p1 p2 p3)%Q.
Proof. unfold edge; simpl. ring. Qed.

Lemma Exact_leb_le (x y : Q) : Exact.leb x y = true <-> (x <= y)%Q.
Proof. unfold Exact.leb, Qle. apply Z.leb_le. Qed.

Lemma inside_opposite_winding (p1 p2 p3 : Vector2f Q) (x y : Z) :
  (edge p1 p2 p3 < 0)%Q -> inside p1 p2 p3 x y = false.
Proof.
  intros Hneg. unfold inside.
  destruct (fleb _ (edge p2 p3 _)) eqn:E1; [|done].
  destruct (fleb _ (edge p3 p1 _)) eqn:E2; [|done].
  destruct (fleb _ (edge p1 p2 _)) eqn:E3; [|done].
  exfalso. apply Exact_leb_le in E1, E2, E3.
  pose proof (edge_sum p1 p2 p3 (pixel_center x y)) as Hsum.
  simpl in E1, E2, E3. 
  assert (0 <= edge p1 p2 p3)%Q.
  { rewrite <- Hsum. 
    apply Qle_trans with (0 + 0 + 0)%Q; [done|].
    repeat apply Qplus_le_compat; done. }
  apply (Qlt_irrefl 0). eapply Qle_lt_trans; eauto.
Qed.

Lemma fillTriangle_opposite_winding img (p1 p2 p3 : Vector2f Q)
    (color : Color Q) box :
  clipped_box img p1 p2 p3 = Some box -> (edge p1 p2 p3 < 0)%Q ->
  fillTriangle img p1 p2 p3 color = Some img.
Proof.
  intros Hbox Hneg. unfold fillTriangle. rewrite Hbox. simpl.
  destruct box as [[[minX minY] maxX] maxY].
  apply for_loop_id. intros y _. apply for_loop_id. intros x _.
  by rewrite inside_opposite_winding.
Qed.




(** ** Gradient noise *)

Lemma for_loop_step {S : Type} (body : Z -> S -> option S) (n : nat)
    (lo : Z) (s : S) :
  for_loop lo (Datatypes.S n) body s
  = body lo s ≫= for_loop (lo + 1) n body.
Proof. done. Qed.

Lemma for_loop_settle {S : Type} (body : Z -> S -> option S) (n : nat)
    (lo : Z) (s s1 : S) :
  body lo s = Some s1 ->
  (forall i, lo < i < lo + Z.of_nat (Datatypes.S n) -> body i s1 = Some s1) ->
  for_loop lo (Datatypes.S n) body s = Some s1.
Proof.
  intros H0 Hrest. rewrite for_loop_step, H0. simpl.
  apply for_loop_id. intros i Hi. apply Hrest. lia.
Qed.

Section ZeroOctaves.
Context {LF : Libm Binary32.float}.
Variable draw : nat -> Binary32.float.
Variables (width height : Z) (scale : Binary32.float) (octaves : Z).
Hypothesis Hwidth : 0 < width.
Hypothesis Hheight : 0 < height.
Hypothesis Hoctaves : octaves <= 0.

Let zero : Binary32.float := of_Z 0.

Lemma accumulate_no_octave :
  accumulate (make_gradients draw) width height scale octaves
  = Some (flat_noise width height).
Proof.
  unfold accumulate. replace (Z.to_nat octaves) with 0%nat by lia. done.
Qed.

Lemma flat_get (x y : Z) :
  0 <= x < width -> 0 <= y < height -> noise_get (flat_noise width height) x y = Some zero.
Proof.
  intros Hx Hy. unfold noise_get, flat_noise.
  rewrite lookup_replicate_2 by lia. simpl.
  by rewrite lookup_replicate_2 by lia.
Qed.

Lemma min_max_flat :
  min_max (flat_noise width height) width height = Some (zero, zero).
Proof.
  unfold min_max.
  assert (exists h', Z.to_nat height = Datatypes.S h') as [h' Eh]
    by (exists (Z.to_nat (height - 1)); lia).
  assert (exists w', Z.to_nat width = Datatypes.S w') as [w' Ew]
    by (exists (Z.to_nat (width - 1)); lia).
  rewrite Eh. apply for_loop_settle.
  - rewrite Ew. apply for_loop_settle.
    + rewrite flat_get by lia. done.
    + intros x Hx. rewrite flat_get by lia. done.
  - intros y Hy. apply for_loop_id. intros x Hx.
    rewrite flat_get by lia. done.
Qed.

Lemma normalized_flat (x y : Z) :
  0 <= x < width -> 0 <= y < height ->
  normalizedValue (flat_noise width height) zero (zero - zero)%flt x y = Some S754_nan.
Proof.
  intros Hx Hy. unfold normalizedValue. rewrite flat_get by done. done.
Qed.

Lemma emit_flat (result : Image) :
  emit (flat_noise width height) zero (zero - zero)%flt width height result = None.
Proof.
  unfold emit.
  assert (exists h', Z.to_nat height = Datatypes.S h') as [h' Eh]
    by (exists (Z.to_nat (height - 1)); lia).
  assert (exists w', Z.to_nat width = Datatypes.S w') as [w' Ew]
    by (exists (Z.to_nat (width - 1)); lia).
  rewrite Eh, Ew. rewrite for_loop_step. rewrite for_loop_step.
  rewrite normalized_flat by lia. done.
Qed.

Lemma generatePerlinNoise_no_octave :
  generatePerlinNoise draw width height scale octaves = None.
Proof.
  unfold generatePerlinNoise.
  rewrite accumulate_no_octave. simpl.
  rewrite min_max_flat. simpl. apply emit_flat.
Qed.
End ZeroOctaves.

(** C10. [generatePerlinNoise] divides by [maxVal - minVal] without a guard.
    For every call with [octaves <= 0] on a non-empty image, whatever the
    gradients, the scale and the math library: the accumulator stays zero,
    [minVal = maxVal = 0], the normalised value of every pixel is [0 / 0],
    a NaN, its conversion to [uint8_t] has no defined value, and the call
    has no defined result. *)
Theorem perlin_zero_range_is_undefined {LF : Libm Binary32.float}
    (draw : nat -> Binary32.float) (width height : Z)
    (scale : Binary32.float) (octaves : Z) :
  0 < width -> 0 < height -> octaves <= 0 ->
  let zero : Binary32.float := of_Z 0 in
  accumulate (make_gradients draw) width height scale octaves
    = Some (flat_noise width height) /\
  min_max (flat_noise width height) width height = Some (zero, zero) /\
  (forall x y, 0 <= x < width -> 0 <= y < height ->
     normalizedValue (flat_noise width height) zero (zero - zero)%flt x y
     = Some S754_nan) /\
  to_uint8 (S754_nan * of_Z 255 : Binary32.float)%flt = None /\
  generatePerlinNoise draw width height scale octaves = None.
Proof.
  intros Hw Hh Ho zero.
  split; [by apply accumulate_no_octave|].
  split; [by apply min_max_flat|].
  split; [intros x y Hx Hy; by apply normalized_flat|].
  split; [done|].
  by apply generatePerlinNoise_no_octave.
Qed.

Lemma perlin_zero_range_is_undefined_witness :
  let zero : Binary32.float := of_Z 0 in
  accumulate (make_gradients draws_a) 2 2 (of_Z 1) 0
    = Some (flat_noise 2 2) /\
  min_max (flat_noise 2 2) 2 2 = Some (zero, zero) /\
  (forall x y, 0 <= x < 2 -> 0 <= y < 2 ->
     normalizedValue (flat_noise 2 2) zero (zero - zero)%flt x y
     = Some S754_nan) /\
  to_uint8 (S754_nan * of_Z 255 : Binary32.float)%flt = None /\
  generatePerlinNoise draws_a 2 2 (of_Z 1) 0 = None.
Proof.
  apply (perlin_zero_range_is_undefined (LF:=RefLibm.libm) draws_a 2 2
           (of_Z 1) 0); lia.
Defined.

(** ** Where the gradients come from *)

Lemma mt19937_first_output : (mt19937_next (mt19937_seed 5489)).1 = 3499211612.
Proof. vm_compute. reflexivity. Qed.

Section DrawsFacts.
Context {F : Type} {AF : Arith F} {LF : Libm F} {RF : Random F}.

Lemma draws_from_step (gen : mt19937) (i : nat) :
  draws_from gen (Datatypes.S i) = draws_from (dis gen).2 i.
Proof. done. Qed.

Lemma iter_shift {A : Type} (f : A -> A) (n : nat) (a : A) :
  Nat.iter n f (f a) = f (Nat.iter n f a).
Proof. induction n as [|n IH]; [done|]. simpl. by rewrite IH. Qed.

Lemma draws_from_iter (gen : mt19937) (i : nat) :
  draws_from gen i = (dis (Nat.iter i (fun g => (dis g).2) gen)).1.
Proof.
  revert gen. induction i as [|i IH]; intros gen; [done|].
  rewrite draws_from_step, IH.
  by rewrite (iter_shift (fun g => (dis g).2) i gen).
Qed.

Lemma fill_gradients_prefix (gen : mt19937) (n : nat) :
  foldl (fun st _ =>
           let '(value, gen) := dis st.2 in
           let angle := (value * of_Z 2 * of_dec 314159 100000)%flt in
           (st.1 ++ [mkVector2f (cosf angle) (sinf angle)], gen))
        ([], gen) (seq 0 n)
  = (gradient (draws_from gen) <$> seq 0 n,
     Nat.iter n (fun g => (dis g).2) gen).
Proof.
  induction n as [|n IH]; [done|].
  rewrite seq_S, foldl_app, IH. cbn [foldl fst snd].
  destruct (dis (Nat.iter n (fun g => (dis g).2) gen)) as [value gen'] eqn:E.
  rewrite fmap_app. cbn [fmap list_fmap Nat.add]. f_equal.
  - f_equal. unfold gradient. rewrite draws_from_iter, E. done.
  - simpl. by rewrite E.
Qed.
End DrawsFacts.

Section Seeding.
Context {F : Type} {AF : Arith F} {LF : Libm F} {RF : Random F}.

Lemma fill_gradients_draws (gen : mt19937) :
  fill_gradients gen
  = (make_gradients (draws_from gen), Nat.iter 256 (fun g => (dis g).2) gen).
Proof. apply (fill_gradients_prefix gen 256). Qed.

(** The generator is [generatePerlinNoise] on the draws of an engine
    seeded with the value of the random device. *)
Lemma TextureGenerator_generatePerlinNoise_draws (rd width height : Z)
    (scale : F) (octaves : Z) :
  TextureGenerator_generatePerlinNoise rd width height scale octaves
  = generatePerlinNoise (draws_from (mt19937_seed rd)) width height scale
      octaves.
Proof.
  unfold TextureGenerator_generatePerlinNoise, generatePerlinNoise.
  by rewrite fill_gradients_draws.
Qed.
End Seeding.

(** The engine after [i] outputs, for [1 <= i <= 624]: the state has been
    regenerated once and [i] of its words are used up. *)
Lemma mt19937_after (rd : Z) (i : nat) :
  (i < 624)%nat ->
  Nat.iter (Datatypes.S i) (fun g => (mt19937_next g).2) (mt19937_seed rd)
  = mkMt19937 (mt_regenerate (mt_x (mt19937_seed rd))) (Datatypes.S i).
Proof.
  induction i as [|i IH]; intros Hi.
  - done.
  - rewrite Nat.iter_succ, IH by lia. unfold mt19937_next. cbn [mt_p mt_x].
    destruct (Nat.leb_spec 624 (Datatypes.S i)); [lia|]. done.
Qed.

(** Output [i] of a freshly seeded engine is the tempered word [i] of the
    first regenerated state. *)
Lemma mt19937_output (rd : Z) (i : nat) :
  (i < 624)%nat ->
  (mt19937_next (Nat.iter i (fun g => (mt19937_next g).2) (mt19937_seed rd))).1
  = mt_temper (default 0 (mt_regenerate (mt_x (mt19937_seed rd)) !! i)).
Proof.
  intros Hi. destruct i as [|i]; [done|].
  rewrite mt19937_after by lia. unfold mt19937_next. cbn [mt_p mt_x].
  destruct (Nat.leb_spec 624 (Datatypes.S i)); [lia|]. done.
Qed.

Lemma RefRandom_draws (rd : Z) (i : nat) :
  (i < 624)%nat ->
  draws_from (mt19937_seed rd) i
  = RefRandom.canonical
      (mt_temper (default 0 (mt_regenerate (mt_x (mt19937_seed rd)) !! i))).
Proof.
  intros Hi. rewrite draws_from_iter.
  assert (E : forall n g,
            Nat.iter n (fun g => (dis (F:=Binary32.float) g).2) g
            = Nat.iter n (fun g => (mt19937_next g).2) g).
  { induction n as [|n IH]; intros g; [done|].
    rewrite !Nat.iter_succ, IH. unfold dis, RefRandom.random.
    by destruct (mt19937_next _). }
  rewrite E, <- (mt19937_output rd i Hi).
  unfold dis, RefRandom.random. by destruct (mt19937_next _).
Qed.

(** One octave reads the gradient table at the four corners of a cell. *)
Lemma octave_value_ext {F : Type} {AF : Arith F}
    (g g' : list (Vector2f F)) (width height : Z) (scale frequency : F)
    (x y : Z) :
  (forall x0 y0,
     to_int (ffloor (of_Z x * scale * frequency / of_Z width)%flt) = Some x0 ->
     to_int (ffloor (of_Z y * scale * frequency / of_Z height)%flt) = Some y0 ->
     forall a b, x0 <= a <= x0 + 1 -> y0 <= b <= y0 + 1 ->
                 gradient_at g a b = gradient_at g' a b) ->
  octave_value g width height scale frequency x y
  = octave_value g' width height scale frequency x y.
Proof.
  intros H. unfold octave_value.
  destruct (to_int (ffloor _)) as [x0|]; [|done]. cbn [mbind option_bind].
  destruct (to_int (ffloor _)) as [y0|]; [|done]. cbn [mbind option_bind].
  specialize (H x0 y0 eq_refl eq_refl).
  destruct (int_add x0 1) as [x1|] eqn:Ex; [|done]. cbn [mbind option_bind].
  destruct (int_add y0 1) as [y1|] eqn:Ey; [|done]. cbn [mbind option_bind].
  assert (x1 = x0 + 1) as ->.
  { unfold int_add in Ex. destruct (_ && _); [|done]. by injection Ex as <-. }
  assert (y1 = y0 + 1) as ->.
  { unfold int_add in Ey. destruct (_ && _); [|done]. by injection Ey as <-. }
  rewrite !(H _ _) by lia. done.
Qed.

Lemma make_gradients_lookup {F : Type} {AF : Arith F} {LF : Libm F}
    (draw : nat -> F) (i : nat) :
  (i < 256)%nat -> make_gradients draw !! i = Some (gradient draw i).
Proof.
  intros Hi. unfold make_gradients.
  rewrite list_lookup_fmap, lookup_seq_lt by done. done.
Qed.

(** A 2 x 1 image of one octave at scale 1 reads the gradients 0, 1 and 2
    only. *)
Lemma perlin_2x1_reads_three_draws (draw draw' : nat -> Binary32.float) :
  draw 0%nat = draw' 0%nat -> draw 1%nat = draw' 1%nat ->
  draw 2%nat = draw' 2%nat ->
  generatePerlinNoise (LF:=RefLibm.libm) draw 2 1 (of_Z 1) 1
  = generatePerlinNoise (LF:=RefLibm.libm) draw' 2 1 (of_Z 1) 1.
Proof.
  intros H0 H1 H2.
  assert (Hg : forall a b, 0 <= a <= 0 + 1 -> 0 <= b <= 0 + 1 ->
            gradient_at (make_gradients (LF:=RefLibm.libm) draw) a b
            = gradient_at (make_gradients (LF:=RefLibm.libm) draw') a b).
  { intros a b Ha Hb. unfold gradient_at, int_add. cbn zeta.
    replace ((INT_MIN <=? a + b) && (a + b <=? INT_MAX)) with true
      by (symmetry; apply andb_true_intro; split; apply Z.leb_le;
          unfold INT_MIN, INT_MAX; lia).
    cbn [mbind option_bind].
    assert (Hs : a + b = 0 \/ a + b = 1 \/ a + b = 2) by lia.
    destruct Hs as [->|[->| ->]].
    - change (Z.to_nat (Z.land 0 255)) with 0%nat.
      rewrite !make_gradients_lookup by lia. unfold gradient. by rewrite H0.
    - change (Z.to_nat (Z.land 1 255)) with 1%nat.
      rewrite !make_gradients_lookup by lia. unfold gradient. by rewrite H1.
    - change (Z.to_nat (Z.land 2 255)) with 2%nat.
      rewrite !make_gradients_lookup by lia. unfold gradient. by rewrite H2. }
  unfold generatePerlinNoise.
  assert (E : accumulate (make_gradients (LF:=RefLibm.libm) draw) 2 1 (of_Z 1) 1
              = accumulate (make_gradients (LF:=RefLibm.libm) draw') 2 1
                  (of_Z 1) 1).
  { unfold accumulate.
    rewrite <- (Z.add_0_r 0) at 2.
    apply for_loop_shift. intros octave noise Hoct. cbn zeta.
    rewrite <- (Z.add_0_r 0) at 2.
    apply for_loop_shift. intros y noise' Hy.
    rewrite <- (Z.add_0_r 0) at 2.
    apply for_loop_shift. intros x noise'' Hx.
    rewrite !Z.add_0_r.
    assert (octave = 0) as -> by lia. assert (y = 0) as -> by lia.
    rewrite (octave_value_ext (make_gradients draw) (make_gradients draw'));
      [done|].
    intros x0 y0 Ex Ey.
    assert (Hx' : x = 0 \/ x = 1) by lia.
    assert (x0 = 0 /\ y0 = 0) as [-> ->].
    { destruct Hx' as [->| ->]; vm_compute in Ex, Ey; split; congruence. }
    exact Hg. }
  by rewrite E.
Qed.

(** C5, the claim as stated, fails: [generatePerlinNoise] has no seed
    parameter.  Two calls with the same arguments, in which
    [std::random_device] returns 1 and 4, fill the gradient table
    differently and return different buffers. *)
Lemma perlin_not_reproducible :
  TextureGenerator_generatePerlinNoise (LF:=RefLibm.libm) 1 2 1 (of_Z 1) 1
    = Some (mkImage 2 1 Grayscale [xff; x00]) /\
  TextureGenerator_generatePerlinNoise (LF:=RefLibm.libm) 4 2 1 (of_Z 1) 1
    = Some (mkImage 2 1 Grayscale [x00; xff]).
Proof.
  rewrite !TextureGenerator_generatePerlinNoise_draws. split.
  - let d0 := eval vm_compute in
        (draws_from (F:=Binary32.float) (mt19937_seed 1) 0) in
    let d1 := eval vm_compute in
        (draws_from (F:=Binary32.float) (mt19937_seed 1) 1) in
    let d2 := eval vm_compute in
        (draws_from (F:=Binary32.float) (mt19937_seed 1) 2) in
    rewrite (perlin_2x1_reads_three_draws _
               (fun i => match i with
                         | 0%nat => d0 | 1%nat => d1 | 2%nat => d2
                         | _ => of_Z 0
                         end)) by (vm_compute; reflexivity).
    vm_compute. reflexivity.
  - let d0 := eval vm_compute in
        (draws_from (F:=Binary32.float) (mt19937_seed 4) 0) in
    let d1 := eval vm_compute in
        (draws_from (F:=Binary32.float) (mt19937_seed 4) 1) in
    let d2 := eval vm_compute in
        (draws_from (F:=Binary32.float) (mt19937_seed 4) 2) in
    rewrite (perlin_2x1_reads_three_draws _
               (fun i => match i with
                         | 0%nat => d0 | 1%nat => d1 | 2%nat => d2
                         | _ => of_Z 0
                         end)) by (vm_compute; reflexivity).
    vm_compute. reflexivity.
Qed.

(** The value the C++ standard requires of the 10000th output of a
    default-seeded [std::mt19937]. *)
Lemma mt19937_10000th_output :
  (mt19937_next
     (Nat.iter (Z.to_nat 9999) (fun g => (mt19937_next g).2) (mt19937_seed 5489))).1
  = 4123659995.
Proof. vm_compute. reflexivity. Qed.

Lemma mt19937_seed_u32 (rd rd' : Z) :
  u32 rd' = u32 rd -> mt19937_seed rd' = mt19937_seed rd.
Proof. intros E. unfold mt19937_seed. by rewrite E. Qed.

(** C5 (amended).  [generatePerlinNoise] has no seed parameter: every call
    seeds a [std::mt19937] with the value [rd] that [std::random_device]
    returns and fills its table of 256 gradients from the first 256 values
    [dis(gen)], entry [i] from draw [i].  The buffer is the one computed
    from these draws, so it is a function of the arguments and of the low
    32 bits of [rd], which no argument determines.  With the distribution
    of libstdc++, draw [i] is output [i] of the engine, the tempered word
    [i] of its first regenerated state, divided by [2^32]. *)
Theorem perlin_gradients_from_device {F : Type} {AF : Arith F} {LF : Libm F}
    {RF : Random F} (rd width height : Z) (scale : F) (octaves : Z) :
  let gen := mt19937_seed rd in
  length (fill_gradients gen).1 = 256%nat /\
  (forall i, (i < 256)%nat ->
     (fill_gradients gen).1 !! i = Some (gradient (draws_from gen) i)) /\
  TextureGenerator_generatePerlinNoise rd width height scale octaves
  = generatePerlinNoise (draws_from gen) width height scale octaves /\
  (forall rd', u32 rd' = u32 rd ->
     TextureGenerator_generatePerlinNoise rd' width height scale octaves
     = TextureGenerator_generatePerlinNoise rd width height scale octaves) /\
  (forall i, (i < 256)%nat ->
     draws_from (RF:=RefRandom.random) gen i
     = RefRandom.canonical
         (mt_temper (default 0 (mt_regenerate (mt_x gen) !! i)))).
Proof.
  intros gen. rewrite fill_gradients_draws. cbn [fst].
  split; [unfold make_gradients; by rewrite length_fmap, length_seq|].
  split; [intros i Hi; by apply make_gradients_lookup|].
  split; [apply TextureGenerator_generatePerlinNoise_draws|].
  split.
  - intros rd' E. unfold TextureGenerator_generatePerlinNoise.
    by rewrite (mt19937_seed_u32 rd rd' E).
  - intros i Hi. apply RefRandom_draws. lia.
Qed.

(** ** The Gaussian kernel *)

Lemma s32_signed z : - 2 ^ 31 <= z < 2 ^ 31 -> s32 z = z.
Proof.
  intros Hz. unfold s32.
  destruct (Z.le_gt_cases 0 z) as [Hpos|Hneg].
  - rewrite Z.mod_small by lia. destruct (Z.ltb_spec z (2 ^ 31)); lia.
  - replace (z mod 2 ^ 32) with (z + 2 ^ 32).
    + destruct (Z.ltb_spec (z + 2 ^ 32) (2 ^ 31)); lia.
    + apply Z.mod_unique_pos with (q := -1); lia.
Qed.

Lemma tap_offset_range (k i : Z) :
  0 <= i < k -> - (k / 2) <= tap_offset k i <= k - 1 - k / 2.
Proof.
  intros Hi. unfold tap_offset. rewrite Z.quot_div_nonneg by lia. lia.
Qed.

Section KernelShape.
Context {F : Type} {AF : Arith F} {LF : Libm F}.

Lemma makeKernel_spec (sigma : F) (k : Z) :
  0 <= k ->
  exists kernel,
    makeKernel sigma k = Some kernel /\ length kernel = Z.to_nat k /\
    forall i, 0 <= i < k ->
      kernel !! Z.to_nat i
      = Some (kernel_sample sigma k i
              / kernel_sum (kernel_samples sigma k))%flt.
Proof.
  intros Hk. unfold makeKernel.
  destruct (Z.ltb_spec k 0); [lia|].
  eexists. split; [reflexivity|]. split.
  - unfold kernel_samples. by rewrite !length_fmap, length_seqZ.
  - intros i Hi.
    assert (E : kernel_samples sigma k !! Z.to_nat i
                = Some (kernel_sample sigma k i)).
    { unfold kernel_samples.
      rewrite list_lookup_fmap, lookup_seqZ_lt by lia. simpl.
      by rewrite Z2Nat.id by lia. }
    rewrite list_lookup_fmap, E. done.
Qed.
End KernelShape.

Lemma for_loop_indexed {S : Type} (P : Z -> S -> Prop)
    (body : Z -> S -> option S) (n : nat) :
  forall (lo : Z) (s : S),
    P lo s ->
    (forall i s, lo <= i < lo + Z.of_nat n -> P i s ->
                 exists s', body i s = Some s' /\ P (i + 1) s') ->
    exists s', for_loop lo n body s = Some s' /\ P (lo + Z.of_nat n) s'.
Proof.
  induction n as [|n IH]; intros lo s Hs Hbody.
  - exists s. split; [done|]. by rewrite Z.add_0_r.
  - destruct (Hbody lo s) as (s1 & Hb & Hs1); [lia | done |].
    destruct (IH (lo + 1) s1) as (s' & Hl & Hs'); [done | |].
    { intros i s2 Hi. apply Hbody. lia. }
    exists s'. simpl. rewrite Hb. simpl. split; [done|].
    by replace (lo + Z.of_nat (Datatypes.S n)) with (lo + 1 + Z.of_nat n)
      by lia.
Qed.

Lemma tap_position_small (pos i k : Z) :
  0 <= pos < 2 ^ 30 -> 0 <= i < k -> k < 2 ^ 31 ->
  s32 (pos + i - Z.quot k 2) = pos + i - k / 2.
Proof.
  intros Hp Hi Hk. rewrite Z.quot_div_nonneg by lia.
  assert (0 <= k / 2) by (apply Z.div_pos; lia).
  assert (k / 2 <= 2 ^ 30) by (apply Z.div_le_upper_bound; lia).
  assert (k <= 2 * (k / 2) + 1).
  { pose proof (Z.div_mod k 2 ltac:(lia)).
    pose proof (Z.mod_pos_bound k 2 ltac:(lia)). lia. }
  apply s32_signed. lia.
Qed.

Lemma byte_of_Z_to_Z (b : byte) : byte_of_Z (byte_to_Z b) = Some b.
Proof. destruct b; reflexivity. Qed.

Lemma to_int_range {F : Type} {AF : Arith F} (f : F) (z : Z) :
  to_int f = Some z -> INT_MIN <= z <= INT_MAX.
Proof.
  unfold to_int. destruct (ftrunc f) as [t|]; simpl; [|done].
  destruct ((INT_MIN <=? t) && (t <=? INT_MAX)) eqn:E; [|done].
  intros [= <-]. apply andb_true_iff in E as [H1 H2].
  apply Z.leb_le in H1, H2. lia.
Qed.

(** ** Rounding in binary32 *)

Lemma digits2_pos_spec (m : positive) :
  2 ^ (Zpos (digits2_pos m) - 1) <= Zpos m < 2 ^ Zpos (digits2_pos m).
Proof.
  induction m as [p IH|p IH|]; cbn [digits2_pos].
  - set (D := Zpos (digits2_pos p)) in *.
    assert (E : 2 ^ D = 2 * 2 ^ (D - 1))
      by (rewrite <- Z.pow_succ_r by lia; f_equal; lia).
    rewrite Pos2Z.inj_succ, (Pos2Z.inj_xI p). fold D.
    replace (Z.succ D - 1) with D by lia.
    rewrite Z.pow_succ_r by lia. lia.
  - set (D := Zpos (digits2_pos p)) in *.
    assert (E : 2 ^ D = 2 * 2 ^ (D - 1))
      by (rewrite <- Z.pow_succ_r by lia; f_equal; lia).
    rewrite Pos2Z.inj_succ, (Pos2Z.inj_xO p). fold D.
    replace (Z.succ D - 1) with D by lia.
    rewrite Z.pow_succ_r by lia. lia.
  - simpl. lia.
Qed.

Lemma digits2_pos_unique (m : positive) (d : Z) :
  2 ^ (d - 1) <= Zpos m < 2 ^ d -> Zpos (digits2_pos m) = d.
Proof.
  intros [Hlo Hhi]. pose proof (digits2_pos_spec m) as [Hl Hh].
  set (D := Zpos (digits2_pos m)) in *.
  assert (HD : 0 < D) by (unfold D; lia).
  assert (Hd : 0 < d).
  { destruct (Z.lt_trichotomy 0 d) as [?|[<-|Hneg]]; [done| |].
    - simpl in Hhi. lia.
    - rewrite Z.pow_neg_r in Hhi by lia. lia. }
  destruct (Z.lt_trichotomy D d) as [Hlt|[?|Hgt]]; [|done|].
  - assert (2 ^ D <= 2 ^ (d - 1)) by (apply Z.pow_le_mono_r; lia). lia.
  - assert (2 ^ d <= 2 ^ (D - 1)) by (apply Z.pow_le_mono_r; lia). lia.
Qed.

Lemma shr_1_m (mrs : shr_record) :
  0 <= shr_m mrs -> shr_m (shr_1 mrs) = shr_m mrs / 2.
Proof.
  destruct mrs as [m r s]. cbn [shr_m]. intros Hm.
  destruct m as [|[p|p|]|p]; cbn [shr_1 shr_m]; try lia.
  - reflexivity.
  - rewrite (Pos2Z.inj_xI p). apply (Z.div_unique _ _ _ 1); lia.
  - rewrite (Pos2Z.inj_xO p). apply (Z.div_unique _ _ _ 0); lia.
  - reflexivity.
Qed.

Lemma iter_pos_shr_m (n : positive) :
  forall mrs, 0 <= shr_m mrs ->
    shr_m (@SpecFloat.iter_pos shr_record shr_1 n mrs) = shr_m mrs / 2 ^ Zpos n.
Proof.
  assert (Hpos : forall p : positive, 0 < 2 ^ Zpos p)
    by (intros p; apply Z.pow_pos_nonneg; lia).
  induction n as [n IH|n IH|]; intros mrs Hm; cbn [SpecFloat.iter_pos].
  - assert (H1 : 0 <= shr_m (shr_1 mrs))
      by (rewrite shr_1_m by done; apply Z.div_pos; lia).
    assert (H2 : 0 <= shr_m (@SpecFloat.iter_pos shr_record shr_1 n (shr_1 mrs))).
    { rewrite IH by done. apply Z.div_pos; [done|apply Hpos]. }
    rewrite IH by done. rewrite IH by done. rewrite shr_1_m by done.
    pose proof (Hpos n).
    rewrite !Z.div_div by lia. f_equal.
    rewrite (Pos2Z.inj_xI n).
    replace (2 * Zpos n + 1) with (1 + Zpos n + Zpos n) by lia.
    rewrite !Z.pow_add_r by lia. rewrite Z.pow_1_r. lia.
  - assert (H2 : 0 <= shr_m (@SpecFloat.iter_pos shr_record shr_1 n mrs)).
    { rewrite IH by done. apply Z.div_pos; [done|apply Hpos]. }
    rewrite IH by done. rewrite IH by done.
    pose proof (Hpos n).
    rewrite !Z.div_div by lia. f_equal.
    rewrite (Pos2Z.inj_xO n).
    replace (2 * Zpos n) with (Zpos n + Zpos n) by lia.
    rewrite !Z.pow_add_r by lia. lia.
  - rewrite shr_1_m by done. done.
Qed.

Lemma shr_fexp_spec (m : positive) (e : Z) (l : location) (n : Z) :
  Zpos (digits2_pos m) = 24 + n -> 0 <= n -> -149 <= e + n ->
  exists mrs,
    shr_fexp 24 128 (Zpos m) e l = (mrs, e + n) /\
    shr_m mrs = Zpos m / 2 ^ n.
Proof.
  intros Hd Hn He. unfold shr_fexp, fexp, emin. cbn [Zdigits2]. rewrite Hd.
  replace (Z.max (24 + n + e - 24) (3 - 128 - 24) - e) with n by lia.
  destruct n as [|p|p]; [| |lia].
  - cbn [shr]. eexists. split; [by rewrite Z.add_0_r|].
    rewrite Z.pow_0_r, Z.div_1_r. by destruct l as [|[]].
  - cbn [shr]. eexists. split; [reflexivity|].
    rewrite iter_pos_shr_m; by destruct l as [|[]].
Qed.

Lemma round_nearest_even_range (q : Z) (l : location) :
  round_nearest_even q l = q \/ round_nearest_even q l = q + 1.
Proof.
  destruct l as [|[]]; simpl; auto. destruct (Z.even q); auto.
Qed.

(** Rounding a positive integer [m] of [24 + n] bits, scaled by [2^e], to
    binary32: the result is a normal number [q * 2^(e + n)] where [q] is
    [m / 2^n] rounded down or up. *)
Lemma binary_round_aux_normal (m : positive) (e : Z) (l : location) (n : Z) :
  Zpos (digits2_pos m) = 24 + n -> 0 <= n -> -149 <= e + n -> e + n <= 103 ->
  exists (m' : positive) (e' q : Z),
    binary_round_aux 24 128 false (Zpos m) e l = S754_finite false m' e' /\
    2 ^ 23 <= Zpos m' < 2 ^ 24 /\ -149 <= e' <= 104 /\
    (q = Zpos m / 2 ^ n \/ q = Zpos m / 2 ^ n + 1) /\
    (e' = e + n /\ Zpos m' = q \/ e' = e + n + 1 /\ 2 * Zpos m' = q).
Proof.
  intros Hd Hn He Hmax.
  destruct (shr_fexp_spec m e l n Hd Hn He) as (mrs & E1 & Hm1).
  unfold binary_round_aux. rewrite E1.
  pose proof (digits2_pos_spec m) as [Hlo Hhi]. rewrite Hd in Hlo, Hhi.
  assert (H2n : 0 < 2 ^ n) by (apply Z.pow_pos_nonneg; lia).
  replace (24 + n - 1) with (n + 23) in Hlo by lia.
  replace (24 + n) with (n + 24) in Hhi by lia.
  rewrite Z.pow_add_r in Hlo, Hhi by lia.
  assert (HQ : 2 ^ 23 <= Zpos m / 2 ^ n < 2 ^ 24).
  { split; [apply Z.div_le_lower_bound; lia|apply Z.div_lt_upper_bound; lia]. }
  pose proof (round_nearest_even_range (shr_m mrs) (loc_of_shr_record mrs))
    as Hr.
  set (m1 := round_nearest_even (shr_m mrs) (loc_of_shr_record mrs)) in *.
  rewrite Hm1 in Hr.
  assert (Hm1r : 2 ^ 23 <= m1 <= 2 ^ 24) by lia.
  destruct m1 as [|p1|p1] eqn:Ep1; [lia| |lia].
  destruct (Z.eq_dec (Zpos p1) (2 ^ 24)) as [Htop|Hlow].
  - destruct (shr_fexp_spec p1 (e + n) loc_Exact 1) as (mrs2 & E2 & Hm2);
      [|lia|lia|].
    { apply digits2_pos_unique. rewrite Htop. simpl. lia. }
    rewrite E2. rewrite Hm2, Htop.
    change (2 ^ 24 / 2 ^ 1) with (Zpos 8388608).
    destruct (Z.leb_spec (e + n + 1) (128 - 24)); [|lia].
    exists 8388608%positive, (e + n + 1), (Zpos p1).
    split; [done|]. split; [simpl; lia|]. split; [lia|]. split; [lia|].
    right. rewrite Htop. simpl. lia.
  - destruct (shr_fexp_spec p1 (e + n) loc_Exact 0) as (mrs2 & E2 & Hm2);
      [|lia|lia|].
    { apply digits2_pos_unique. simpl. lia. }
    rewrite E2. rewrite Hm2. rewrite Z.pow_0_r, Z.div_1_r.
    destruct (Z.leb_spec (e + n + 0) (128 - 24)); [|lia].
    exists p1, (e + n + 0), (Zpos p1).
    split; [done|]. split; [lia|]. split; [lia|]. split; [lia|].
    left. lia.
Qed.

Lemma p2_pos e : (0 < p2 e)%Q.
Proof. apply Qpower_0_lt. reflexivity. Qed.

Lemma p2_add a b : (p2 (a + b) == p2 a * p2 b)%Q.
Proof. apply Qpower_plus. discriminate. Qed.

Lemma p2_le a b : a <= b -> (p2 a <= p2 b)%Q.
Proof. intros H. apply Qpower_le_compat_l; [done|discriminate]. Qed.

Lemma p2_lt a b : a < b -> (p2 a < p2 b)%Q.
Proof. intros H. apply Qpower_lt_compat_l; [done|reflexivity]. Qed.

Lemma p2_lt_inv a b : (p2 a < p2 b)%Q -> a < b.
Proof. intros H. apply (Qpower_lt_compat_l_inv 2); [done|reflexivity]. Qed.

Lemma p2_le_inv a b : (p2 a <= p2 b)%Q -> a <= b.
Proof. intros H. apply (Qpower_le_compat_l_inv 2); [done|reflexivity]. Qed.

Lemma p2_inject n : 0 <= n -> (inject_Z (2 ^ n) == p2 n)%Q.
Proof. intros H. unfold p2. by rewrite Zpower_Qpower. Qed.

Lemma to_Q_finite (m : positive) (e : Z) :
  (Binary32.to_Q (S754_finite false m e) == inject_Z (Zpos m) * p2 e)%Q.
Proof.
  unfold Binary32.to_Q. destruct (Z.leb_spec 0 e) as [He|He].
  - rewrite inject_Z_mult, p2_inject by done. reflexivity.
  - rewrite Qmake_Qdiv. unfold Qdiv.
    rewrite Z2Pos.id by (apply Z.pow_pos_nonneg; lia).
    rewrite p2_inject by lia.
    assert (E : (p2 e == / p2 (- e))%Q).
    { unfold p2. rewrite <- Qpower_opp. by rewrite Z.opp_involutive. }
    by rewrite E.
Qed.

Lemma normal_inv (f : Binary32.float) :
  normal f = true ->
  exists m e, f = S754_finite false m e /\
              2 ^ 23 <= Zpos m < 2 ^ 24 /\ -149 <= e <= 104.
Proof.
  destruct f as [| | |[] m e]; try done. unfold normal.
  rewrite !andb_true_iff, !Z.leb_le, Z.ltb_lt. intros (((? & ?) & ?) & ?).
  exists m, e. repeat split; lia.
Qed.

Lemma normal_intro (m : positive) (e : Z) :
  2 ^ 23 <= Zpos m < 2 ^ 24 -> -149 <= e <= 104 ->
  normal (S754_finite false m e) = true.
Proof.
  intros Hm He. unfold normal.
  rewrite !andb_true_iff, !Z.leb_le, Z.ltb_lt. lia.
Qed.

Lemma inject_Z_le a b : a <= b -> (inject_Z a <= inject_Z b)%Q.
Proof. intros H. by rewrite <- Zle_Qle. Qed.

Lemma inject_Z_lt a b : a < b -> (inject_Z a < inject_Z b)%Q.
Proof. intros H. by rewrite <- Zlt_Qlt. Qed.

(** An integer [M] of [d] bits scaled by [2^e] lies between [2^(d-1+e)]
    and [2^(d+e)]. *)
Lemma scaled_bounds (M : positive) (e : Z) :
  let d := Zpos (digits2_pos M) in
  (p2 (d - 1 + e) <= inject_Z (Zpos M) * p2 e)%Q /\
  (inject_Z (Zpos M) * p2 e < p2 (d + e))%Q.
Proof.
  intros d. pose proof (digits2_pos_spec M) as [Hlo Hhi]. fold d in Hlo, Hhi.
  assert (Hd : 0 < d) by (unfold d; lia).
  pose proof (p2_pos e) as Hp.
  rewrite !p2_add, <- (p2_inject d), <- (p2_inject (d - 1)) by lia. split.
  - apply Qmult_le_compat_r; [by apply inject_Z_le|by apply Qlt_le_weak].
  - apply Qmult_lt_compat_r; [done|by apply inject_Z_lt].
Qed.

(** From integers to rationals: a result [T] within [M / 2^23] of [M], both
    scaled by [P]. *)
Lemma close_scaled (M T : Z) (P : Q) :
  (0 < P)%Q ->
  8388608 * T <= 8388609 * M -> 8388607 * M <= 8388608 * T ->
  close (inject_Z M * P) (inject_Z T * P).
Proof.
  intros HP H1 H2. apply inject_Z_le in H1, H2.
  rewrite !inject_Z_mult in H1, H2.
  set (a := inject_Z M) in *. set (t := inject_Z T) in *.
  change (inject_Z 8388608) with (8388608 # 1)%Q in *.
  change (inject_Z 8388609) with (8388609 # 1)%Q in *.
  change (inject_Z 8388607) with (8388607 # 1)%Q in *.
  unfold close, eps. split.
  - assert (E : (a * P * (1 - (1 # 8388608))
                 == (8388607 * a) * (P * (1 # 8388608)))%Q) by ring.
    assert (E' : (t * P == (8388608 * t) * (P * (1 # 8388608)))%Q) by field.
    rewrite E, E'. apply Qmult_le_compat_r; [done|]. nra.
  - assert (E : (a * P * (1 + (1 # 8388608))
                 == (8388609 * a) * (P * (1 # 8388608)))%Q) by ring.
    assert (E' : (t * P == (8388608 * t) * (P * (1 # 8388608)))%Q) by field.
    rewrite E, E'. apply Qmult_le_compat_r; [done|]. nra.
Qed.

(** What [binary_round_aux_normal] gives, read as rationals. *)
Lemma round_close (m : positive) (e : Z) (l : location) (n : Z) :
  Zpos (digits2_pos m) = 24 + n -> 0 <= n -> -149 <= e + n -> e + n <= 103 ->
  exists r (q : Z),
    binary_round_aux 24 128 false (Zpos m) e l = r /\ normal r = true /\
    (q = Zpos m / 2 ^ n \/ q = Zpos m / 2 ^ n + 1) /\
    (Binary32.to_Q r == inject_Z (q * 2 ^ n) * p2 e)%Q.
Proof.
  intros Hd Hn He Hmax.
  destruct (binary_round_aux_normal m e l n Hd Hn He Hmax)
    as (m' & e' & q & E & Hm' & He' & Hq & Hv).
  exists (S754_finite false m' e'), q. split; [done|].
  split; [by apply normal_intro|]. split; [done|].
  rewrite to_Q_finite, inject_Z_mult, p2_inject by done.
  destruct Hv as [[-> <-]|[-> <-]].
  - rewrite p2_add. ring.
  - rewrite !p2_add, inject_Z_mult. change (p2 1) with 2%Q.
    change (inject_Z 2) with 2%Q. ring.
Qed.

Lemma close_eq (x x' r r' : Q) :
  (x == x')%Q -> (r == r')%Q -> close x r -> close x' r'.
Proof. unfold close. intros Ex Er [H1 H2]. rewrite <- Ex, <- Er. done. Qed.

Lemma digits_ge (M : positive) (k : Z) :
  2 ^ k <= Zpos M -> k < Zpos (digits2_pos M).
Proof.
  intros H. pose proof (digits2_pos_spec M) as [_ Hhi].
  destruct (Z.lt_ge_cases k (Zpos (digits2_pos M))) as [|Hge]; [done|].
  assert (2 ^ Zpos (digits2_pos M) <= 2 ^ k) by (apply Z.pow_le_mono_r; lia).
  lia.
Qed.

(** The integer side of a rounding: [q] is [M / N] rounded down or up, and
    [M] has at least 23 bits more than [N]. *)
Lemma rounded_within (M N q : Z) :
  0 < N -> N * 8388608 <= M -> (q = M / N \/ q = M / N + 1) ->
  8388608 * (q * N) <= 8388609 * M /\ 8388607 * M <= 8388608 * (q * N).
Proof.
  intros HN HM Hq.
  pose proof (Z.mul_div_le M N HN) as H1.
  pose proof (Z.mul_succ_div_gt M N HN) as H2.
  set (Q0 := M / N) in *. replace (N * Z.succ Q0) with (N * Q0 + N) in H2 by lia.
  destruct Hq as [->| ->]; lia.
Qed.

Lemma digits_pow (M : positive) (n : Z) :
  Zpos (digits2_pos M) = 24 + n -> 0 <= n -> 2 ^ n * 8388608 <= Zpos M.
Proof.
  intros Hd Hn. pose proof (digits2_pos_spec M) as [Hlo _]. rewrite Hd in Hlo.
  replace (24 + n - 1) with (n + 23) in Hlo by lia.
  rewrite Z.pow_add_r in Hlo by lia. lia.
Qed.

(** *** Multiplication *)

Lemma mul_close (x y : Binary32.float) :
  normal x = true -> normal y = true ->
  (p2 (-126) <= Binary32.to_Q x * Binary32.to_Q y)%Q ->
  (Binary32.to_Q x * Binary32.to_Q y <= p2 126)%Q ->
  normal (Binary32.mul x y) = true /\
  close (Binary32.to_Q x * Binary32.to_Q y)
        (Binary32.to_Q (Binary32.mul x y)).
Proof.
  intros (m1 & e1 & -> & Hm1 & He1)%normal_inv
         (m2 & e2 & -> & Hm2 & He2)%normal_inv.
  assert (EXY : (Binary32.to_Q (S754_finite false m1 e1)
                 * Binary32.to_Q (S754_finite false m2 e2)
                 == inject_Z (Zpos (m1 * m2)) * p2 (e1 + e2))%Q).
  { rewrite !to_Q_finite, Pos2Z.inj_mul, inject_Z_mult, p2_add. ring. }
  intros Hlo Hhi. rewrite EXY in Hlo, Hhi.
  assert (HM : 2 ^ 46 <= Zpos (m1 * m2)).
  { rewrite Pos2Z.inj_mul. change (2 ^ 46) with (2 ^ 23 * 2 ^ 23). nia. }
  set (M := (m1 * m2)%positive) in *. set (E := e1 + e2) in *.
  pose proof (scaled_bounds M E) as [Hsl Hsh]. cbn zeta in Hsl, Hsh.
  pose proof (digits_ge M 46 HM) as Hd46.
  set (d := Zpos (digits2_pos M)) in *.
  assert (Hlow : -149 <= E + (d - 24)).
  { destruct (Z.le_gt_cases (-149) (E + (d - 24))) as [|Hc]; [done|].
    exfalso. assert (Hp : (p2 (d + E) <= p2 (-126))%Q) by (apply p2_le; lia).
    lra. }
  assert (Hhigh : E + (d - 24) <= 103).
  { destruct (Z.le_gt_cases (E + (d - 24)) 103) as [|Hc]; [done|].
    exfalso. assert (Hp : (p2 126 < p2 (d - 1 + E))%Q) by (apply p2_lt; lia).
    lra. }
  destruct (round_close M E loc_Exact (d - 24)) as (r & q & Er & Hn & Hq & Hv);
    [unfold d; lia | lia | done | done |].
  unfold Binary32.mul, SFmul, Binary32.prec, Binary32.emax. cbn [xorb].
  fold M E. rewrite Er. split; [done|].
  eapply close_eq; [symmetry; exact EXY | symmetry; exact Hv |].
  destruct (rounded_within (Zpos M) (2 ^ (d - 24)) q) as [H1 H2];
    [apply Z.pow_pos_nonneg; lia | apply digits_pow; unfold d; lia | done |].
  apply close_scaled; [apply p2_pos | done | done].
Qed.

(** *** Addition *)

Lemma iter_xO (d m : positive) :
  Zpos (Pos.iter xO m d) = Zpos m * 2 ^ Zpos d.
Proof.
  induction d as [|d IH] using Pos.peano_ind.
  - simpl. lia.
  - rewrite Pos.iter_succ, (Pos2Z.inj_xO (Pos.iter xO m d)), IH,
      Pos2Z.inj_succ, Z.pow_succ_r by lia. lia.
Qed.

Lemma shl_align_value (m : positive) (e ez : Z) :
  ez <= e -> Zpos (fst (shl_align m e ez)) = Zpos m * 2 ^ (e - ez).
Proof.
  intros H. unfold shl_align. destruct (ez - e) as [|p|p] eqn:E; cbn [fst].
  - replace (e - ez) with 0 by lia. simpl. lia.
  - lia.
  - rewrite iter_xO. f_equal. f_equal. lia.
Qed.

Lemma add_close (x y : Binary32.float) :
  normal x = true -> normal y = true ->
  (Binary32.to_Q x + Binary32.to_Q y <= p2 126)%Q ->
  normal (Binary32.add x y) = true /\
  close (Binary32.to_Q x + Binary32.to_Q y)
        (Binary32.to_Q (Binary32.add x y)).
Proof.
  intros (m1 & e1 & -> & Hm1 & He1)%normal_inv
         (m2 & e2 & -> & Hm2 & He2)%normal_inv.
  set (ez := Z.min e1 e2).
  pose proof (shl_align_value m1 e1 ez ltac:(lia)) as Ea.
  pose proof (shl_align_value m2 e2 ez ltac:(lia)) as Eb.
  assert (H1 : 0 < 2 ^ (e1 - ez)) by (apply Z.pow_pos_nonneg; lia).
  assert (H2 : 0 < 2 ^ (e2 - ez)) by (apply Z.pow_pos_nonneg; lia).
  assert (EXY : (Binary32.to_Q (S754_finite false m1 e1)
                 + Binary32.to_Q (S754_finite false m2 e2)
                 == inject_Z (Zpos (fst (shl_align m1 e1 ez)
                                    + fst (shl_align m2 e2 ez))) * p2 ez)%Q).
  { rewrite !to_Q_finite, Pos2Z.inj_add, Ea, Eb, inject_Z_plus,
      !inject_Z_mult, !p2_inject by lia.
    replace e1 with (e1 - ez + ez) at 1 by lia.
    replace e2 with (e2 - ez + ez) at 1 by lia.
    rewrite !p2_add. ring. }
  intros Hhi. rewrite EXY in Hhi.
  unfold Binary32.add, SFadd, Binary32.prec, Binary32.emax. fold ez.
  cbn [cond_Zopp]. rewrite <- Pos2Z.inj_add.
  set (M := (fst (shl_align m1 e1 ez) + fst (shl_align m2 e2 ez))%positive)
    in *.
  cbn [binary_normalize].
  assert (HM : 2 ^ 24 <= Zpos M).
  { unfold M. rewrite Pos2Z.inj_add, Ea, Eb. change (2 ^ 24) with (2 ^ 23 + 2 ^ 23).
    nia. }
  pose proof (scaled_bounds M ez) as [Hsl Hsh]. cbn zeta in Hsl, Hsh.
  pose proof (digits_ge M 24 HM) as Hd24.
  set (d := Zpos (digits2_pos M)) in *.
  assert (Hhigh : ez + (d - 24) <= 103).
  { destruct (Z.le_gt_cases (ez + (d - 24)) 103) as [|Hc]; [done|].
    exfalso. assert (Hp : (p2 126 < p2 (d - 1 + ez))%Q) by (apply p2_lt; lia).
    lra. }
  unfold binary_round. fold d.
  assert (Eal : shl_align M ez (fexp 24 128 (d + ez)) = (M, ez)).
  { unfold shl_align, fexp, emin.
    destruct (Z.max (d + ez - 24) (3 - 128 - 24) - ez) eqn:E; try done. lia. }
  rewrite Eal.
  destruct (round_close M ez loc_Exact (d - 24)) as (r & q & Er & Hn & Hq & Hv);
    [unfold d; lia | lia | lia | done |].
  rewrite Er. split; [done|].
  eapply close_eq; [symmetry; exact EXY | symmetry; exact Hv |].
  destruct (rounded_within (Zpos M) (2 ^ (d - 24)) q) as [H3 H4];
    [apply Z.pow_pos_nonneg; lia | apply digits_pow; unfold d; lia | done |].
  apply close_scaled; [apply p2_pos | done | done].
Qed.

(** *** Division *)

Lemma inject_Z_pos (z : Z) : 0 < z -> (0 < inject_Z z)%Q.
Proof. intros H. change 0%Q with (inject_Z 0). by apply inject_Z_lt. Qed.

Lemma div_close (x y : Binary32.float) :
  normal x = true -> normal y = true ->
  (p2 (-125) <= Binary32.to_Q x / Binary32.to_Q y)%Q ->
  (Binary32.to_Q x / Binary32.to_Q y <= p2 126)%Q ->
  normal (Binary32.div x y) = true /\
  close (Binary32.to_Q x / Binary32.to_Q y)
        (Binary32.to_Q (Binary32.div x y)).
Proof.
  intros (m1 & e1 & -> & Hm1 & He1)%normal_inv
         (m2 & e2 & -> & Hm2 & He2)%normal_inv.
  pose proof (p2_pos e1) as Hp1. pose proof (p2_pos e2) as Hp2.
  pose proof (inject_Z_pos (Zpos m1) ltac:(lia)) as Hq1.
  pose proof (inject_Z_pos (Zpos m2) ltac:(lia)) as Hq2.
  assert (Hd1 : Zpos (digits2_pos m1) = 24)
    by (apply digits2_pos_unique; simpl; lia).
  assert (Hd2 : Zpos (digits2_pos m2) = 24)
    by (apply digits2_pos_unique; simpl; lia).
  (* the quotient of the mantissas lies between 1/2 and 2 *)
  assert (EXY : (Binary32.to_Q (S754_finite false m1 e1)
                 / Binary32.to_Q (S754_finite false m2 e2)
                 == inject_Z (Zpos m1) / inject_Z (Zpos m2) * p2 (e1 - e2))%Q).
  { rewrite !to_Q_finite. replace e1 with (e1 - e2 + e2) at 1 by lia.
    rewrite p2_add. field. split; lra. }
  intros Hlo Hhi. rewrite EXY in Hlo, Hhi.
  assert (Hratio : (inject_Z (Zpos m1) / inject_Z (Zpos m2) < 2)%Q).
  { apply Qlt_shift_div_r; [done|].
    change 2%Q with (inject_Z 2). rewrite <- inject_Z_mult.
    apply inject_Z_lt. lia. }
  assert (Hexp : -125 <= e1 - e2).
  { destruct (Z.le_gt_cases (-125) (e1 - e2)) as [|Hc]; [done|]. exfalso.
    pose proof (p2_pos (e1 - e2)) as Hp.
    assert (Hpp : (p2 (1 + (e1 - e2)) <= p2 (-125))%Q) by (apply p2_le; lia).
    rewrite p2_add in Hpp. change (p2 1) with 2%Q in Hpp. nra. }
  unfold Binary32.div, SFdiv, Binary32.prec, Binary32.emax. cbn [xorb].
  unfold SFdiv_core_binary. cbn [Zdigits2]. rewrite Hd1, Hd2.
  replace (Z.min (fexp 24 128 (24 + e1 - (24 + e2))) (e1 - e2))
    with (e1 - e2 - 24) by (unfold fexp, emin; lia).
  replace (e1 - e2 - (e1 - e2 - 24)) with 24 by lia.
  rewrite Z.shiftl_mul_pow2 by lia.
  set (m' := Zpos m1 * 2 ^ 24).
  pose proof (Z_div_mod m' (Zpos m2) ltac:(lia)) as Hdm.
  destruct (Z.div_eucl m' (Zpos m2)) as [q r]. destruct Hdm as [Hm' Hr].
  assert (Hq : 2 ^ 23 <= q < 2 ^ 25).
  { unfold m' in Hm'. change (2 ^ 24) with 16777216 in *.
    change (2 ^ 23) with 8388608 in *. change (2 ^ 25) with 33554432. nia. }
  destruct q as [|qp|qp]; [simpl in Hq; lia| |lia].
  pose proof (digits_ge qp 23 ltac:(lia)) as Hdq.
  set (d := Zpos (digits2_pos qp)) in *.
  pose proof (digits2_pos_spec qp) as [Hdlo Hdhi]. fold d in Hdlo, Hdhi.
  assert (Hd25 : d <= 25).
  { destruct (Z.le_gt_cases d 25) as [|Hc]; [done|]. exfalso.
    assert (2 ^ 25 <= 2 ^ (d - 1)) by (apply Z.pow_le_mono_r; lia). lia. }
  set (e' := e1 - e2 - 24) in *.
  (* the exact quotient, scaled *)
  assert (EV : (inject_Z (Zpos m1) / inject_Z (Zpos m2) * p2 (e1 - e2)
                == inject_Z m' * (p2 e' / inject_Z (Zpos m2)))%Q).
  { unfold m'. rewrite inject_Z_mult, p2_inject by lia.
    replace (e1 - e2) with (24 + e') by (unfold e'; lia).
    rewrite p2_add. field. lra. }
  rewrite EV in Hlo, Hhi.
  assert (HP : (0 < p2 e' / inject_Z (Zpos m2))%Q).
  { apply Qlt_shift_div_l; [done|]. pose proof (p2_pos e'). lra. }
  assert (Hhigh : e' + (d - 24) <= 103).
  { destruct (Z.le_gt_cases (e' + (d - 24)) 103) as [|Hc]; [done|]. exfalso.
    assert (Hp : (p2 126 < p2 (d - 1 + e'))%Q) by (apply p2_lt; lia).
    pose proof (scaled_bounds qp e') as [Hsl _]. cbn zeta in Hsl. fold d in Hsl.
    assert (Hqm : (inject_Z (Zpos qp) * p2 e'
                   <= inject_Z m' * (p2 e' / inject_Z (Zpos m2)))%Q).
    { assert (E : (inject_Z m' * (p2 e' / inject_Z (Zpos m2))
                   == (inject_Z m' / inject_Z (Zpos m2)) * p2 e')%Q)
        by (field; lra).
      rewrite E. apply Qmult_le_compat_r; [|pose proof (p2_pos e'); lra].
      apply Qle_shift_div_l; [done|]. rewrite <- inject_Z_mult.
      apply inject_Z_le. lia. }
    lra. }
  destruct (round_close qp e' (new_location (Zpos m2) r) (d - 24))
    as (res & q' & Er & Hn & Hq' & Hv); [unfold d; lia | lia | unfold e'; lia | done |].
  rewrite Er. split; [done|].
  assert (Hv' : (Binary32.to_Q res
                 == inject_Z (q' * 2 ^ (d - 24) * Zpos m2)
                    * (p2 e' / inject_Z (Zpos m2)))%Q).
  { rewrite Hv, (inject_Z_mult _ (Zpos m2)). field. lra. }
  eapply close_eq; [symmetry; rewrite EXY; exact EV | symmetry; exact Hv' |].
  apply close_scaled; [done| |].
  - (* upper *)
    assert (HN : 0 < 2 ^ (d - 24)) by (apply Z.pow_pos_nonneg; lia).
    pose proof (digits_pow qp (d - 24) ltac:(unfold d; lia) ltac:(lia)) as HqN.
    pose proof (Z.mul_div_le (Zpos qp) (2 ^ (d - 24)) HN) as H1.
    pose proof (Z.mul_succ_div_gt (Zpos qp) (2 ^ (d - 24)) HN) as H2.
    set (N := 2 ^ (d - 24)) in *. set (Q0 := Zpos qp / N) in *.
    replace (N * Z.succ Q0) with (N * Q0 + N) in H2 by lia.
    assert (HA : 0 <= N * Q0) by nia.
    destruct Hq' as [->| ->]; nia.
  - assert (HN : 0 < 2 ^ (d - 24)) by (apply Z.pow_pos_nonneg; lia).
    pose proof (digits_pow qp (d - 24) ltac:(unfold d; lia) ltac:(lia)) as HqN.
    pose proof (Z.mul_div_le (Zpos qp) (2 ^ (d - 24)) HN) as H1.
    pose proof (Z.mul_succ_div_gt (Zpos qp) (2 ^ (d - 24)) HN) as H2.
    set (N := 2 ^ (d - 24)) in *. set (Q0 := Zpos qp / N) in *.
    replace (N * Z.succ Q0) with (N * Q0 + N) in H2 by lia.
    assert (HA : 0 <= N * Q0) by nia.
    destruct Hq' as [->| ->]; nia.
Qed.

(** *** Truncation *)

Lemma trunc_floor (f : Binary32.float) (z : Z) :
  normal f = true ->
  (inject_Z z <= Binary32.to_Q f)%Q -> (Binary32.to_Q f < inject_Z (z + 1))%Q ->
  Binary32.trunc f = Some z.
Proof.
  intros (m & e & -> & Hm & He)%normal_inv. rewrite to_Q_finite.
  intros Hlo Hhi. cbn [Binary32.trunc]. f_equal. unfold Binary32.mag_down.
  destruct (Z.leb_spec 0 e) as [Hpos|Hneg].
  - rewrite <- p2_inject, <- inject_Z_mult in Hlo, Hhi by done.
    rewrite <- Zle_Qle in Hlo. rewrite <- Zlt_Qlt in Hhi.
    rewrite Z.shiftl_mul_pow2 by done. lia.
  - rewrite Z.shiftr_div_pow2 by lia.
    assert (HK : 0 < 2 ^ (- e)) by (apply Z.pow_pos_nonneg; lia).
    pose proof (inject_Z_pos _ HK) as HKq.
    assert (E : (p2 e == / inject_Z (2 ^ (- e)))%Q).
    { rewrite p2_inject by lia. unfold p2. rewrite <- Qpower_opp.
      by rewrite Z.opp_involutive. }
    rewrite E in Hlo, Hhi.
    assert (H1 : (inject_Z (z * 2 ^ (- e)) <= inject_Z (Zpos m))%Q).
    { rewrite inject_Z_mult.
      apply (Qmult_le_compat_r _ _ (inject_Z (2 ^ (- e)))) in Hlo; [|lra].
      assert (E2 : (inject_Z (Zpos m) * / inject_Z (2 ^ (- e))
                    * inject_Z (2 ^ (- e)) == inject_Z (Zpos m))%Q)
        by (field; lra).
      by rewrite E2 in Hlo. }
    assert (H2 : (inject_Z (Zpos m) < inject_Z ((z + 1) * 2 ^ (- e)))%Q).
    { rewrite inject_Z_mult.
      apply (Qmult_lt_compat_r _ _ (inject_Z (2 ^ (- e)))) in Hhi; [|lra].
      assert (E2 : (inject_Z (Zpos m) * / inject_Z (2 ^ (- e))
                    * inject_Z (2 ^ (- e)) == inject_Z (Zpos m))%Q)
        by (field; lra).
      by rewrite E2 in Hhi. }
    rewrite <- Zle_Qle in H1. rewrite <- Zlt_Qlt in H2.
    symmetry. apply (Z.div_unique _ _ _ (Zpos m - 2 ^ (- e) * z)); lia.
Qed.

(** *** Byte values *)

Lemma of_byte_normal (b : byte) :
  byte_to_Z b <> 0 ->
  normal (of_byte (F:=Binary32.float) b) = true /\
  (Binary32.to_Q (of_byte (F:=Binary32.float) b) == inject_Z (byte_to_Z b))%Q.
Proof.
  destruct b; intros H; try (exfalso; apply H; reflexivity);
    split; reflexivity.
Qed.

Lemma normal_lower (f : Binary32.float) :
  normal f = true -> (p2 (-126) <= Binary32.to_Q f)%Q.
Proof.
  intros (m & e & -> & Hm & He)%normal_inv. rewrite to_Q_finite.
  pose proof (scaled_bounds m e) as [Hlo _]. cbn zeta in Hlo.
  rewrite (digits2_pos_unique m 24) in Hlo by (simpl; lia).
  eapply Qle_trans; [|exact Hlo]. apply p2_le. lia.
Qed.

Lemma p2_126_large : (1073741824 <= p2 126)%Q.
Proof.
  change 1073741824%Q with (inject_Z (2 ^ 30)). rewrite p2_inject by lia.
  apply p2_le. lia.
Qed.

Lemma p2_125_small : (p2 (-125) <= 1 # 2)%Q.
Proof.
  assert (E : (1 # 2 == p2 (-1))%Q) by reflexivity.
  rewrite E. apply p2_le. lia.
Qed.

Lemma p2_126_pos : (0 < p2 (-126))%Q.
Proof. apply p2_pos. Qed.

(** ** The drift of a normalised average *)

(** One tap more: the error bound grows by [6 * eps]. *)
Lemma drift_step (v W w S p S' W' a : Q) :
  (0 < v)%Q -> (0 < W)%Q -> (0 < w)%Q -> (eps <= a)%Q -> (a <= 1 # 2)%Q ->
  (v * W * (1 - a) <= S)%Q -> (S <= v * W * (1 + a))%Q ->
  close (v * w) p -> close (S + p) S' -> close (W + w) W' ->
  (v * W' * (1 - (a + 6 * eps)) <= S')%Q /\
  (S' <= v * W' * (1 + (a + 6 * eps)))%Q.
Proof.
  unfold close, eps. intros Hv HW Hw Ha Ha1 HS1 HS2 [Hp1 Hp2] [HS'1 HS'2]
    [HW'1 HW'2].
  set (e := (1 # 8388608)%Q) in *.
  assert (He : (e == 1 # 8388608)%Q) by reflexivity.
  assert (HA : (0 < v * W)%Q) by nra.
  assert (HB : (0 < v * w)%Q) by nra.
  assert (HVW1 : ((v * W + v * w) * (1 - e) <= v * W')%Q).
  { assert (E : ((v * W + v * w) * (1 - e) == v * ((W + w) * (1 - e)))%Q)
      by ring.
    rewrite E. apply Qmult_le_l; done. }
  assert (HVW2 : (v * W' <= (v * W + v * w) * (1 + e))%Q).
  { assert (E : ((v * W + v * w) * (1 + e) == v * ((W + w) * (1 + e)))%Q)
      by ring.
    rewrite E. apply Qmult_le_l; done. }
  set (A := (v * W)%Q) in *. set (B := (v * w)%Q) in *.
  set (V := (v * W')%Q) in *.
  assert (Hsum1 : ((A + B) * (1 - a) <= S + p)%Q) by nra.
  assert (Hsum2 : (S + p <= (A + B) * (1 + a))%Q) by nra.
  set (C := (A + B)%Q) in *. assert (HC : (0 < C)%Q) by (unfold C; lra).
  assert (HS'3 : (C * (1 - a) * (1 - e) <= S')%Q) by nra.
  assert (HS'4 : (S' <= C * (1 + a) * (1 + e))%Q) by nra.
  split.
  - assert (H1 : (V * (1 - (a + 6 * e)) <= C * (1 + e) * (1 - (a + 6 * e)))%Q)
      by nra.
    assert (H2 : (C * (1 + e) * (1 - (a + 6 * e)) <= C * (1 - a) * (1 - e))%Q)
      by nra.
    lra.
  - assert (H1 : (C * (1 - e) * (1 + (a + 6 * e)) <= V * (1 + (a + 6 * e)))%Q)
      by nra.
    assert (H2 : (C * (1 + a) * (1 + e) <= C * (1 - e) * (1 + (a + 6 * e)))%Q)
      by nra.
    lra.
Qed.

Lemma add_zero_l (y : Binary32.float) :
  normal y = true -> Binary32.add (S754_zero false) y = y.
Proof. by intros (m & e & -> & _)%normal_inv. Qed.

Lemma of_byte_zero (b : byte) :
  byte_to_Z b = 0 -> of_byte (F:=Binary32.float) b = S754_zero false.
Proof. destruct b; try discriminate. reflexivity. Qed.

Lemma mul_zero_l (y : Binary32.float) :
  normal y = true -> Binary32.mul (S754_zero false) y = S754_zero false.
Proof. by intros (m & e & -> & _)%normal_inv. Qed.

Lemma drift_succ (c : Z) : (drift (c + 1) == drift c + 6 * eps)%Q.
Proof. unfold drift. rewrite inject_Z_plus. ring. Qed.

Lemma channel_step (b : byte) (c : Z) (S W w : Binary32.float) :
  0 <= c < 4096 -> channel (byte_to_Z b) c S W -> weight w ->
  channel (byte_to_Z b) (c + 1)
    (Binary32.add S (Binary32.mul (of_byte (F:=Binary32.float) b) w)) (Binary32.add W w).
Proof.
  intros Hc Hch [Hw Hw1]. pose proof (byte_to_Z_range b) as Hb.
  pose proof (normal_lower w Hw) as Hwlo. pose proof p2_126_pos as Hpos.
  pose proof p2_126_large as Hbig.
  assert (Hcq : (0 <= inject_Z c <= 4096)%Q).
  { change 0%Q with (inject_Z 0). change 4096%Q with (inject_Z 4096).
    split; apply inject_Z_le; lia. }
  (* the product of the byte value and the weight *)
  assert (Hprod : 0 < byte_to_Z b ->
            normal (Binary32.mul (of_byte (F:=Binary32.float) b) w) = true /\
            close (inject_Z (byte_to_Z b) * Binary32.to_Q w)
                  (Binary32.to_Q (Binary32.mul (of_byte (F:=Binary32.float) b) w))).
  { intros Hv. destruct (of_byte_normal b ltac:(lia)) as [Hn Hval].
    assert (Hvq : (1 <= inject_Z (byte_to_Z b) <= 255)%Q).
    { change 1%Q with (inject_Z 1). change 255%Q with (inject_Z 255).
      split; apply inject_Z_le; lia. }
    destruct (mul_close (of_byte (F:=Binary32.float) b) w Hn Hw) as [Hn' Hcl].
    - rewrite Hval. nra.
    - rewrite Hval. nra.
    - split; [done|]. eapply close_eq; [|reflexivity|exact Hcl].
      by rewrite Hval. }
  right. split; [lia|].
  destruct Hch as [(-> & -> & ->) | (Hc0 & HnW & HW & HS)].
  - (* the first tap *)
    rewrite (add_zero_l w Hw). split; [done|].
    split; [change (inject_Z (2 * (0 + 1))) with 2%Q; lra|].
    destruct (Z.eq_dec (byte_to_Z b) 0) as [Hz|Hnz].
    + left. split; [done|]. by rewrite (of_byte_zero b Hz), mul_zero_l.
    + right. destruct (Hprod ltac:(lia)) as [Hn [Hp1 Hp2]].
      rewrite (add_zero_l _ Hn). split; [lia|]. split; [done|].
      assert (Hvq : (1 <= inject_Z (byte_to_Z b))%Q).
      { change 1%Q with (inject_Z 1). apply inject_Z_le. lia. }
      assert (Hvw : (0 < inject_Z (byte_to_Z b) * Binary32.to_Q w)%Q) by nra.
      assert (Ed : (drift (0 + 1) == 6 * eps)%Q) by (unfold drift; change (inject_Z (0 + 1)) with 1%Q; ring).
      rewrite Ed. unfold eps in *.
      set (vw := (inject_Z (byte_to_Z b) * Binary32.to_Q w)%Q) in *.
      split; lra.
  - (* a further tap *)
    pose proof (normal_lower W HnW) as HWlo.
    assert (HW2 : (Binary32.to_Q W <= 8192)%Q).
    { rewrite inject_Z_mult in HW. change (inject_Z 2) with 2%Q in HW. lra. }
    destruct (add_close W w HnW Hw) as [HnW' [HW'1 HW'2]]; [lra|].
    split; [done|]. split.
    { rewrite inject_Z_mult, inject_Z_plus in *.
      change (inject_Z 2) with 2%Q in *. change (inject_Z 1) with 1%Q.
      unfold eps in HW'2. nra. }
    destruct HS as [[Hz ->] | (Hv & HnS & HS1 & HS2)].
    + left. split; [done|].
      rewrite (of_byte_zero b Hz), mul_zero_l by done. reflexivity.
    + right. split; [done|].
      destruct (Hprod Hv) as [Hn Hp].
      assert (Hvq : (1 <= inject_Z (byte_to_Z b) <= 255)%Q).
      { change 1%Q with (inject_Z 1). change 255%Q with (inject_Z 255).
        split; apply inject_Z_le; lia. }
      assert (Hd : (eps <= drift c /\ drift c <= 1 # 2)%Q).
      { unfold drift, eps. assert (1 <= inject_Z c)%Q.
        { change 1%Q with (inject_Z 1). apply inject_Z_le. lia. }
        split; nra. }
      assert (HVW : (inject_Z (byte_to_Z b) * Binary32.to_Q W <= 2088960)%Q)
        by nra.
      assert (HSmax : (Binary32.to_Q S <= 4177920)%Q).
      { assert (HVW0 : (0 <= inject_Z (byte_to_Z b) * Binary32.to_Q W)%Q)
          by nra.
        destruct Hd as [Hd1 Hd2]. unfold eps in Hd1.
        set (VW := (inject_Z (byte_to_Z b) * Binary32.to_Q W)%Q) in *.
        set (dc := drift c) in *. nra. }
      assert (Hpmax : (Binary32.to_Q (Binary32.mul (of_byte (F:=Binary32.float) b) w) <= 512)%Q).
      { destruct Hp as [_ Hp2]. unfold eps in Hp2. nra. }
      destruct (add_close S (Binary32.mul (of_byte (F:=Binary32.float) b) w) HnS Hn) as [HnS' HS'];
        [lra|].
      split; [done|].
      rewrite drift_succ.
      apply (drift_step (inject_Z (byte_to_Z b)) (Binary32.to_Q W)
               (Binary32.to_Q w) (Binary32.to_Q S)
               (Binary32.to_Q (Binary32.mul (of_byte (F:=Binary32.float) b) w))); try done;
        try lra.
Qed.

Lemma byte_of_Z_Some (z : Z) :
  0 <= z < 256 -> exists b, byte_of_Z z = Some b /\ byte_to_Z b = z.
Proof.
  intros Hz. unfold byte_of_Z.
  destruct (Z.leb_spec 0 z); [|lia]. destruct (Z.ltb_spec z 256); [|lia].
  simpl. destruct (Byte.of_N (Z.to_N z)) as [b|] eqn:E.
  - exists b. split; [done|]. unfold byte_to_Z.
    apply Byte.to_of_N in E. rewrite E. lia.
  - apply Byte.of_N_None_iff in E. lia.
Qed.

(** The quotient of the two running sums, converted to [uint8_t], is the
    byte value of the source or the value below it. *)
Lemma channel_final (b : byte) (c : Z) (S W : Binary32.float) :
  1 <= c <= 4096 -> channel (byte_to_Z b) c S W ->
  exists b',
    to_uint8 (F:=Binary32.float) (Binary32.div S W) = Some b' /\
    byte_to_Z b - 1 <= byte_to_Z b' <= byte_to_Z b.
Proof.
  intros Hc [(? & _)|(_ & HnW & HW & HS)]; [lia|].
  pose proof (byte_to_Z_range b) as Hb.
  destruct HS as [[Hz ->] | (Hv & HnS & HS1 & HS2)].
  - apply normal_inv in HnW as (m & e & -> & _).
    exists x00. split; [reflexivity|]. rewrite Hz.
    change (byte_to_Z x00) with 0. lia.
  - pose proof (normal_lower W HnW) as HWlo. pose proof p2_126_pos as Hpos.
    pose proof p2_126_large as Hbig. pose proof p2_125_small as Hsmall.
    assert (HWpos : (0 < Binary32.to_Q W)%Q) by lra.
    assert (Hvq : (1 <= inject_Z (byte_to_Z b) <= 255)%Q).
    { change 1%Q with (inject_Z 1). change 255%Q with (inject_Z 255).
      split; apply inject_Z_le; lia. }
    assert (Hd : (0 <= drift c /\ drift c <= 3 # 1024)%Q).
    { unfold drift, eps.
      assert (1 <= inject_Z c <= 4096)%Q.
      { change 1%Q with (inject_Z 1). change 4096%Q with (inject_Z 4096).
        split; apply inject_Z_le; lia. }
      split; nra. }
    destruct Hd as [Hd0 Hd1].
    set (v := inject_Z (byte_to_Z b)) in *. set (d := drift c) in *.
    (* the exact quotient *)
    assert (Hq1 : (v * (1 - d) <= Binary32.to_Q S / Binary32.to_Q W)%Q).
    { apply Qle_shift_div_l; [done|]. lra. }
    assert (Hq2 : (Binary32.to_Q S / Binary32.to_Q W <= v * (1 + d))%Q).
    { apply Qle_shift_div_r; [done|]. lra. }
    assert (Hvd : (0 <= v * d <= 255 * (3 # 1024))%Q) by nra.
    destruct (div_close S W HnS HnW) as [Hnq [Hc1 Hc2]]; [nra | nra |].
    set (q := Binary32.to_Q (Binary32.div S W)) in *.
    set (x := (Binary32.to_Q S / Binary32.to_Q W)%Q) in *.
    unfold eps in Hc1, Hc2.
    assert (Hx : (0 < x <= 256)%Q) by nra.
    assert (Hlow : (v - 1 <= q)%Q) by nra.
    assert (Hhigh : (q < v + 1)%Q) by nra.
    destruct (Qlt_le_dec q v) as [Hlt|Hge].
    + destruct (byte_of_Z_Some (byte_to_Z b - 1) ltac:(lia)) as (b' & Eb & Hb').
      exists b'. split; [|lia]. unfold to_uint8.
      change (ftrunc (Binary32.div S W)) with (Binary32.trunc (Binary32.div S W)).
      rewrite (trunc_floor _ (byte_to_Z b - 1) Hnq).
      * exact Eb.
      * fold q. unfold Z.sub. rewrite inject_Z_plus, inject_Z_opp. fold v.
        change (inject_Z 1) with 1%Q. lra.
      * fold q. replace (byte_to_Z b - 1 + 1) with (byte_to_Z b) by lia.
        done.
    + destruct (byte_of_Z_Some (byte_to_Z b) ltac:(lia)) as (b' & Eb & Hb').
      exists b'. split; [|lia]. unfold to_uint8.
      change (ftrunc (Binary32.div S W)) with (Binary32.trunc (Binary32.div S W)).
      rewrite (trunc_floor _ (byte_to_Z b) Hnq).
      * exact Eb.
      * done.
      * fold q. rewrite inject_Z_plus. fold v. change (inject_Z 1) with 1%Q.
        lra.
Qed.

(** ** The two passes of the blur *)

Section UniformTaps.
Variables (get : Z -> option (Color Binary32.float)) (limit pos k : Z).
Variables (kernel : list Binary32.float) (r g b a : byte).
Hypothesis Hpos : 0 <= pos < limit.
Hypothesis Hlimit : limit <= 4096.
Hypothesis Hk : 0 < k < 2 ^ 31.
Hypothesis Hlen : length kernel = Z.to_nat k.
Hypothesis Hker : Forall weight kernel.
Hypothesis Hget : forall src, 0 <= src < limit ->
                              get src = Some (byte_pixel r g b a).

(** The four channels of the running sums share the weight total. *)
Lemma blur_taps_uniform32 :
  exists sum W c,
    blur_taps get limit pos k kernel = Some (sum, W) /\ 1 <= c <= 4096 /\
    channel (byte_to_Z r) c (v4x sum) W /\
    channel (byte_to_Z g) c (v4y sum) W /\
    channel (byte_to_Z b) c (v4z sum) W /\
    channel (byte_to_Z a) c (v4w sum) W.
Proof.
  pose (P := fun (i : Z) (acc : Vector4f Binary32.float * Binary32.float) =>
    channel (byte_to_Z r) (taps_inside limit pos k i) (v4x acc.1) acc.2 /\
    channel (byte_to_Z g) (taps_inside limit pos k i) (v4y acc.1) acc.2 /\
    channel (byte_to_Z b) (taps_inside limit pos k i) (v4z acc.1) acc.2 /\
    channel (byte_to_Z a) (taps_inside limit pos k i) (v4w acc.1) acc.2).
  assert (Hhalf : 0 <= k / 2 < k).
  { split; [apply Z.div_pos; lia | apply Z.div_lt_upper_bound; lia]. }
  unfold blur_taps.
  edestruct (for_loop_indexed P) as ([sum W] & Hloop & HP).
  3: { exists sum, W, (taps_inside limit pos k (0 + Z.of_nat (Z.to_nat k))).
       split; [exact Hloop|]. split; [|exact HP].
       unfold taps_inside. lia. }
  - assert (E0 : taps_inside limit pos k 0 = 0) by (unfold taps_inside; lia).
    unfold P. rewrite E0. unfold channel. simpl.
    repeat split; left; done.
  - intros i [s W0] Hi (Hr & Hg & Hb & Ha). cbn [fst snd] in *.
    rewrite tap_position_small by lia.
    rewrite (s32_small limit) by lia.
    destruct ((0 <=? pos + i - k / 2) && (pos + i - k / 2 <? limit)) eqn:Hin.
    + apply andb_true_iff in Hin as [H1 H2].
      apply Z.leb_le in H1. apply Z.ltb_lt in H2.
      rewrite Hget by lia. cbn [mbind option_bind].
      destruct (lookup_lt_is_Some_2 kernel (Z.to_nat i) ltac:(lia))
        as [w Hw].
      rewrite Hw. cbn [mbind option_bind].
      assert (Hweight : weight w).
      { rewrite Forall_lookup in Hker. by apply (Hker (Z.to_nat i)). }
      eexists. split; [reflexivity|]. unfold P. cbn [fst snd].
      assert (Ec : taps_inside limit pos k (i + 1)
                   = taps_inside limit pos k i + 1)
        by (unfold taps_inside; lia).
      assert (Hc : 0 <= taps_inside limit pos k i < 4096)
        by (unfold taps_inside; lia).
      rewrite Ec.
      split; [|split; [|split]]; apply channel_step; done.
    + exists (s, W0). split; [done|]. unfold P. cbn [fst snd].
      assert (Ec : taps_inside limit pos k (i + 1) = taps_inside limit pos k i).
      { apply andb_false_iff in Hin as [Hin|Hin].
        - apply Z.leb_gt in Hin. unfold taps_inside. lia.
        - apply Z.ltb_ge in Hin. unfold taps_inside. lia. }
      rewrite Ec. done.
Qed.

(** One pass over a uniform source lowers each channel by at most one. *)
Lemma blur_pixel_uniform32 :
  exists r' g' b' a',
    blur_pixel get limit pos k kernel = Some (byte_pixel r' g' b' a') /\
    byte_to_Z r - 1 <= byte_to_Z r' <= byte_to_Z r /\
    byte_to_Z g - 1 <= byte_to_Z g' <= byte_to_Z g /\
    byte_to_Z b - 1 <= byte_to_Z b' <= byte_to_Z b /\
    byte_to_Z a - 1 <= byte_to_Z a' <= byte_to_Z a.
Proof.
  destruct blur_taps_uniform32 as (sum & W & c & Htaps & Hc & Hr & Hg & Hb & Ha).
  destruct (channel_final r c _ W Hc Hr) as (r' & Er & Hr').
  destruct (channel_final g c _ W Hc Hg) as (g' & Eg & Hg').
  destruct (channel_final b c _ W Hc Hb) as (b' & Eb & Hb').
  destruct (channel_final a c _ W Hc Ha) as (a' & Ea & Ha').
  exists r', g', b', a'. split; [|done].
  unfold blur_pixel. rewrite Htaps. cbn [mbind option_bind fst snd].
  cbn [v4_div v4x v4y v4z v4w].
  change (fdiv (v4x sum) W) with (Binary32.div (v4x sum) W).
  change (fdiv (v4y sum) W) with (Binary32.div (v4y sum) W).
  change (fdiv (v4z sum) W) with (Binary32.div (v4z sum) W).
  change (fdiv (v4w sum) W) with (Binary32.div (v4w sum) W).
  rewrite Er, Eg, Eb, Ea. done.
Qed.
End UniformTaps.

(** The taps read the source inside [0, limit) only. *)
Lemma blur_pixel_ext {F : Type} {AF : Arith F}
    (get1 get2 : Z -> option (Color F)) (limit pos k : Z) (kernel : list F) :
  0 <= pos < 2 ^ 30 -> 0 <= limit < 2 ^ 31 -> k < 2 ^ 31 ->
  (forall src, 0 <= src < limit -> get1 src = get2 src) ->
  blur_pixel get1 limit pos k kernel = blur_pixel get2 limit pos k kernel.
Proof.
  intros Hpos Hlimit Hk Hget. unfold blur_pixel, blur_taps.
  rewrite (for_loop_shift
             (fun i acc =>
                let src := s32 (pos + i - Z.quot k 2) in
                if (0 <=? src) && (src <? s32 limit)
                then pixel ← get2 src; w ← kernel !! Z.to_nat i;
                     Some (v4_add acc.1 (v4_scale (color_vector pixel) w),
                           (acc.2 + w)%flt)
                else Some acc) _ 0).
  - by rewrite Z.add_0_l.
  - intros i acc Hi. rewrite Z.add_0_r. cbn zeta.
    rewrite (s32_small limit) by lia.
    destruct ((0 <=? s32 (pos + i - Z.quot k 2))
              && (s32 (pos + i - Z.quot k 2) <? limit)) eqn:Hin; [|done].
    apply andb_true_iff in Hin as [H1 H2].
    apply Z.leb_le in H1. apply Z.ltb_lt in H2.
    by rewrite Hget by lia.
Qed.

Lemma convert_byte_pixel (r g b a : byte) :
  convert RGBA (byte_pixel r g b a) = Some (byte_pixel r g b a).
Proof.
  unfold convert, byte_pixel. cbn [cr cg cb ca].
  by rewrite !to_uint8_of_byte.
Qed.

(** A pass that computes a byte-valued colour for every pixel. *)
Lemma fill_pixels_bytes (pixel : Z -> Z -> option (Color Binary32.float))
    (dst : Image) :
  wf dst -> format_ dst = RGBA ->
  (forall x y, 0 <= x < width_ dst -> 0 <= y < height_ dst ->
     exists r g b a, pixel x y = Some (byte_pixel r g b a)) ->
  exists dst',
    fill_pixels (width_ dst) (height_ dst) pixel dst = Some dst' /\
    same_shape dst dst' /\
    forall x y, 0 <= x < width_ dst -> 0 <= y < height_ dst ->
      getPixel dst' x y = pixel x y.
Proof.
  intros Hwf Hfmt Hpix. unfold fill_pixels.
  destruct (box_loop dst
              (fun x y im => c ← pixel x y; setPixel im x y c)
              (fun x y _ => pixel x y)
              0 (Z.to_nat (width_ dst)) (Z.to_nat (height_ dst)) 0 dst)
    as (dst' & Hloop & Hs & Hget); try done.
  - intros x y Hx Hy im Him.
    destruct (Hpix x y) as (r & g & b & a & Hp); [lia | lia |].
    rewrite Hp. cbn [mbind option_bind].
    destruct Him as (Ew & Eh & Ef & El).
    destruct (setPixel_spec im x y (byte_pixel r g b a) (byte_pixel r g b a))
      as (im' & ? & ? & ? & ?);
      try (rewrite ?Ew, ?Eh, ?Ef; done || lia).
    { apply (same_shape_wf dst); done. }
    { rewrite Ef, Hfmt. apply convert_byte_pixel. }
    by exists im'.
  - exists dst'. split; [exact Hloop|]. split; [done|].
    intros x y Hx Hy. rewrite Hget by lia.
    rewrite decide_True by lia. done.
Qed.

Section Taps.
Context {F : Type} {AF : Arith F}.

(** The tap loop of the blur computes that sum, with the offsets
    [i - k / 2] for [i = 0 .. k - 1]. *)
Lemma blur_taps_offsets (get : Z -> option (Color F)) (limit pos k : Z)
    (kernel : list F) :
  0 <= pos < 2 ^ 30 -> 0 <= limit < 2 ^ 31 -> 0 <= k < 2 ^ 31 ->
  length kernel = Z.to_nat k ->
  blur_taps get limit pos k kernel
  = weighted_taps get limit pos (zip (tap_offsets k) kernel).
Proof.
  intros Hpos Hlimit Hk Hlen. unfold blur_taps, weighted_taps, tap_offsets.
  set (body := fun (i : Z) (acc : Vector4f F * F) =>
    let src := s32 (pos + i - Z.quot k 2) in
    if (0 <=? src) && (src <? s32 limit)
    then pixel ← get src; w ← kernel !! Z.to_nat i;
         Some (v4_add acc.1 (v4_scale (color_vector pixel) w), (acc.2 + w)%flt)
    else Some acc).
  set (step := fun (acc : option (Vector4f F * F)) (tap : Z * F) =>
    acc ← acc;
    let src := pos + tap.1 in
    if (0 <=? src) && (src <? limit)
    then pixel ← get src;
         Some (v4_add acc.1 (v4_scale (color_vector pixel) tap.2),
               (acc.2 + tap.2)%flt)
    else Some acc).
  assert (Hnone : forall l, foldl step None l = None).
  { induction l as [|t l IH]; [done|]. simpl. exact IH. }
  assert (Hgen : forall (n : nat) (lo : Z) (acc : Vector4f F * F),
            0 <= lo -> lo + Z.of_nat n = k ->
            for_loop lo n body acc
            = foldl step (Some acc)
                (zip (tap_offset k <$> seqZ lo (Z.of_nat n))
                     (drop (Z.to_nat lo) kernel))).
  { induction n as [|n IH]; intros lo acc Hlo Hsum; [done|].
    rewrite for_loop_step.
    replace (Z.of_nat (Datatypes.S n)) with (Z.succ (Z.of_nat n)) by lia.
    rewrite seqZ_cons by lia. rewrite Z.pred_succ.
    destruct (lookup_lt_is_Some_2 kernel (Z.to_nat lo) ltac:(lia)) as [w Hw].
    rewrite (drop_S _ _ _ Hw). cbn [fmap list_fmap zip zip_with foldl].
    replace (Datatypes.S (Z.to_nat lo)) with (Z.to_nat (Z.succ lo)) by lia.
    assert (Ebody : body lo acc = step (Some acc) (tap_offset k lo, w)).
    { unfold body, step. cbn [mbind option_bind fst snd]. cbn zeta.
      rewrite tap_position_small by lia. rewrite (s32_small limit) by lia.
      unfold tap_offset. rewrite Z.quot_div_nonneg by lia.
      replace (pos + (lo - k / 2)) with (pos + lo - k / 2) by lia.
      destruct (_ && _); [|done].
      destruct (get _); [|done]. cbn [mbind option_bind]. by rewrite Hw. }
    rewrite Ebody.
    destruct (step (Some acc) (tap_offset k lo, w)) as [acc'|];
      cbn [mbind option_bind]; [|by rewrite Hnone].
    replace (lo + 1) with (Z.succ lo) by lia.
    apply IH; lia. }
  rewrite (Hgen (Z.to_nat k) 0 (v4_zero, of_Z 0)) by lia.
  rewrite Z2Nat.id by lia. done.
Qed.
End Taps.

(** A loop one of whose iterations never has a result has none. *)
Lemma for_loop_None {S : Type} (body : Z -> S -> option S) (n : nat) :
  forall (lo : Z) (s : S) (i : Z),
    lo <= i < lo + Z.of_nat n -> (forall s, body i s = None) ->
    for_loop lo n body s = None.
Proof.
  induction n as [|n IH]; intros lo s i Hi Hnone; [lia|].
  rewrite for_loop_step. destruct (Z.eq_dec i lo) as [->|Hne].
  - by rewrite Hnone.
  - destruct (body lo s) as [s1|]; [|done]. cbn [mbind option_bind].
    apply (IH _ _ i); [lia | done].
Qed.

Lemma blur_pixel_bytes (get : Z -> option (Color Binary32.float))
    (limit pos k : Z) (kernel : list Binary32.float) c :
  blur_pixel get limit pos k kernel = Some c ->
  exists r g b a, c = byte_pixel r g b a.
Proof.
  unfold blur_pixel. intros E.
  destruct (blur_taps _ _ _ _ _) as [acc|]; [|done].
  cbn [mbind option_bind] in E.
  destruct (to_uint8 (v4x _)) as [r|]; [|done]. cbn [mbind option_bind] in E.
  destruct (to_uint8 (v4y _)) as [g|]; [|done]. cbn [mbind option_bind] in E.
  destruct (to_uint8 (v4z _)) as [b|]; [|done]. cbn [mbind option_bind] in E.
  destruct (to_uint8 (v4w _)) as [a|]; [|done]. cbn [mbind option_bind] in E.
  injection E as <-. by exists r, g, b, a.
Qed.

(** A pass of the blur that has a result has computed every pixel. *)
Lemma fill_pixels_blur (pixel : Z -> Z -> option (Color Binary32.float))
    (dst dst' : Image) :
  wf dst -> format_ dst = RGBA ->
  (forall x y c, pixel x y = Some c -> exists r g b a, c = byte_pixel r g b a) ->
  fill_pixels (width_ dst) (height_ dst) pixel dst = Some dst' ->
  same_shape dst dst' /\
  forall x y, 0 <= x < width_ dst -> 0 <= y < height_ dst ->
    is_Some (pixel x y) /\ getPixel dst' x y = pixel x y.
Proof.
  intros Hwf Hfmt Hbytes Hfill.
  assert (Hdef : forall x y, 0 <= x < width_ dst -> 0 <= y < height_ dst ->
            is_Some (pixel x y)).
  { intros x y Hx Hy. destruct (pixel x y) as [c|] eqn:E; [by eexists|].
    exfalso. unfold fill_pixels in Hfill.
    rewrite (for_loop_None _ _ 0 dst y) in Hfill; [done|lia|].
    intros im. apply (for_loop_None _ _ 0 im x); [lia|].
    intros im'. by rewrite E. }
  destruct (fill_pixels_bytes pixel dst Hwf Hfmt) as (dst'' & Hf & Hs & Hp).
  { intros x y Hx Hy. destruct (Hdef x y Hx Hy) as [c Hc].
    destruct (Hbytes x y c Hc) as (r & g & b & a & ->). eauto. }
  assert (dst'' = dst') as -> by congruence.
  split; [done|]. intros x y Hx Hy. split; [by apply Hdef | by apply Hp].
Qed.

(** The two passes of a blur that has a result. *)
Lemma applyGaussianBlur_passes {LF : Libm Binary32.float} (img out : Image)
    (sigma : Binary32.float) (k : Z) (kernel : list Binary32.float) :
  wf img -> format_ img = RGBA ->
  kernelSize sigma = Some k -> makeKernel sigma k = Some kernel ->
  applyGaussianBlur img sigma = Some out ->
  exists temp,
    same_shape img temp /\ same_shape img out /\
    forall x y, 0 <= x < width_ img -> 0 <= y < height_ img ->
      getPixel temp x y
      = blur_pixel (fun srcX => getPixel img srcX y) (width_ img) x k kernel /\
      getPixel out x y
      = blur_pixel (fun srcY => getPixel temp x srcY) (height_ img) y k kernel /\
      is_Some (getPixel (F:=Binary32.float) out x y).
Proof.
  intros Hwf Hfmt Hk Hkernel. unfold applyGaussianBlur.
  rewrite Hk. cbn [mbind option_bind]. rewrite Hkernel.
  cbn [mbind option_bind].
  pose proof Hwf as (Hw0 & Hh0 & Hsz & Hdata).
  set (temp0 := Image_new (width_ img) (height_ img) (format_ img)).
  assert (Hwf0 : wf temp0) by (by apply wf_Image_new).
  assert (Hs0 : same_shape img temp0).
  { unfold same_shape, temp0, Image_new. simpl.
    repeat split; try done. rewrite length_replicate, Hdata.
    unfold bufferSize, getBytesPerPixel in *. rewrite u32_small; [done|].
    pose proof (bytesPerPixel_pos (format_ img)). nia. }
  destruct (fill_pixels (width_ img) (height_ img) _ temp0) as [temp|] eqn:E1;
    [|done].
  cbn [mbind option_bind]. intros E2.
  destruct (fill_pixels_blur
              (fun x y => blur_pixel (fun srcX => getPixel img srcX y)
                            (width_ img) x k kernel) temp0 temp Hwf0)
    as [Hs1 Hp1]; [| |exact E1|].
  { unfold temp0. simpl. done. }
  { intros x y c. apply blur_pixel_bytes. }
  destruct (fill_pixels_blur
              (fun x y => blur_pixel (fun srcY => getPixel temp x srcY)
                            (height_ img) y k kernel) img out Hwf Hfmt)
    as [Hs2 Hp2]; [|exact E2|].
  { intros x y c. apply blur_pixel_bytes. }
  exists temp. split; [by apply (same_shape_trans _ temp0)|]. split; [done|].
  intros x y Hx Hy.
  destruct (Hp1 x y Hx Hy) as [_ Hq1]. destruct (Hp2 x y Hx Hy) as [Hd Hq2].
  split; [done|]. split; [done|]. by rewrite Hq2.
Qed.

(** ** The sum of the weights *)

Lemma p2_64_small : (0 < p2 (-64))%Q /\ (p2 (-125) * 16384 <= p2 (-64))%Q.
Proof.
  split; [apply p2_pos|].
  change 16384%Q with (inject_Z (2 ^ 14)). rewrite p2_inject by lia.
  rewrite <- p2_add. apply p2_le. lia.
Qed.

Lemma p2_64_large : (2 <= p2 (-64) * p2 126)%Q.
Proof.
  rewrite <- p2_add. assert (E : (2 == p2 1)%Q) by reflexivity.
  rewrite E. apply p2_le. lia.
Qed.

Lemma summed_step (c : Z) (T : Q) (acc s : Binary32.float) :
  0 <= c < 4096 -> summed c T acc -> sample s ->
  summed (c + 1) (T + Binary32.to_Q s) (Binary32.add acc s).
Proof.
  intros Hc Hacc (Hn & Hlo & Hhi).
  destruct p2_64_small as [H64 _]. pose proof p2_126_large as Hbig.
  assert (Hcq : (0 <= inject_Z c <= 4096)%Q).
  { change 0%Q with (inject_Z 0). change 4096%Q with (inject_Z 4096).
    split; apply inject_Z_le; lia. }
  right. split; [lia|]. rewrite inject_Z_plus. change (inject_Z 1) with 1%Q.
  destruct Hacc as [(-> & -> & HT) | (Hc0 & Hna & HT0 & HT1 & Ha1 & Ha2)].
  - rewrite (add_zero_l s Hn). split; [done|]. rewrite HT.
    change (inject_Z 0) with 0%Q. unfold eps.
    set (q := Binary32.to_Q s) in *. repeat split; try lra; nra.
  - assert (Hc1 : (1 <= inject_Z c)%Q).
    { change 1%Q with (inject_Z 1). apply inject_Z_le. lia. }
    unfold eps in *.
    set (a := Binary32.to_Q acc) in *. set (q := Binary32.to_Q s) in *.
    set (n := inject_Z c) in *.
    assert (Ha : (a <= 8192)%Q) by nra.
    destruct (add_close acc s Hna Hn) as [Hn' [Hc1' Hc2']];
      [fold a q; lra|]. fold a q in Hc1', Hc2'. unfold eps in Hc1', Hc2'.
    set (r := Binary32.to_Q (Binary32.add acc s)) in *.
    split; [done|]. split; [lra|]. split; [lra|].
    assert (HTn : (0 <= T * n)%Q) by nra.
    set (Tn := (T * n)%Q) in *.
    assert (Hqn : (0 <= q * n)%Q) by nra.
    split.
    + assert (E : ((T + q) * (1 - 2 * (1 # 8388608) * (n + 1))
                   == T + q - (1 # 4194304) * T * n - (1 # 4194304) * T
                      - (1 # 4194304) * q * n - (1 # 4194304) * q)%Q) by ring.
      rewrite E. fold Tn.
      assert (Ha1' : (T - (1 # 4194304) * Tn <= a)%Q) by (unfold Tn; lra).
      set (qn := (q * n)%Q) in *.
      assert (E2 : ((1 # 4194304) * q * n == (1 # 4194304) * qn)%Q)
        by (unfold qn; ring).
      rewrite E2. nra.
    + assert (E : ((T + q) * (1 + 2 * (1 # 8388608) * (n + 1))
                   == T + q + (1 # 4194304) * T * n + (1 # 4194304) * T
                      + (1 # 4194304) * q * n + (1 # 4194304) * q)%Q) by ring.
      rewrite E. fold Tn.
      assert (Ha2' : (a <= T + (1 # 4194304) * Tn)%Q) by (unfold Tn; lra).
      assert (HTn1 : (Tn <= 4096 * 4096)%Q) by (unfold Tn; nra).
      set (qn := (q * n)%Q) in *.
      assert (E2 : ((1 # 4194304) * q * n == (1 # 4194304) * qn)%Q)
        by (unfold qn; ring).
      rewrite E2. nra.
Qed.

Lemma summed_eq (c : Z) (T T' : Q) (acc : Binary32.float) :
  (T == T')%Q -> summed c T acc -> summed c T' acc.
Proof.
  intros E [(? & ? & HT) | (? & ? & ? & ? & ? & ?)]; [left|right].
  - by rewrite <- E.
  - rewrite <- E. done.
Qed.

Lemma foldl_summed (l : list Binary32.float) :
  forall (c : Z) (T : Q) (acc : Binary32.float),
    0 <= c -> c + Z.of_nat (length l) <= 4096 -> summed c T acc ->
    Forall sample l ->
    summed (c + Z.of_nat (length l)) (T + exact_sum l)
           (foldl Binary32.add acc l).
Proof.
  induction l as [|s l IH]; intros c T acc Hc Hlen Hacc Hall.
  - simpl. rewrite Z.add_0_r. eapply summed_eq; [|exact Hacc]. ring.
  - apply Forall_cons in Hall as [Hs Hall]. cbn [foldl length exact_sum foldr].
    cbn [length] in Hlen.
    replace (c + Z.of_nat (Datatypes.S (length l)))
      with (c + 1 + Z.of_nat (length l)) by lia.
    eapply summed_eq; [|apply IH; [lia | lia | apply summed_step | done]];
      [|lia|done|done].
    fold (exact_sum l). ring.
Qed.

(** The exact sum of samples divided by a common normal number. *)
Lemma divided_sum (S : Binary32.float) (l : list Binary32.float) :
  normal S = true ->
  (p2 (-64) * (1 # 2) <= Binary32.to_Q S)%Q -> (Binary32.to_Q S <= 8192)%Q ->
  Forall sample l ->
  Forall (fun w => normal w = true) ((fun s => Binary32.div s S) <$> l) /\
  (exact_sum l / Binary32.to_Q S * (1 - eps)
   <= exact_sum ((fun s => Binary32.div s S) <$> l))%Q /\
  (exact_sum ((fun s => Binary32.div s S) <$> l)
   <= exact_sum l / Binary32.to_Q S * (1 + eps))%Q.
Proof.
  intros HnS HSlo HShi Hall.
  destruct p2_64_small as [H64 H64']. pose proof p2_64_large as H64''.
  pose proof (p2_pos (-125)) as H125. pose proof (p2_pos 126) as H126.
  assert (HSpos : (0 < Binary32.to_Q S)%Q) by lra.
  induction Hall as [|s l (Hn & Hlo & Hhi) Hall IH].
  - simpl. split; [constructor|]. unfold Qdiv. split; lra.
  - destruct IH as (IHn & IH1 & IH2).
    cbn [fmap list_fmap exact_sum foldr].
    fold (exact_sum l). fold (exact_sum ((fun s => Binary32.div s S) <$> l)).
    destruct (div_close s S Hn HnS) as [Hnw [Hw1 Hw2]].
    + apply Qle_shift_div_l; [done|]. nra.
    + apply Qle_shift_div_r; [done|]. nra.
    + split; [by constructor|].
      assert (E : ((Binary32.to_Q s + exact_sum l) / Binary32.to_Q S
                   == Binary32.to_Q s / Binary32.to_Q S
                      + exact_sum l / Binary32.to_Q S)%Q) by (field; lra).
      rewrite E. split; lra.
Qed.

(** The normalised weights of [k] samples are normal numbers, and they sum
    to 1 up to [(4 k + 2) * 2^-23]. *)
Lemma kernel_weights_sum {LF : Libm Binary32.float} (sigma : Binary32.float)
    (k : Z) (kernel : list Binary32.float) :
  1 <= k <= 4096 -> Forall sample (kernel_samples sigma k) ->
  makeKernel sigma k = Some kernel ->
  Forall (fun w => normal w = true) kernel /\
  (1 - inject_Z (4 * k + 2) * eps <= exact_sum kernel)%Q /\
  (exact_sum kernel <= 1 + inject_Z (4 * k + 2) * eps)%Q.
Proof.
  intros Hk Hall. unfold makeKernel. destruct (Z.ltb_spec k 0); [lia|].
  intros [= <-].
  set (samples := kernel_samples sigma k) in *.
  assert (Hlen : Z.of_nat (length samples) = k).
  { unfold samples, kernel_samples. rewrite length_fmap, length_seqZ. lia. }
  assert (Hsum : summed k (exact_sum samples) (kernel_sum samples)).
  { pose proof (foldl_summed samples 0 0%Q (S754_zero false)) as Hs.
    rewrite Hlen in Hs. cbn [Z.add] in Hs.
    eapply summed_eq; [|apply Hs; try lia; try done].
    - ring.
    - left. done. }
  destruct Hsum as [(? & _) | (_ & HnS & HT0 & HT1 & HS1 & HS2)]; [lia|].
  destruct p2_64_small as [H64 _].
  assert (Hkq : (1 <= inject_Z k <= 4096)%Q).
  { change 1%Q with (inject_Z 1). change 4096%Q with (inject_Z 4096).
    split; apply inject_Z_le; lia. }
  set (S := kernel_sum samples) in *. set (T := exact_sum samples) in *.
  set (n := inject_Z k) in *. unfold eps in *.
  assert (HTn : (0 <= T * n <= 4096 * 4096)%Q) by nra.
  assert (HSlo : (T * (1023 # 1024) <= Binary32.to_Q S)%Q) by nra.
  assert (HShi : (Binary32.to_Q S <= 8192)%Q) by nra.
  destruct (divided_sum S samples HnS) as (Hnorm & Hd1 & Hd2); [lra|lra|done|].
  split; [exact Hnorm|]. fold T in Hd1, Hd2.
  set (total := exact_sum ((fun s => Binary32.div s S) <$> samples)) in *.
  change (exact_sum ((fun w : Binary32.float => (w / S)%flt) <$> samples))
    with total.
  assert (HSpos : (0 < Binary32.to_Q S)%Q) by lra.
  assert (Hrho : (T == (T / Binary32.to_Q S) * Binary32.to_Q S)%Q)
    by (field; lra).
  set (rho := (T / Binary32.to_Q S)%Q) in *. set (s := Binary32.to_Q S) in *.
  unfold eps in Hd1, Hd2.
  assert (Hrhopos : (0 < rho)%Q).
  { unfold rho. apply Qlt_shift_div_l; [done|]. lra. }
  rewrite inject_Z_plus, inject_Z_mult. fold n.
  change (inject_Z 4) with 4%Q. change (inject_Z 2) with 2%Q.
  set (a := (2 * (1 # 8388608) * n)%Q) in *.
  assert (Ha : (0 < a <= 1 # 1024)%Q) by (unfold a; lra).
  assert (Hrho1 : (1 <= rho * (1 + a))%Q).
  { assert (s <= rho * s * (1 + a))%Q by (rewrite <- Hrho; lra).
    assert (E : (rho * s * (1 + a) == s * (rho * (1 + a)))%Q) by ring.
    rewrite E in H0. set (u := (rho * (1 + a))%Q) in *. nra. }
  assert (Hrho2 : (rho * (1 - a) <= 1)%Q).
  { assert (rho * s * (1 - a) <= s)%Q by (rewrite <- Hrho; lra).
    assert (E : (rho * s * (1 - a) == s * (rho * (1 - a)))%Q) by ring.
    rewrite E in H0. set (u := (rho * (1 - a))%Q) in *. nra. }
  assert (Hrhoa : (0 <= rho * a)%Q) by nra.
  set (rhoa := (rho * a)%Q) in *.
  assert (Hrholo : (1 - a <= rho)%Q) by nra.
  assert (Hrhohi : (rho <= 1 + 2 * a)%Q) by nra.
  assert (Ea : (4 * n * (1 # 8388608) == 2 * a)%Q) by (unfold a; ring).
  split.
  - assert (E : (1 - (4 * n + 2) * (1 # 8388608)
                 == 1 - 2 * a - 2 * (1 # 8388608))%Q) by (unfold a; ring).
    rewrite E.
    change (exact_sum ((fun w : Binary32.float => Binary32.div w S) <$> samples))
      with total.
    nra.
  - assert (E : (1 + (4 * n + 2) * (1 # 8388608)
                 == 1 + 2 * a + 2 * (1 # 8388608))%Q) by (unfold a; ring).
    rewrite E.
    change (exact_sum ((fun w : Binary32.float => Binary32.div w S) <$> samples))
      with total.
    nra.
Qed.

(** ** The blur of arbitrary bytes *)

Lemma add_zero_r (x : Binary32.float) :
  normal x = true -> Binary32.add x (S754_zero false) = x.
Proof. by intros (m & e & -> & _)%normal_inv. Qed.

Lemma div_zero_l (y : Binary32.float) :
  normal y = true -> Binary32.div (S754_zero false) y = S754_zero false.
Proof. by intros (m & e & -> & _)%normal_inv. Qed.

Lemma p2_80_bounds :
  (0 < p2 (-82))%Q /\ (p2 (-82) * 2 == p2 (-81))%Q /\
  (p2 (-81) * 2 == p2 (-80))%Q /\ (p2 (-126) <= p2 (-82))%Q /\
  (p2 (-125) * 16384 <= p2 (-82))%Q /\ (p2 (-80) <= 1)%Q.
Proof.
  assert (E2 : (2 == p2 1)%Q) by reflexivity.
  split; [apply p2_pos|].
  split; [rewrite E2, <- p2_add; reflexivity|].
  split; [rewrite E2, <- p2_add; reflexivity|].
  split; [apply p2_le; lia|].
  split.
  - change 16384%Q with (inject_Z (2 ^ 14)). rewrite p2_inject by lia.
    rewrite <- p2_add. apply p2_le. lia.
  - assert (E1 : (1 == p2 0)%Q) by reflexivity. rewrite E1. apply p2_le. lia.
Qed.

(** One tap more on a channel of arbitrary bytes: the bound on the ratio
    of the two sums grows by [6 * eps]. *)
Lemma bound_step (W w S p S' W' a : Q) :
  (0 <= W)%Q -> (0 <= w)%Q -> (0 <= a)%Q -> (a <= 1 # 2)%Q ->
  (S <= 255 * W * (1 + a))%Q -> (p <= 255 * w * (1 + eps))%Q ->
  (S' <= (S + p) * (1 + eps))%Q -> ((W + w) * (1 - eps) <= W')%Q ->
  (S' <= 255 * W' * (1 + (a + 6 * eps)))%Q.
Proof.
  unfold eps. intros HW Hw Ha Ha1 HS Hp HS' HW'.
  set (e := (1 # 8388608)%Q) in *.
  assert (He : (e == 1 # 8388608)%Q) by reflexivity.
  assert (H1 : (S' <= (255 * W * (1 + a) + 255 * w * (1 + e)) * (1 + e))%Q)
    by nra.
  assert (H2 : (255 * ((W + w) * (1 - e)) * (1 + (a + 6 * e))
                <= 255 * W' * (1 + (a + 6 * e)))%Q) by nra.
  assert (HcW : (0 <= (1 - e) * (1 + (a + 6 * e)) - (1 + a) * (1 + e))%Q)
    by nra.
  assert (Hcw : (0 <= (1 - e) * (1 + (a + 6 * e)) - (1 + e) * (1 + e))%Q)
    by nra.
  set (cW := ((1 - e) * (1 + (a + 6 * e)) - (1 + a) * (1 + e))%Q) in *.
  set (cw := ((1 - e) * (1 + (a + 6 * e)) - (1 + e) * (1 + e))%Q) in *.
  assert (H3 : (0 <= W * cW)%Q) by (apply Qmult_le_0_compat; done).
  assert (H4 : (0 <= w * cw)%Q) by (apply Qmult_le_0_compat; done).
  assert (E : (255 * ((W + w) * (1 - e)) * (1 + (a + 6 * e))
               - (255 * W * (1 + a) + 255 * w * (1 + e)) * (1 + e)
               == 255 * (W * cW) + 255 * (w * cw))%Q) by (unfold cW, cw; ring).
  lra.
Qed.

Lemma drift_range (c : Z) :
  0 <= c <= 4096 -> (0 <= drift c)%Q /\ (drift c <= 3 # 1024)%Q.
Proof.
  intros Hc. unfold drift, eps.
  assert (0 <= inject_Z c <= 4096)%Q.
  { change 0%Q with (inject_Z 0). change 4096%Q with (inject_Z 4096).
    split; apply inject_Z_le; lia. }
  split; nra.
Qed.

Lemma mixed_step (b : byte) (c : Z) (S W w : Binary32.float) :
  0 <= c < 4096 -> mixed_channel c S W -> bounded_weight w ->
  mixed_channel (c + 1)
    (Binary32.add S (Binary32.mul (of_byte (F:=Binary32.float) b) w))
    (Binary32.add W w).
Proof.
  intros Hc Hch (Hw & Hwlo & Hwhi). pose proof (byte_to_Z_range b) as Hb.
  destruct p2_80_bounds as (H82 & E81 & E80 & H126 & H125 & H80).
  pose proof p2_126_large as Hbig.
  destruct (drift_range c ltac:(lia)) as [Hd0 Hd1].
  assert (Hcq : (0 <= inject_Z c <= 4096)%Q).
  { change 0%Q with (inject_Z 0). change 4096%Q with (inject_Z 4096).
    split; apply inject_Z_le; lia. }
  set (p := Binary32.mul (of_byte (F:=Binary32.float) b) w).
  (* the product of the byte value and the weight *)
  assert (Hprod : byte_to_Z b = 0 /\ p = S754_zero false \/
            normal p = true /\ (p2 (-81) <= Binary32.to_Q p)%Q /\
            (Binary32.to_Q p <= 255 * Binary32.to_Q w * (1 + eps))%Q).
  { destruct (Z.eq_dec (byte_to_Z b) 0) as [Hz|Hnz].
    - left. split; [done|]. unfold p.
      by rewrite (of_byte_zero b Hz), mul_zero_l.
    - right. destruct (of_byte_normal b Hnz) as [Hn Hval].
      assert (Hvq : (1 <= inject_Z (byte_to_Z b) <= 255)%Q).
      { change 1%Q with (inject_Z 1). change 255%Q with (inject_Z 255).
        split; apply inject_Z_le; lia. }
      destruct (mul_close (of_byte (F:=Binary32.float) b) w Hn Hw)
        as [Hn' [Hc1 Hc2]].
      + rewrite Hval. nra.
      + rewrite Hval. nra.
      + fold p in Hn', Hc1, Hc2. rewrite Hval in Hc1, Hc2.
        unfold eps in *. split; [done|]. split; nra. }
  (* the weight total *)
  assert (HW' : normal (Binary32.add W w) = true /\
                (p2 (-81) <= Binary32.to_Q (Binary32.add W w))%Q /\
                (Binary32.to_Q (Binary32.add W w) <= inject_Z (3 * (c + 1)))%Q /\
                (0 <= Binary32.to_Q W)%Q /\
                ((Binary32.to_Q W + Binary32.to_Q w) * (1 - eps)
                 <= Binary32.to_Q (Binary32.add W w))%Q).
  { rewrite inject_Z_mult, inject_Z_plus.
    change (inject_Z 3) with 3%Q. change (inject_Z 1) with 1%Q.
    destruct Hch as [(-> & _ & ->) | (Hc0 & HnW & HWlo & HWhi & _)].
    - rewrite (add_zero_l w Hw). split; [done|].
      change (inject_Z 0) with 0%Q. split; [lra|]. split; [lra|].
      change (Binary32.to_Q (S754_zero false)) with 0%Q.
      unfold eps. split; lra.
    - rewrite inject_Z_mult in HWhi. change (inject_Z 3) with 3%Q in HWhi.
      destruct (add_close W w HnW Hw) as [Hn' [Hc1 Hc2]]; [lra|].
      unfold eps in *. split; [done|]. split; [nra|]. split; [nra|].
      split; [lra|]. done. }
  destruct HW' as (HnW' & HW'lo & HW'hi & HW0 & HWrel).
  right. split; [lia|]. split; [done|]. split; [done|]. split; [done|].
  rewrite drift_succ.
  destruct Hch as [(-> & -> & ->) | (Hc0 & HnW & HWlo & HWhi & HS)].
  - (* the first tap *)
    destruct Hprod as [[_ ->] | (Hnp & Hplo & Hphi)]; [by left|].
    right. rewrite (add_zero_l p Hnp). split; [done|]. split; [lra|].
    apply (bound_step 0 (Binary32.to_Q w) 0 (Binary32.to_Q p)); try done;
      try lra.
    + unfold eps. lra.
  - destruct HS as [-> | (HnS & HSlo & HShi)].
    + destruct Hprod as [[_ ->] | (Hnp & Hplo & Hphi)]; [by left|].
      right. rewrite (add_zero_l p Hnp). split; [done|]. split; [lra|].
      apply (bound_step (Binary32.to_Q W) (Binary32.to_Q w) 0
               (Binary32.to_Q p)); try done; try lra.
      * nra.
      * unfold eps. lra.
    + right. destruct Hprod as [[_ ->] | (Hnp & Hplo & Hphi)].
      * rewrite (add_zero_r S HnS). split; [done|]. split; [done|].
        apply (bound_step (Binary32.to_Q W) (Binary32.to_Q w)
                 (Binary32.to_Q S) 0); try done; try lra.
        -- unfold eps. nra.
        -- unfold eps. lra.
      * rewrite inject_Z_mult in HWhi. change (inject_Z 3) with 3%Q in HWhi.
        assert (HSmax : (Binary32.to_Q S <= 4194304)%Q) by nra.
        assert (Hpmax : (Binary32.to_Q p <= 1024)%Q) by (unfold eps in Hphi; nra).
        destruct (add_close S p HnS Hnp) as [HnS' [Hc1 Hc2]]; [lra|].
        split; [done|]. unfold eps in Hc1, Hc2. split; [nra|].
        apply (bound_step (Binary32.to_Q W) (Binary32.to_Q w)
                 (Binary32.to_Q S) (Binary32.to_Q p)); try done; try lra.
Qed.

(** The quotient of the two running sums converts to a byte. *)
Lemma mixed_final (c : Z) (S W : Binary32.float) :
  1 <= c <= 4096 -> mixed_channel c S W ->
  exists b', to_uint8 (F:=Binary32.float) (Binary32.div S W) = Some b'.
Proof.
  intros Hc [(? & _)|(_ & HnW & HWlo & HWhi & HS)]; [lia|].
  destruct HS as [-> | (HnS & HSlo & HShi)].
  - rewrite (div_zero_l W HnW). by exists x00.
  - destruct p2_80_bounds as (H82 & E81 & E80 & H126 & H125 & H80).
    pose proof p2_126_large as Hbig.
    destruct (drift_range c ltac:(lia)) as [Hd0 Hd1].
    assert (Hcq : (1 <= inject_Z c <= 4096)%Q).
    { change 1%Q with (inject_Z 1). change 4096%Q with (inject_Z 4096).
      split; apply inject_Z_le; lia. }
    rewrite inject_Z_mult in HWhi. change (inject_Z 3) with 3%Q in HWhi.
    assert (HWpos : (0 < Binary32.to_Q W)%Q) by lra.
    set (d := drift c) in *.
    assert (Hq1 : (p2 (-125) <= Binary32.to_Q S / Binary32.to_Q W)%Q).
    { apply Qle_shift_div_l; [done|]. nra. }
    assert (Hq2 : (Binary32.to_Q S / Binary32.to_Q W <= 255 * (1 + d))%Q).
    { apply Qle_shift_div_r; [done|]. lra. }
    pose proof (p2_pos (-125)) as H125pos.
    destruct (div_close S W HnS HnW) as [Hnq [Hc1 Hc2]]; [done | nra |].
    set (q := Binary32.to_Q (Binary32.div S W)) in *.
    set (x := (Binary32.to_Q S / Binary32.to_Q W)%Q) in *.
    unfold eps in Hc1, Hc2.
    assert (Hq0 : (0 < q)%Q) by nra.
    assert (Hq256 : (q < 256)%Q) by nra.
    pose proof (Qfloor_le q) as Hf1. pose proof (Qlt_floor q) as Hf2.
    assert (Hz : 0 <= Qfloor q < 256).
    { split.
      - apply Z.lt_succ_r. rewrite Zlt_Qlt. unfold Z.succ.
        change (inject_Z 0) with 0%Q. lra.
      - rewrite Zlt_Qlt. change (inject_Z 256) with 256%Q. lra. }
    destruct (byte_of_Z_Some (Qfloor q) Hz) as (b' & Eb & _).
    exists b'. unfold to_uint8.
    change (ftrunc (Binary32.div S W)) with (Binary32.trunc (Binary32.div S W)).
    rewrite (trunc_floor _ (Qfloor q) Hnq); done.
Qed.

Section MixedTaps.
Variables (get : Z -> option (Color Binary32.float)) (limit pos k : Z).
Variable kernel : list Binary32.float.
Hypothesis Hpos : 0 <= pos < limit.
Hypothesis Hlimit : limit < 2 ^ 30.
Hypothesis Hk : 0 < k <= 4096.
Hypothesis Hlen : length kernel = Z.to_nat k.
Hypothesis Hker : Forall bounded_weight kernel.
Hypothesis Hget : forall src, 0 <= src < limit ->
                    exists r g b a, get src = Some (byte_pixel r g b a).

(** The four channels of the running sums over a source of bytes. *)
Lemma blur_taps_mixed :
  exists sum W c,
    blur_taps get limit pos k kernel = Some (sum, W) /\ 1 <= c <= 4096 /\
    mixed_channel c (v4x sum) W /\ mixed_channel c (v4y sum) W /\
    mixed_channel c (v4z sum) W /\ mixed_channel c (v4w sum) W.
Proof.
  pose (P := fun (i : Z) (acc : Vector4f Binary32.float * Binary32.float) =>
    mixed_channel (taps_inside limit pos k i) (v4x acc.1) acc.2 /\
    mixed_channel (taps_inside limit pos k i) (v4y acc.1) acc.2 /\
    mixed_channel (taps_inside limit pos k i) (v4z acc.1) acc.2 /\
    mixed_channel (taps_inside limit pos k i) (v4w acc.1) acc.2).
  assert (Hhalf : 0 <= k / 2 < k).
  { split; [apply Z.div_pos; lia | apply Z.div_lt_upper_bound; lia]. }
  unfold blur_taps.
  edestruct (for_loop_indexed P) as ([sum W] & Hloop & HP).
  3: { exists sum, W, (taps_inside limit pos k (0 + Z.of_nat (Z.to_nat k))).
       split; [exact Hloop|]. split; [|exact HP].
       unfold taps_inside. lia. }
  - assert (E0 : taps_inside limit pos k 0 = 0) by (unfold taps_inside; lia).
    unfold P. rewrite E0. unfold mixed_channel. simpl.
    repeat split; left; done.
  - intros i [s W0] Hi (Hr & Hg & Hb & Ha). cbn [fst snd] in *.
    rewrite tap_position_small by lia.
    rewrite (s32_small limit) by lia.
    destruct ((0 <=? pos + i - k / 2) && (pos + i - k / 2 <? limit)) eqn:Hin.
    + apply andb_true_iff in Hin as [H1 H2].
      apply Z.leb_le in H1. apply Z.ltb_lt in H2.
      destruct (Hget (pos + i - k / 2)) as (r & g & b & a & ->); [lia|].
      cbn [mbind option_bind].
      destruct (lookup_lt_is_Some_2 kernel (Z.to_nat i) ltac:(lia))
        as [w Hw].
      rewrite Hw. cbn [mbind option_bind].
      assert (Hweight : bounded_weight w).
      { rewrite Forall_lookup in Hker. by apply (Hker (Z.to_nat i)). }
      eexists. split; [reflexivity|]. unfold P. cbn [fst snd].
      assert (Ec : taps_inside limit pos k (i + 1)
                   = taps_inside limit pos k i + 1)
        by (unfold taps_inside; lia).
      assert (Hc : 0 <= taps_inside limit pos k i < 4096)
        by (unfold taps_inside; lia).
      rewrite Ec.
      split; [|split; [|split]]; apply mixed_step; done.
    + exists (s, W0). split; [done|]. unfold P. cbn [fst snd].
      assert (Ec : taps_inside limit pos k (i + 1) = taps_inside limit pos k i).
      { apply andb_false_iff in Hin as [Hin|Hin].
        - apply Z.leb_gt in Hin. unfold taps_inside. lia.
        - apply Z.ltb_ge in Hin. unfold taps_inside. lia. }
      rewrite Ec. done.
Qed.

(** Every pixel of a pass over a source of bytes has a result. *)
Lemma blur_pixel_defined :
  exists r' g' b' a',
    blur_pixel get limit pos k kernel = Some (byte_pixel r' g' b' a').
Proof.
  destruct blur_taps_mixed as (sum & W & c & Htaps & Hc & Hr & Hg & Hb & Ha).
  destruct (mixed_final c _ W Hc Hr) as (r' & Er).
  destruct (mixed_final c _ W Hc Hg) as (g' & Eg).
  destruct (mixed_final c _ W Hc Hb) as (b' & Eb).
  destruct (mixed_final c _ W Hc Ha) as (a' & Ea).
  exists r', g', b', a'.
  unfold blur_pixel. rewrite Htaps. cbn [mbind option_bind fst snd].
  cbn [v4_div v4x v4y v4z v4w].
  change (fdiv (v4x sum) W) with (Binary32.div (v4x sum) W).
  change (fdiv (v4y sum) W) with (Binary32.div (v4y sum) W).
  change (fdiv (v4z sum) W) with (Binary32.div (v4z sum) W).
  change (fdiv (v4w sum) W) with (Binary32.div (v4w sum) W).
  rewrite Er, Eg, Eb, Ea. done.
Qed.
End MixedTaps.

(** A pixel of an RGBA buffer reads as four bytes. *)
Lemma getPixel_bytes (img : Image) (x y : Z) :
  wf img -> format_ img = RGBA -> 0 <= x < width_ img ->
  0 <= y < height_ img ->
  exists r g b a, getPixel img x y = Some (byte_pixel r g b a).
Proof.
  intros Hwf Hf Hx Hy. unfold getPixel. rewrite in_bounds_true by lia.
  destruct (getPixelIndex_wf img x y Hwf) as (_ & Hi0 & Hlen); [lia..|].
  unfold getPixelUnsafe. set (i := getPixelIndex img x y) in *.
  unfold getBytesPerPixel in Hlen. rewrite Hf in *. simpl in Hlen.
  repeat match goal with
         | |- context [load ?d ?j] =>
             let v := fresh "v" in
             destruct (load_is_Some d j) as [v ->]; [lia | lia |];
             cbn [mbind option_bind]
         end.
  by eexists _, _, _, _.
Qed.

(** A sample is at most the sum of the samples. *)
Lemma exact_sum_ge (l : list Binary32.float) (s : Binary32.float) :
  Forall sample l -> s ∈ l ->
  (0 <= exact_sum l)%Q /\ (Binary32.to_Q s <= exact_sum l)%Q.
Proof.
  destruct p2_64_small as [H64 _].
  induction 1 as [|s' l (Hn & Hlo & Hhi) Hall IH]; intros Hin.
  - by apply elem_of_nil in Hin.
  - cbn [exact_sum foldr]. fold (exact_sum l).
    assert (H0 : (0 <= exact_sum l)%Q).
    { clear IH Hin. induction Hall as [|s'' l' (_ & Hlo' & _) _ IH'].
      - simpl. lra.
      - cbn [exact_sum foldr]. fold (exact_sum l'). lra. }
    apply elem_of_cons in Hin as [->|Hin].
    + split; lra.
    + destruct (IH Hin) as [_ IH2]. split; lra.
Qed.

(** The weights made of Gaussian samples are bounded. *)
Lemma kernel_weights_bounded {LF : Libm Binary32.float}
    (sigma : Binary32.float) (k : Z) (kernel : list Binary32.float) :
  1 <= k <= 4096 -> Forall sample (kernel_samples sigma k) ->
  makeKernel sigma k = Some kernel -> Forall bounded_weight kernel.
Proof.
  intros Hk Hall. unfold makeKernel. destruct (Z.ltb_spec k 0); [lia|].
  intros [= <-].
  set (samples := kernel_samples sigma k) in *.
  assert (Hlen : Z.of_nat (length samples) = k).
  { unfold samples, kernel_samples. rewrite length_fmap, length_seqZ. lia. }
  assert (Hsum : summed k (exact_sum samples) (kernel_sum samples)).
  { pose proof (foldl_summed samples 0 0%Q (S754_zero false)) as Hs.
    rewrite Hlen in Hs. cbn [Z.add] in Hs.
    eapply summed_eq; [|apply Hs; try lia; try done].
    - ring.
    - left. done. }
  destruct Hsum as [(? & _) | (_ & HnS & HT0 & HT1 & HS1 & HS2)]; [lia|].
  destruct p2_64_small as [H64 H64'].
  pose proof p2_64_large as H64''. pose proof p2_126_large as Hbig.
  pose proof (p2_pos (-125)) as H125.
  assert (Hkq : (1 <= inject_Z k <= 4096)%Q).
  { change 1%Q with (inject_Z 1). change 4096%Q with (inject_Z 4096).
    split; apply inject_Z_le; lia. }
  set (S := kernel_sum samples) in *. set (T := exact_sum samples) in *.
  set (n := inject_Z k) in *. unfold eps in *.
  assert (HTn : (0 <= T * n <= 4096 * 4096)%Q) by nra.
  assert (HSlo : (T * (1023 # 1024) <= Binary32.to_Q S)%Q) by nra.
  assert (HShi : (Binary32.to_Q S <= 8192)%Q) by nra.
  assert (HSpos : (0 < Binary32.to_Q S)%Q) by lra.
  apply Forall_fmap, Forall_forall. intros s Hs. cbn [compose].
  pose proof (proj1 (Forall_forall _ _) Hall s Hs) as (Hn & Hlo & Hhi).
  destruct (exact_sum_ge samples s Hall Hs) as [_ HsT]. fold T in HsT.
  assert (E80 : (p2 (-80) * 65536 == p2 (-64))%Q).
  { change 65536%Q with (inject_Z (2 ^ 16)). rewrite p2_inject by lia.
    rewrite <- p2_add. reflexivity. }
  assert (Hq1 : (p2 (-80) * 8 <= Binary32.to_Q s / Binary32.to_Q S)%Q).
  { apply Qle_shift_div_l; [done|]. nra. }
  assert (Hq2 : (Binary32.to_Q s / Binary32.to_Q S <= 1025 # 1023)%Q).
  { apply Qle_shift_div_r; [done|]. nra. }
  change ((s / S)%flt) with (Binary32.div s S).
  destruct (div_close s S Hn HnS) as [Hnw [Hw1 Hw2]].
  - assert (p2 (-125) * 16384 <= p2 (-80) * 65536)%Q by (rewrite E80; done).
    pose proof (p2_pos (-80)). lra.
  - lra.
  - pose proof (p2_pos (-80)) as H80.
    split; [done|]. unfold eps in Hw1, Hw2.
    set (x := (Binary32.to_Q s / Binary32.to_Q S)%Q) in *. split; nra.
Qed.

(** With bounded weights the blur of an RGBA buffer returns. *)
Lemma applyGaussianBlur_total {LF : Libm Binary32.float} (img : Image)
    (sigma : Binary32.float) (k : Z) (kernel : list Binary32.float) :
  wf img -> format_ img = RGBA ->
  kernelSize sigma = Some k -> makeKernel sigma k = Some kernel ->
  1 <= k <= 4096 -> Forall bounded_weight kernel ->
  exists out, applyGaussianBlur img sigma = Some out.
Proof.
  intros Hwf Hfmt Hk Hkernel Hk1 Hweights.
  assert (Hlen : length kernel = Z.to_nat k).
  { unfold makeKernel in Hkernel. destruct (Z.ltb_spec k 0); [done|].
    injection Hkernel as <-.
    unfold kernel_samples. by rewrite !length_fmap, length_seqZ. }
  unfold applyGaussianBlur. rewrite Hk. cbn [mbind option_bind].
  rewrite Hkernel. cbn [mbind option_bind].
  pose proof Hwf as (Hw0 & Hh0 & Hsz & Hdata).
  set (w := width_ img) in *. set (h := height_ img) in *.
  set (temp0 := Image_new w h (format_ img)).
  assert (Hwf0 : wf temp0) by (by apply wf_Image_new).
  unfold getBytesPerPixel in Hsz. rewrite Hfmt in Hsz. simpl in Hsz.
  assert (Hw : 0 < h -> w < 2 ^ 30) by nia.
  assert (Hh : 0 < w -> h < 2 ^ 30) by nia.
  destruct (fill_pixels_bytes
              (fun x y => blur_pixel (fun srcX => getPixel img srcX y)
                            w x k kernel) temp0 Hwf0)
    as (temp & Ht & Hst & Hpt).
  { unfold temp0. simpl. done. }
  { intros x y Hx Hy. simpl in Hx, Hy.
    apply blur_pixel_defined; try done; try lia.
    intros src Hsrc. by apply getPixel_bytes. }
  change (width_ temp0) with w in Ht, Hpt.
  change (height_ temp0) with h in Ht, Hpt.
  rewrite Ht. cbn [mbind option_bind].
  destruct (fill_pixels_bytes
              (fun x y => blur_pixel (fun srcY => getPixel temp x srcY)
                            h y k kernel) img Hwf Hfmt)
    as (out & Hi & _).
  { intros x y Hx Hy. fold w in Hx. fold h in Hy.
    apply blur_pixel_defined; try done; try lia.
    intros src Hsrc. rewrite Hpt by done.
    apply blur_pixel_defined; try done; try lia.
    intros src' Hsrc'. by apply getPixel_bytes. }
  fold w h in Hi. by exists out.
Qed.

(** The offsets of the taps are consecutive, from [-(k / 2)]. *)
Lemma tap_offsets_seqZ (k : Z) : 0 <= k -> tap_offsets k = seqZ (- (k / 2)) k.
Proof.
  intros Hk. unfold tap_offsets.
  rewrite <- (Z.add_0_r (- (k / 2))), <- fmap_add_seqZ.
  apply list_fmap_ext. intros _ i _. unfold tap_offset.
  rewrite Z.quot_div_nonneg by lia. lia.
Qed.

(** C4, the claim as stated, fails: for [sigma = 1] the value
    [ceil(sigma * 6) = 6] is the number of weights, not the radius, and the
    blur does not read the source three pixels to the right.  In a row of
    13 black pixels, lighting the pixel at column 9 leaves the blurred
    pixel at column 6 black, although 9 lies within 6 of 6; lighting the
    pixel at column 3 changes it. *)
Lemma kernel_radius_counterexample :
  kernelSize (of_Z 1 : Binary32.float) = Some 6 /\
  length <$> gaussianKernel (LF:=RefLibm.libm) (of_Z 1) = Some 6%nat /\
  (out ← applyGaussianBlur (LF:=RefLibm.libm) black_row (of_Z 1);
   getPixel out 6 0)
  = Some (mkColor (of_Z 0) (of_Z 0) (of_Z 0) (of_Z 255)
          : Color Binary32.float) /\
  (img ← lit_row 9; out ← applyGaussianBlur (LF:=RefLibm.libm) img (of_Z 1);
   getPixel out 6 0)
  = Some (mkColor (of_Z 0) (of_Z 0) (of_Z 0) (of_Z 255)
          : Color Binary32.float) /\
  (img ← lit_row 3; out ← applyGaussianBlur (LF:=RefLibm.libm) img (of_Z 1);
   getPixel out 6 0)
  = Some (mkColor (of_Z 4) (of_Z 4) (of_Z 4) (of_Z 255)
          : Color Binary32.float).
Proof.
  split; [vm_compute; reflexivity|].
  split; [vm_compute; reflexivity|].
  split; [vm_compute; reflexivity|].
  split; vm_compute; reflexivity.
Qed.

(** C4 (amended).  [k = ceil(sigma * 6)] is the number of weights of the
    kernel, not its radius.  For every [sigma] for which [k] is defined and
    not negative, and every well-formed RGBA buffer: the kernel has [k]
    weights, weight [i] being the sample [exp(-(x * x) / (2 * sigma * sigma))]
    at [x = i - (k - 1) / 2.0f] divided by the sum of the samples, all in
    [float]; the taps sit at the [k] consecutive offsets from [-(k / 2)] to
    [k - 1 - k / 2] (integer division), and the tap loop is the weighted
    sum over these offsets of the source pixels that lie inside the buffer;
    a blur that returns has computed every pixel of the intermediate buffer
    by that loop along its row, and every pixel of the result along the
    column of the intermediate buffer, each sum divided by the sum of the
    weights used.  For [1 <= k <= 4096] and samples that are normal numbers
    between [2^-64] and 1, the blur does return, and the weights are normal
    numbers that sum to 1 up to [(4 k + 2) * 2^-23]. *)
Theorem gaussian_kernel_layout (LF : Libm Binary32.float) (img : Image)
    (sigma : Binary32.float) (k : Z) :
  wf img -> format_ img = RGBA ->
  kernelSize sigma = Some k -> 0 <= k ->
  exists kernel,
    gaussianKernel sigma = Some kernel /\
    length kernel = Z.to_nat k /\
    (forall i, 0 <= i < k ->
       kernel !! Z.to_nat i
       = Some (kernel_sample sigma k i
               / kernel_sum (kernel_samples sigma k))%flt) /\
    tap_offsets k = seqZ (- (k / 2)) k /\
    (forall get limit pos, 0 <= pos < 2 ^ 30 -> 0 <= limit < 2 ^ 31 ->
       blur_taps get limit pos k kernel
       = weighted_taps get limit pos (zip (tap_offsets k) kernel)) /\
    (forall out, applyGaussianBlur img sigma = Some out ->
       exists temp,
         same_shape img temp /\ same_shape img out /\
         forall x y, 0 <= x < width_ img -> 0 <= y < height_ img ->
           getPixel temp x y
           = blur_pixel (fun srcX => getPixel img srcX y)
               (width_ img) x k kernel /\
           getPixel out x y
           = blur_pixel (fun srcY => getPixel temp x srcY)
               (height_ img) y k kernel /\
           is_Some (getPixel (F:=Binary32.float) out x y)) /\
    (1 <= k <= 4096 -> Forall sample (kernel_samples sigma k) ->
       (exists out, applyGaussianBlur img sigma = Some out) /\
       Forall (fun w => normal w = true) kernel /\
       (1 - inject_Z (4 * k + 2) * eps <= exact_sum kernel)%Q /\
       (exact_sum kernel <= 1 + inject_Z (4 * k + 2) * eps)%Q).
Proof.
  intros Hwf Hfmt Hk Hk0.
  pose proof (to_int_range _ _ Hk) as Hkmax. unfold INT_MAX in Hkmax.
  destruct (makeKernel_spec sigma k Hk0) as (kernel & Hm & Hl & Hw).
  exists kernel. unfold gaussianKernel. rewrite Hk. cbn [mbind option_bind].
  split; [exact Hm|]. split; [exact Hl|]. split; [exact Hw|].
  split; [by apply tap_offsets_seqZ|].
  split; [|split].
  - intros get limit pos Hpos Hlimit. apply blur_taps_offsets; [done|done|lia|done].
  - intros out Hout. by apply (applyGaussianBlur_passes img out sigma k kernel).
  - intros Hk1 Hs. split; [|by apply (kernel_weights_sum sigma k kernel)].
    apply (applyGaussianBlur_total img sigma k kernel); try done.
    by apply (kernel_weights_bounded sigma k).
Qed.

Lemma gaussian_kernel_layout_witness :
  exists kernel,
    gaussianKernel (LF:=RefLibm.libm) (of_Z 1) = Some kernel /\
    length kernel = 6%nat /\
    (forall i, 0 <= i < 6 ->
       kernel !! Z.to_nat i
       = Some (kernel_sample (of_Z 1) 6 i
               / kernel_sum (kernel_samples (of_Z 1) 6))%flt) /\
    tap_offsets 6 = [-3; -2; -1; 0; 1; 2] /\
    (forall get limit pos, 0 <= pos < 2 ^ 30 -> 0 <= limit < 2 ^ 31 ->
       blur_taps get limit pos 6 kernel
       = weighted_taps get limit pos (zip (tap_offsets 6) kernel)) /\
    (forall out,
       applyGaussianBlur (LF:=RefLibm.libm) gray_square (of_Z 1) = Some out ->
       exists temp,
         same_shape gray_square temp /\ same_shape gray_square out /\
         forall x y, 0 <= x < 10 -> 0 <= y < 10 ->
           getPixel temp x y
           = blur_pixel (fun srcX => getPixel gray_square srcX y)
               10 x 6 kernel /\
           getPixel out x y
           = blur_pixel (fun srcY => getPixel temp x srcY) 10 y 6 kernel /\
           is_Some (getPixel (F:=Binary32.float) out x y)) /\
    (exists out,
       applyGaussianBlur (LF:=RefLibm.libm) gray_square (of_Z 1) = Some out) /\
    Forall (fun w => normal w = true) kernel /\
    (1 - inject_Z 26 * eps <= exact_sum kernel)%Q /\
    (exact_sum kernel <= 1 + inject_Z 26 * eps)%Q.
Proof.
  destruct (gaussian_kernel_layout RefLibm.libm gray_square (of_Z 1) 6)
    as (kernel & H1 & H2 & H3 & H4 & H5 & H6 & H7).
  - unfold wf; simpl. repeat split; lia.
  - reflexivity.
  - vm_compute; reflexivity.
  - lia.
  - exists kernel.
    split; [exact H1|]. split; [exact H2|]. split; [exact H3|].
    split; [exact H4|]. split; [exact H5|]. split; [exact H6|].
    apply H7; [lia|].
    let l := eval vm_compute in
      (kernel_samples (LF:=RefLibm.libm) (of_Z 1 : Binary32.float) 6) in
    change (kernel_samples (LF:=RefLibm.libm) (of_Z 1 : Binary32.float) 6)
      with l.
    repeat constructor; vm_compute; discriminate.
Defined.

(** ** Blur of a uniform buffer *)



Lemma gray_square_uniform (x y : Z) :
  0 <= x < 10 -> 0 <= y < 10 ->
  getPixel gray_square x y = Some (byte_pixel "200" "200" "200" "255").
Proof.
  intros Hx Hy.
  assert (Ex : x = 0 \/ x = 1 \/ x = 2 \/ x = 3 \/ x = 4 \/
               x = 5 \/ x = 6 \/ x = 7 \/ x = 8 \/ x = 9) by lia.
  assert (Ey : y = 0 \/ y = 1 \/ y = 2 \/ y = 3 \/ y = 4 \/
               y = 5 \/ y = 6 \/ y = 7 \/ y = 8 \/ y = 9) by lia.
  clear Hx Hy.
  repeat (destruct Ex as [-> | Ex]); try subst x;
    repeat (destruct Ey as [-> | Ey]); try subst y;
    vm_compute; reflexivity.
Qed.


(** * Further properties of the code *)

(** ** Lookup by name *)

(** X1.  In every atlas reachable from the constructor by [addTexture],
    [optimize] and [clear], no two regions share a name, [getRegion] returns
    a region exactly when it is the region of [regions_] carrying that name,
    and it returns null for a name no region carries. *)
Theorem getRegion_finds_named_region (atlas : TextureAtlas) :
  reachable atlas ->
  NoDup (name <$> regions_ atlas) /\
  (forall nm r, getRegion atlas nm = Some r <->
                r ∈ regions_ atlas /\ name r = nm) /\
  (forall nm, nm ∉ (name <$> regions_ atlas) -> getRegion atlas nm = None).
Proof.
  intros Hr. pose proof (reachable_index_consistent atlas Hr) as Hi.
  assert (Hfind : forall nm r, getRegion atlas nm = Some r <->
                               r ∈ regions_ atlas /\ name r = nm).
  { intros nm r. unfold getRegion. split.
    - destruct (regionMap_ atlas !! nm) as [i|] eqn:E; [|done]. simpl.
      intros Hl. apply Hi in E as (r' & Hl' & Hn).
      assert (r' = r) as -> by congruence.
      split; [by eapply list_elem_of_lookup_2|done].
    - intros [(i & Hl)%list_elem_of_lookup_1 Hn].
      assert (regionMap_ atlas !! nm = Some i) as -> by (apply Hi; eauto).
      done. }
  split; [by apply index_consistent_NoDup|]. split; [done|].
  intros nm Hnot. destruct (getRegion atlas nm) as [r|] eqn:E; [|done].
  apply Hfind in E as [Hin <-]. exfalso. apply Hnot.
  by apply list_elem_of_fmap_2.
Qed.

Lemma getRegion_finds_named_region_witness :
  NoDup (name <$> regions_ white_atlas) /\
  (forall nm r, getRegion white_atlas nm = Some r <->
                r ∈ regions_ white_atlas /\ name r = nm) /\
  (forall nm, nm ∉ (name <$> regions_ white_atlas) ->
              getRegion white_atlas nm = None).
Proof.
  apply getRegion_finds_named_region.
  apply (reachable_addTexture (TextureAtlas_new 1 1) "a" white_texel true).
  - apply reachable_new; lia.
  - vm_compute. reflexivity.
Defined.

(** What a successful [addTexture] returns. *)
Lemma addTexture_true_inv {F : Type} {AF : Arith F} atlas nm texture atlas' :
  addTexture (F:=F) atlas nm texture = Some (true, atlas') ->
  regionMap_ atlas !! nm = None /\
  exists cur img,
    cur = scan (width_ texture) (width_ (atlasImage_ atlas)) (regions_ atlas) /\
    u32 (currentY cur + height_ texture) <= height_ (atlasImage_ atlas) /\
    copy_block (F:=F) texture 0 0 (width_ texture) (height_ texture)
      (atlasImage_ atlas) (currentX cur) (currentY cur) = Some img /\
    atlas' = mkTextureAtlas img
               (regions_ atlas ++
                  [mkRegion (mkRect (currentX cur) (currentY cur)
                                    (width_ texture) (height_ texture)) nm])
               (<[nm := length (regions_ atlas)]> (regionMap_ atlas)).
Proof.
  unfold addTexture. destruct (decide _) as [Hd|Hd]; [done|].
  apply eq_None_not_Some in Hd.
  destruct (_ >? _) eqn:Hh; [done|].
  destruct (copy_block _ _ _ _ _ _ _ _) as [img|] eqn:Hc; [|done].
  simpl. intros [= <-]. split; [done|].
  eexists _, img. split; [reflexivity|]. split; [lia|]. split; [done|].
  f_equal. f_equal. rewrite length_app. simpl. lia.
Qed.

(** What a refused [addTexture] returns. *)
Lemma addTexture_false_inv {F : Type} {AF : Arith F} atlas nm texture atlas' :
  addTexture (F:=F) atlas nm texture = Some (false, atlas') -> atlas' = atlas.
Proof.
  unfold addTexture. destruct (decide _); [by intros [= <-]|].
  destruct (_ >? _); [by intros [= <-]|].
  destruct (copy_block _ _ _ _ _ _ _ _); simpl; [|done]. by intros [= <-].
Qed.

(** ** Insertion and lookup *)

(** X2.  After [addTexture(name, texture)] has returned true on a reachable
    atlas, [getRegion(name)] is the new region, of the width and height of
    the texture; every other name resolves as before; there is one region
    more; and a second [addTexture] under the same name is refused and leaves
    the atlas as it is. *)
Theorem addTexture_then_getRegion (atlas atlas' : TextureAtlas) (nm : string)
    (texture : Image) :
  reachable atlas ->
  addTexture (F:=Binary32.float) atlas nm texture = Some (true, atlas') ->
  (exists x y,
     getRegion atlas' nm
     = Some (mkRegion (mkRect x y (width_ texture) (height_ texture)) nm)) /\
  (forall nm', nm' <> nm -> getRegion atlas' nm' = getRegion atlas nm') /\
  length (regions_ atlas') = Datatypes.S (length (regions_ atlas)) /\
  (forall t, addTexture (F:=Binary32.float) atlas' nm t = Some (false, atlas')).
Proof.
  intros Hr Hadd.
  pose proof (reachable_index_consistent atlas Hr) as Hi.
  apply addTexture_true_inv in Hadd as (Hnone & cur & img & -> & _ & _ & ->).
  split; [|split; [|split]].
  - eexists _, _. unfold getRegion. simpl. rewrite lookup_insert_eq. simpl.
    by rewrite list_lookup_middle.
  - intros nm' Hne. unfold getRegion. simpl.
    rewrite lookup_insert_ne by done.
    destruct (regionMap_ atlas !! nm') as [i|] eqn:E; [|done]. simpl.
    apply Hi in E as (r & Hl & _).
    rewrite lookup_app_l; [done|]. by eapply lookup_lt_Some.
  - simpl. rewrite length_app. simpl. lia.
  - intros t. unfold addTexture. simpl. rewrite lookup_insert_eq.
    destruct (decide _) as [|Hn]; [done|]. exfalso. apply Hn. by eexists.
Qed.

Lemma addTexture_then_getRegion_witness :
  (exists x y,
     getRegion white_atlas "a"
     = Some (mkRegion (mkRect x y (width_ white_texel) (height_ white_texel))
                      "a")) /\
  (forall nm', nm' <> "a"%string ->
     getRegion white_atlas nm' = getRegion (TextureAtlas_new 1 1) nm') /\
  length (regions_ white_atlas)
  = Datatypes.S (length (regions_ (TextureAtlas_new 1 1))) /\
  (forall t, addTexture (F:=Binary32.float) white_atlas "a" t
             = Some (false, white_atlas)).
Proof.
  apply (addTexture_then_getRegion (TextureAtlas_new 1 1) white_atlas "a"
           white_texel).
  - apply reachable_new; lia.
  - vm_compute. reflexivity.
Defined.

(** X3.  On a well-formed atlas whose index agrees with its regions,
    [addTexture] returns for every name and every well-formed texture.  It
    returns false exactly when [getRegion] resolves the name already or the
    texture, placed at the packing cursor, would pass the lower edge of the
    atlas; it then leaves the atlas as it is. *)
Theorem addTexture_refusal (atlas : TextureAtlas) (nm : string)
    (texture : Image) :
  wf (atlasImage_ atlas) -> format_ (atlasImage_ atlas) <> Grayscale ->
  wf texture -> index_consistent atlas ->
  exists ok atlas',
    addTexture (F:=Binary32.float) atlas nm texture = Some (ok, atlas') /\
    (ok = false <->
     is_Some (getRegion atlas nm) \/
     height_ (atlasImage_ atlas)
     < u32 (currentY (scan (width_ texture) (width_ (atlasImage_ atlas))
                           (regions_ atlas)) + height_ texture)) /\
    (ok = false -> atlas' = atlas).
Proof.
  intros Hwf Hf Ht Hidx.
  destruct (regionMap_ atlas !! nm) as [i|] eqn:Hnm.
  - destruct (proj1 (Hidx nm i) Hnm) as (r & Hr & _).
    exists false, atlas. split; [|split; [|done]].
    + unfold addTexture. rewrite Hnm.
      destruct (decide _) as [|Hn]; [done|]. exfalso. apply Hn. by eexists.
    + split; [|done]. intros _. left. exists r. unfold getRegion.
      by rewrite Hnm.
  - assert (Hg : getRegion atlas nm = None).
    { unfold getRegion. by rewrite Hnm. }
    set (cur := scan (width_ texture) (width_ (atlasImage_ atlas))
                     (regions_ atlas)).
    destruct (Z.le_gt_cases (u32 (currentY cur + height_ texture))
                (height_ (atlasImage_ atlas))) as [Hfit|Hover].
    + destruct (addTexture_fresh atlas nm texture Hwf Hf Ht Hnm Hfit)
        as (img' & _ & Hadd).
      eexists true, _. split; [exact Hadd|]. split; [|done]. split; [done|].
      rewrite Hg. intros [[? ?]|?]; [done|]. fold cur in H. lia.
    + exists false, atlas. split; [|split; [|done]].
      * unfold addTexture. rewrite Hnm.
        destruct (decide _) as [[? ?]|_]; [done|]. fold cur.
        destruct (Z.gtb_spec (u32 (currentY cur + height_ texture))
                    (height_ (atlasImage_ atlas))); [done|lia].
      * split; [|done]. intros _. right. lia.
Qed.

Lemma addTexture_refusal_witness :
  addTexture (F:=Binary32.float) white_atlas "b" (Image_new 1 2 RGBA)
  = Some (false, white_atlas) /\
  exists ok atlas',
    addTexture (F:=Binary32.float) white_atlas "b" (Image_new 1 2 RGBA)
    = Some (ok, atlas') /\
    (ok = false <->
     is_Some (getRegion white_atlas "b") \/
     1 < u32 (currentY (scan 1 1 [mkRegion (mkRect 0 0 1 1) "a"]) + 2)) /\
    (ok = false -> atlas' = white_atlas).
Proof.
  split; [vm_compute; reflexivity|].
  apply (addTexture_refusal white_atlas "b" (Image_new 1 2 RGBA)).
  - unfold wf; simpl. repeat split; lia.
  - discriminate.
  - apply wf_Image_new; simpl; lia.
  - apply reachable_index_consistent.
    apply (reachable_addTexture (TextureAtlas_new 1 1) "a" white_texel true).
    + apply reachable_new; lia.
    + vm_compute. reflexivity.
Defined.

(** ** The first texture of an empty atlas *)

(** X4.  On an atlas without regions - a new one, or any atlas after
    [clear()] - every lookup returns null, and [addTexture] accepts every
    texture that is not taller than the atlas and places it at the origin,
    whatever its width. *)
Theorem first_texture_at_origin (atlas : TextureAtlas) (nm : string)
    (texture : Image) :
  wf (atlasImage_ atlas) -> format_ (atlasImage_ atlas) <> Grayscale ->
  wf texture -> height_ texture <= height_ (atlasImage_ atlas) ->
  height_ texture < 2 ^ 32 ->
  (forall nm', getRegion (clear atlas) nm' = None) /\
  (exists atlas',
     addTexture (F:=Binary32.float) (clear atlas) nm texture
     = Some (true, atlas') /\
     regions_ atlas'
     = [mkRegion (mkRect 0 0 (width_ texture) (height_ texture)) nm] /\
     getRegion atlas' nm
     = Some (mkRegion (mkRect 0 0 (width_ texture) (height_ texture)) nm)) /\
  (regions_ atlas = [] -> regionMap_ atlas = ∅ -> clear atlas = atlas).
Proof.
  intros Hwf Hfmt Hwt Hh Hh32.
  assert (Hc : clear atlas = mkTextureAtlas (atlasImage_ atlas) [] ∅).
  { unfold clear. by rewrite create_same_size. }
  split; [|split].
  - intros nm'. rewrite Hc. unfold getRegion. simpl. by rewrite lookup_empty.
  - rewrite Hc.
    destruct (addTexture_placed
                (mkTextureAtlas (atlasImage_ atlas) [] ∅) nm texture 0 0 0)
      as (atlas' & Hadd & Hregs & Hmap & _); simpl; try done.
    { rewrite u32_small; [done|]. destruct Hwt as (_ & ? & _). lia. }
    exists atlas'. split; [done|]. split; [done|].
    unfold getRegion. rewrite Hmap, Hregs. simpl.
    by rewrite lookup_insert_eq.
  - intros Hregs Hmap. rewrite Hc. destruct atlas. simpl in *. by subst.
Qed.

Lemma first_texture_at_origin_witness :
  (forall nm', getRegion (clear white_atlas) nm' = None) /\
  (exists atlas',
     addTexture (F:=Binary32.float) (clear white_atlas) "b" (Image_new 5 1 RGB)
     = Some (true, atlas') /\
     regions_ atlas' = [mkRegion (mkRect 0 0 5 1) "b"] /\
     getRegion atlas' "b" = Some (mkRegion (mkRect 0 0 5 1) "b")) /\
  (regions_ white_atlas = [] -> regionMap_ white_atlas = ∅ ->
   clear white_atlas = white_atlas).
Proof.
  apply (first_texture_at_origin white_atlas "b" (Image_new 5 1 RGB)).
  - unfold wf. simpl. repeat split; try lia; reflexivity.
  - done.
  - apply wf_Image_new; simpl; lia.
  - simpl. lia.
  - simpl. lia.
Defined.

(** ** Block copies *)

(** A colour read from a buffer is written unchanged to an RGBA buffer. *)
Lemma getPixel_convert_RGBA img x y (c : Color Binary32.float) :
  wf img -> 0 <= x -> 0 <= y ->
  getPixel img x y = Some c -> convert RGBA c = Some c.
Proof.
  intros Hwf Hx Hy. unfold getPixel, in_bounds.
  assert (Hone : convert RGBA (Color_default (F:=Binary32.float))
                 = Some Color_default) by (vm_compute; reflexivity).
  destruct (Z.ltb_spec x (width_ img)), (Z.ltb_spec y (height_ img)); simpl.
  2-4: by intros [= <-].
  assert (Hb1 : of_byte (F:=Binary32.float) x01 = of_Z 1) by reflexivity.
  unfold getPixelUnsafe.
  destruct (format_ img); intros E.
  all: repeat match type of E with
       | context [load ?d ?j] =>
           destruct (load d j) as [?|]; cbn [mbind option_bind] in E; [|done]
       end.
  all: apply (inj Some) in E as <-; unfold convert, Color3; cbn [cr cg cb ca].
  all: rewrite ?to_uint8_of_byte, ?to_uint8_one; cbn [mbind option_bind].
  all: rewrite ?Hb1; reflexivity.
Qed.

(** [copy_block] into a buffer with colour channels: the pixels of the
    target block that lie in the buffer receive the source pixels; no other
    pixel changes. *)
Lemma copy_block_pixels src sx sy w h dst dx dy :
  wf src -> wf dst -> format_ dst = RGBA ->
  0 <= sx -> 0 <= sy -> sx + w <= 2 ^ 32 -> sy + h <= 2 ^ 32 ->
  0 <= dx -> 0 <= dy -> dx + w <= 2 ^ 32 -> dy + h <= 2 ^ 32 ->
  exists dst',
    copy_block (F:=Binary32.float) src sx sy w h dst dx dy = Some dst' /\
    same_shape dst dst' /\
    forall x y, 0 <= x -> 0 <= y ->
      getPixel (F:=Binary32.float) dst' x y
      = if decide (dx <= x < dx + w /\ dy <= y < dy + h /\
                   x < width_ dst /\ y < height_ dst)
        then getPixel src (sx + (x - dx)) (sy + (y - dy))
        else getPixel dst x y.
Proof.
  intros Hsrc Hdst Hfmt Hsx Hsy Hsw Hsh Hdx Hdy Hdw Hdh.
  pose (body := fun (x y : Z) (d : Image) =>
    c ← getPixel (F:=Binary32.float) src (sx + (x - dx)) (sy + (y - dy));
    setPixel d x y c).
  pose (new := fun (x y : Z) (old : option (Color Binary32.float)) =>
    if in_bounds dst x y
    then getPixel (F:=Binary32.float) src (sx + (x - dx)) (sy + (y - dy))
    else old).
  assert (Hloop : copy_block (F:=Binary32.float) src sx sy w h dst dx dy
                  = for_loop dy (Z.to_nat h) (fun y d =>
                      for_loop dx (Z.to_nat w) (fun x d => body x y d) d) dst).
  { unfold copy_block.
    rewrite (for_loop_shift
               (fun y d => for_loop dx (Z.to_nat w) (fun x d => body x y d) d)
               _ dy (Z.to_nat h) 0 dst); [done|].
    intros y d Hy.
    rewrite (for_loop_shift (fun x d => body x (y + dy) d) _ dx
               (Z.to_nat w) 0 d); [done|].
    intros x d' Hx. unfold body.
    rewrite !u32_small by lia.
    replace (sx + (x + dx - dx)) with (sx + x) by lia.
    replace (sy + (y + dy - dy)) with (sy + y) by lia.
    replace (x + dx) with (dx + x) by lia.
    replace (y + dy) with (dy + y) by lia. done. }
  rewrite Hloop.
  destruct (box_loop dst body new dx (Z.to_nat w) (Z.to_nat h) dy dst)
    as (dst' & Hrun & Hs & Hpix); try done.
  - intros x y Hx Hy d Hd. unfold body, new.
    destruct (getPixel_storable src (sx + (x - dx)) (sy + (y - dy)))
      as (c & Hc & _); [done|lia|lia|]. rewrite Hc. simpl.
    pose proof Hd as (Ew & Eh & Ef & El).
    pose proof (same_shape_wf dst d Hd Hdst) as Hwfd.
    unfold in_bounds.
    destruct (Z.ltb_spec x (width_ dst)), (Z.ltb_spec y (height_ dst)); simpl.
    + destruct (setPixel_spec d x y c c) as (d' & ? & ? & ? & ?);
        try done; try lia.
      { rewrite Ef, Hfmt.
        apply (getPixel_convert_RGBA src (sx + (x - dx)) (sy + (y - dy)));
          [done|lia|lia|done]. }
      by exists d'.
    + exists d. unfold setPixel. rewrite in_bounds_false by lia.
      repeat split; try done.
    + exists d. unfold setPixel. rewrite in_bounds_false by lia.
      repeat split; try done.
    + exists d. unfold setPixel. rewrite in_bounds_false by lia.
      repeat split; try done.
  - exists dst'. split; [done|]. split; [done|].
    intros x y Hx Hy. rewrite (Hpix x y Hx Hy). unfold new, in_bounds.
    destruct (decide (dx <= x < dx + w /\ dy <= y < dy + h /\
                      x < width_ dst /\ y < height_ dst)) as [Hin|Hout].
    + rewrite decide_True by lia.
      destruct (Z.ltb_spec x (width_ dst)), (Z.ltb_spec y (height_ dst));
        simpl; try lia. done.
    + destruct (decide (dx <= x < dx + Z.of_nat (Z.to_nat w) /\
                        dy <= y < dy + Z.of_nat (Z.to_nat h))); [|done].
      destruct (Z.ltb_spec x (width_ dst)), (Z.ltb_spec y (height_ dst));
        simpl; try done. lia.
Qed.

Lemma scan_range (tw aw : Z) (regions : list Region) :
  0 <= currentX (scan tw aw regions) < 2 ^ 32 /\
  0 <= currentY (scan tw aw regions) < 2 ^ 32.
Proof.
  unfold scan.
  assert (H0 : 0 <= currentX cursor0 < 2 ^ 32 /\ 0 <= currentY cursor0 < 2 ^ 32)
    by (simpl; lia).
  revert H0. generalize cursor0.
  induction regions as [|r rest IH]; intros cur Hcur; simpl; [done|].
  apply IH. unfold scan_step, u32.
  destruct (_ >? _); simpl; split; try apply Z.mod_pos_bound; lia.
Qed.



(** ** Repacking *)

Lemma foldl_bind_None {A B : Type} (f : A -> B -> option A) (l : list B) :
  foldl (fun st x => st ← st; f st x) None l = None.
Proof. induction l as [|x l IH]; simpl; [done|apply IH]. Qed.

(** The repacking loop of [optimize] runs to its end, keeps the geometry of
    the new image and moves every region with its name, width and height. *)
Lemma repack_total (old : Image) (regions : list Region) :
  wf old ->
  forall st0 : Image * Cursor * list Region,
    wf st0.1.1 -> format_ st0.1.1 <> Grayscale ->
    exists st,
      foldl (fun st region => st ← st;
               repack_step (F:=Binary32.float) old st region)
            (Some st0) regions = Some st /\
      same_shape st0.1.1 st.1.1 /\
      (fun r => (name r, rect_width (bounds r), rect_height (bounds r)))
        <$> st.2
      = ((fun r => (name r, rect_width (bounds r), rect_height (bounds r)))
           <$> st0.2)
        ++ ((fun r => (name r, rect_width (bounds r), rect_height (bounds r)))
              <$> regions).
Proof.
  intros Hold. induction regions as [|r rest IH]; intros st0 Hwf Hfmt; simpl.
  - exists st0. split; [done|]. split; [apply same_shape_refl|].
    by rewrite app_nil_r.
  - destruct st0 as [[img cur] moved]. simpl in Hwf, Hfmt.
    unfold repack_step at 2.
    set (cur' := if u32 (currentX cur + rect_width (bounds r)) >? width_ img
                 then mkCursor 0 (u32 (currentY cur + rowHeight cur)) 0
                 else cur).
    destruct (copy_block_total old (rect_x (bounds r)) (rect_y (bounds r))
                (rect_width (bounds r)) (rect_height (bounds r)) img
                (currentX cur') (currentY cur'))
      as (img1 & -> & Hs); [done..|]. simpl.
    match goal with |- context [foldl _ (Some ?s) rest] =>
      destruct (IH s) as (st & Hf & Hs' & Hfp) end.
    { simpl. by apply (same_shape_wf img). }
    { simpl. destruct Hs as (_ & _ & -> & _). done. }
    exists st. split; [done|]. split.
    { simpl in Hs'. simpl. by apply (same_shape_trans img img1). }
    rewrite Hfp. simpl. rewrite fmap_app, <- app_assoc. done.
Qed.

(** X6.  On every well-formed atlas, and whichever order [std::sort] gives
    to regions of equal height, [optimize()] runs to its end; the new image
    has the old extent and format; the regions afterwards are the regions
    before, each with its name, width and height, reordered so that heights
    never increase along [regions_]; and each region is found under its
    name. *)
Theorem optimize_keeps_and_sorts_regions (SR : StdSort)
    (atlas : TextureAtlas) :
  wf (atlasImage_ atlas) -> format_ (atlasImage_ atlas) <> Grayscale ->
  exists atlas',
    optimize (F:=Binary32.float) atlas = Some atlas' /\
    same_shape (atlasImage_ atlas) (atlasImage_ atlas') /\
    (fun r => (name r, rect_width (bounds r), rect_height (bounds r)))
      <$> regions_ atlas'
    ≡ₚ (fun r => (name r, rect_width (bounds r), rect_height (bounds r)))
         <$> regions_ atlas /\
    (forall i j ri rj,
       (i <= j)%nat -> regions_ atlas' !! i = Some ri ->
       regions_ atlas' !! j = Some rj ->
       rect_height (bounds rj) <= rect_height (bounds ri)) /\
    (NoDup (name <$> regions_ atlas) ->
     forall r, r ∈ regions_ atlas' -> getRegion atlas' (name r) = Some r).
Proof.
  intros Hwf Hfmt. unfold optimize.
  set (sorted := std_sort (regions_ atlas)).
  set (fp := fun r : Region =>
               (name r, rect_width (bounds r), rect_height (bounds r))).
  destruct (repack_total (atlasImage_ atlas) sorted Hwf
              (Image_new (width_ (atlasImage_ atlas))
                 (height_ (atlasImage_ atlas)) (format_ (atlasImage_ atlas)),
               cursor0, []))
    as ([[img cur] regions] & -> & Hs & Hfp); simpl.
  { destruct Hwf as (? & ? & ? & ?). apply wf_Image_new; done. }
  { done. }
  simpl in Hs, Hfp. fold fp in Hfp.
  eexists. split; [reflexivity|]. simpl.
  assert (Hnew : same_shape (atlasImage_ atlas)
                   (Image_new (width_ (atlasImage_ atlas))
                      (height_ (atlasImage_ atlas))
                      (format_ (atlasImage_ atlas)))).
  { destruct Hwf as (? & ? & ? & Hlen). unfold same_shape, Image_new. simpl.
    split; [done|]. split; [done|]. split; [done|].
    rewrite length_replicate, Hlen. unfold bufferSize, getBytesPerPixel in *.
    rewrite u32_small; [done|].
    pose proof (bytesPerPixel_pos (format_ (atlasImage_ atlas))). nia. }
  split; [by apply (same_shape_trans _ _ _ Hnew)|].
  split; [rewrite Hfp; unfold sorted; by rewrite std_sort_permutation|].
  split.
  - intros i j ri rj Hij Hi Hj.
    assert (Hh : (fun r => rect_height (bounds r)) <$> regions
                 = (fun r => rect_height (bounds r)) <$> sorted).
    { transitivity (snd <$> (fp <$> regions)).
      - rewrite <- list_fmap_compose. done.
      - rewrite Hfp, <- list_fmap_compose. done. }
    assert (Hss : StronglySorted (fun a b : Z => b <= a)
                    ((fun r => rect_height (bounds r)) <$> regions)).
    { rewrite Hh. apply (StronglySorted_fmap _ taller_or_equal); [done|].
      apply std_sort_sorted. }
    assert (Hi' : ((fun r => rect_height (bounds r)) <$> regions) !! i
                  = Some (rect_height (bounds ri)))
      by (by rewrite list_lookup_fmap, Hi).
    assert (Hj' : ((fun r => rect_height (bounds r)) <$> regions) !! j
                  = Some (rect_height (bounds rj)))
      by (by rewrite list_lookup_fmap, Hj).
    revert Hss Hi' Hj' Hij. generalize (rect_height (bounds ri)).
    generalize (rect_height (bounds rj)).
    generalize ((fun r => rect_height (bounds r)) <$> regions).
    clear. intros l hj hi Hss. revert i j.
    induction Hss as [|a l Hss IH Hall]; intros i j Hi Hj Hij; [done|].
    destruct i as [|i], j as [|j]; simpl in *.
    + assert (hi = hj) by congruence. lia.
    + injection Hi as ->. rewrite Forall_forall in Hall.
      apply Hall. by eapply list_elem_of_lookup_2.
    + lia.
    + apply (IH i j); [done..|lia].
  - intros Hnd r (i & Hl)%list_elem_of_lookup_1. unfold getRegion. simpl.
    assert (Hnames : name <$> regions = name <$> sorted).
    { transitivity ((fun p : string * Z * Z => p.1.1) <$> (fp <$> regions)).
      - rewrite <- list_fmap_compose. done.
      - rewrite Hfp, <- list_fmap_compose. done. }
    assert (Hnd' : NoDup (name <$> regions)).
    { rewrite Hnames. unfold sorted. by rewrite std_sort_permutation. }
    assert (index_regions 0 regions ∅ !! name r = Some i) as ->.
    { apply (index_regions_spec regions Hnd'). left. exists r.
      split; [lia|]. by rewrite Nat.sub_0_r. }
    done.
Qed.

Lemma optimize_keeps_and_sorts_regions_witness :
  let atlas :=
    mkTextureAtlas (Image_new 10 2 RGBA)
      [mkRegion (mkRect 0 0 3 1) "a"; mkRegion (mkRect 3 0 5 2) "b"] ∅ in
  exists atlas',
    optimize (F:=Binary32.float) (SR:=merge_std_sort) atlas = Some atlas' /\
    same_shape (atlasImage_ atlas) (atlasImage_ atlas') /\
    (fun r => (name r, rect_width (bounds r), rect_height (bounds r)))
      <$> regions_ atlas'
    ≡ₚ (fun r => (name r, rect_width (bounds r), rect_height (bounds r)))
         <$> regions_ atlas /\
    (forall i j ri rj,
       (i <= j)%nat -> regions_ atlas' !! i = Some ri ->
       regions_ atlas' !! j = Some rj ->
       rect_height (bounds rj) <= rect_height (bounds ri)) /\
    (NoDup (name <$> regions_ atlas) ->
     forall r, r ∈ regions_ atlas' -> getRegion atlas' (name r) = Some r).
Proof.
  apply (optimize_keeps_and_sorts_regions merge_std_sort).
  - apply wf_Image_new; simpl; lia.
  - done.
Defined.

(** A relation that every iteration maintains holds between the initial
    and the final state of a loop. *)
Lemma for_loop_rel {S : Type} (R : S -> S -> Prop) (body : Z -> S -> option S)
    (n : nat) :
  (forall s, R s s) -> (forall a b c, R a b -> R b c -> R a c) ->
  (forall i s s', body i s = Some s' -> R s s') ->
  forall lo s s', for_loop lo n body s = Some s' -> R s s'.
Proof.
  intros Hrefl Htrans Hbody. induction n as [|n IH]; intros lo s s'; simpl.
  - intros [= <-]. apply Hrefl.
  - destruct (body lo s) as [s1|] eqn:E; [|done]. simpl. intros Hrest.
    apply (Htrans _ s1); [by eapply Hbody | by eapply IH].
Qed.

Lemma copy_block_shape {F : Type} {AF : Arith F} src sx sy w h dst dx dy dst' :
  copy_block (F:=F) src sx sy w h dst dx dy = Some dst' -> same_shape dst dst'.
Proof.
  unfold copy_block.
  apply (for_loop_rel same_shape);
    [apply same_shape_refl | apply same_shape_trans|].
  intros y d d'.
  apply (for_loop_rel same_shape);
    [apply same_shape_refl | apply same_shape_trans|].
  intros x d1 d2. destruct (getPixel _ _ _) as [c|]; [|done]. simpl.
  apply setPixel_shape.
Qed.

(** The sum of the heights of a list of regions. *)
Lemma heights_permutation (l1 l2 : list Region) :
  l1 ≡ₚ l2 ->
  foldr (fun r acc => rect_height (bounds r) + acc) 0 l1
  = foldr (fun r acc => rect_height (bounds r) + acc) 0 l2.
Proof.
  induction 1 as [|x l1 l2 _ IH|x y l|l1 l2 l3 _ IH1 _ IH2]; simpl;
    [done|lia|lia|congruence].
Qed.

Lemma heights_nonneg (W : Z) (l : list Region) :
  Forall (fun r => 0 <= rect_width (bounds r) <= W /\
                   0 <= rect_height (bounds r)) l ->
  0 <= foldr (fun r acc => rect_height (bounds r) + acc) 0 l.
Proof. induction 1 as [|r l [_ Hh] _ IH]; simpl; lia. Qed.

(** One iteration of the repacking loop puts the region on the current
    shelf, or opens a new one below. *)
Lemma repack_step_shelved (old : Image) (W : Z) (img : Image) (cur : Cursor)
    (moved : list Region) (r : Region) st1 :
  0 <= W < 2 ^ 31 -> width_ img = W ->
  0 <= rect_width (bounds r) <= W -> 0 <= rect_height (bounds r) ->
  shelved W cur moved ->
  currentY cur + rowHeight cur + rect_height (bounds r) < 2 ^ 32 ->
  repack_step (F:=Binary32.float) old (img, cur, moved) r = Some st1 ->
  exists cx cy img1 cur1,
    st1 = (img1, cur1,
           moved ++ [mkRegion (mkRect cx cy (rect_width (bounds r))
                                 (rect_height (bounds r))) (name r)]) /\
    copy_block (F:=Binary32.float) old (rect_x (bounds r)) (rect_y (bounds r))
      (rect_width (bounds r)) (rect_height (bounds r)) img cx cy = Some img1 /\
    0 <= cx /\ cx + rect_width (bounds r) <= W /\ 0 <= cy /\
    cy + rect_height (bounds r)
    <= currentY cur + rowHeight cur + rect_height (bounds r) /\
    currentY cur1 + rowHeight cur1
    <= currentY cur + rowHeight cur + rect_height (bounds r) /\
    shelved W cur1
      (moved ++ [mkRegion (mkRect cx cy (rect_width (bounds r))
                             (rect_height (bounds r))) (name r)]) /\
    (forall r0, r0 ∈ moved ->
       ~ rects_overlap (bounds r0)
           (mkRect cx cy (rect_width (bounds r)) (rect_height (bounds r)))).
Proof.
  intros HW HWd Hw Hh (HcX & HcY & HrH & Hinv & Hdis) Hsum E.
  unfold repack_step in E.
  set (cur' := if u32 (currentX cur + rect_width (bounds r)) >? width_ img
               then mkCursor 0 (u32 (currentY cur + rowHeight cur)) 0
               else cur) in E.
  destruct (copy_block _ _ _ _ _ _ _ _) as [img1|] eqn:Hcb; [|done].
  simpl in E. injection E as <-.
  assert (Hx : u32 (currentX cur + rect_width (bounds r))
               = currentX cur + rect_width (bounds r))
    by (apply u32_small; lia).
  assert (Hy : u32 (currentY cur + rowHeight cur)
               = currentY cur + rowHeight cur)
    by (apply u32_small; lia).
  assert (Hcur' : 0 <= currentX cur' /\
                  currentX cur' + rect_width (bounds r) <= W /\
                  0 <= currentY cur' /\ 0 <= rowHeight cur' /\
                  currentY cur' + rowHeight cur'
                  <= currentY cur + rowHeight cur /\
                  Forall (fun r0 =>
                    0 <= rect_x (bounds r0) /\
                    rect_x (bounds r0) + rect_width (bounds r0) <= W /\
                    (rect_y (bounds r0) + rect_height (bounds r0)
                     <= currentY cur' \/
                     rect_y (bounds r0) = currentY cur' /\
                     rect_x (bounds r0) + rect_width (bounds r0)
                     <= currentX cur' /\
                     rect_height (bounds r0) <= rowHeight cur')) moved).
  { unfold cur'. rewrite Hx, Hy, HWd.
    destruct (currentX cur + rect_width (bounds r) >? W) eqn:Hwrap; simpl.
    - repeat split; try lia.
      eapply Forall_impl; [exact Hinv|]. simpl.
      intros r0 (? & ? & [?|(? & ? & ?)]); repeat split; try done; left; lia.
    - repeat split; try lia. exact Hinv. }
  destruct Hcur' as (Hc1 & Hc2 & Hc3 & Hc4 & Hc5 & Hc6).
  assert (Hx' : u32 (currentX cur' + rect_width (bounds r))
                = currentX cur' + rect_width (bounds r))
    by (apply u32_small; lia).
  rewrite Hx'.
  assert (Hnew : forall r0, r0 ∈ moved ->
            ~ rects_overlap (bounds r0)
                (mkRect (currentX cur') (currentY cur')
                   (rect_width (bounds r)) (rect_height (bounds r)))).
  { intros r0 Hin. rewrite Forall_forall in Hc6.
    destruct (Hc6 r0 Hin) as (? & ? & Hor).
    unfold rects_overlap. simpl. lia. }
  exists (currentX cur'), (currentY cur'), img1. eexists.
  split; [reflexivity|]. split; [exact Hcb|].
  split; [done|]. split; [done|]. split; [done|]. split; [lia|].
  split; [simpl; lia|]. split; [|exact Hnew].
  unfold shelved. simpl. split; [lia|]. split; [lia|]. split; [lia|]. split.
  - apply Forall_app. split.
    + eapply Forall_impl; [exact Hc6|]. simpl.
      intros r0 (? & ? & [?|(? & ? & ?)]); repeat split; try done;
        [left; lia | right; lia].
    + apply Forall_singleton. simpl. lia.
  - intros i j ri rj Hij Hi Hj.
    destruct (decide (i < length moved)%nat) as [Hil|Hil];
      destruct (decide (j < length moved)%nat) as [Hjl|Hjl].
    + rewrite lookup_app_l in Hi, Hj by done. by eapply Hdis.
    + rewrite lookup_app_l in Hi by done.
      rewrite lookup_app_r in Hj by lia.
      apply list_lookup_singleton_Some in Hj as [_ <-]. simpl.
      apply Hnew. by eapply list_elem_of_lookup_2.
    + rewrite lookup_app_l in Hj by done.
      rewrite lookup_app_r in Hi by lia.
      apply list_lookup_singleton_Some in Hi as [_ <-]. simpl.
      intros Ho. apply (Hnew rj); [by eapply list_elem_of_lookup_2|].
      unfold rects_overlap in *. simpl in *. lia.
    + rewrite lookup_app_r in Hi, Hj by lia.
      apply list_lookup_singleton_Some in Hi as [Hi _].
      apply list_lookup_singleton_Some in Hj as [Hj _]. lia.
Qed.

(** The layout the repacking loop builds: shelves filled from the left,
    each shelf as high as its tallest region. *)
Lemma repack_layout (old : Image) (W : Z) (regions : list Region) :
  0 <= W < 2 ^ 31 ->
  forall (st0 st : Image * Cursor * list Region),
    foldl (fun st region => st ← st;
             repack_step (F:=Binary32.float) old st region)
          (Some st0) regions = Some st ->
    width_ st0.1.1 = W ->
    Forall (fun r => 0 <= rect_width (bounds r) <= W /\
                     0 <= rect_height (bounds r)) regions ->
    shelved W st0.1.2 st0.2 ->
    currentY st0.1.2 + rowHeight st0.1.2
    + foldr (fun r acc => rect_height (bounds r) + acc) 0 regions < 2 ^ 32 ->
    shelved W st.1.2 st.2.
Proof.
  intros HW. induction regions as [|r rest IH];
    intros st0 st Hf HWd Hall Hsh Hsum; simpl in Hf.
  - by injection Hf as <-.
  - destruct (repack_step old st0 r) as [st1|] eqn:E;
      [|by rewrite foldl_bind_None in Hf].
    apply Forall_cons in Hall as [[Hw Hh] Hall].
    simpl in Hsum. pose proof (heights_nonneg W rest Hall) as Hrest.
    destruct st0 as [[img cur] moved]. simpl in *.
    destruct (repack_step_shelved old W img cur moved r st1)
      as (cx & cy & img1 & cur1 & -> & Hcb & _ & _ & _ & _ & Hbud & Hsh1 & _);
      try done; try lia.
    apply copy_block_shape in Hcb as (Ew & _).
    apply (IH _ _ Hf); simpl; try done; try lia.
Qed.

(** X7.  After [optimize()], whichever order [std::sort] gives to regions
    of equal height, no two regions overlap and every region lies between
    the left and the right edge of the atlas, provided no region is wider
    than the atlas, the atlas is less than 2^31 pixels wide and the heights
    of all regions add up to less than 2^32 (so that the cursor does not
    wrap).  The lower edge is not checked: a region may end below it. *)
Theorem optimize_regions_disjoint (SR : StdSort) (atlas : TextureAtlas) :
  wf (atlasImage_ atlas) -> format_ (atlasImage_ atlas) <> Grayscale ->
  width_ (atlasImage_ atlas) < 2 ^ 31 ->
  Forall (fun r => 0 <= rect_width (bounds r) <= width_ (atlasImage_ atlas) /\
                   0 <= rect_height (bounds r)) (regions_ atlas) ->
  foldr (fun r acc => rect_height (bounds r) + acc) 0 (regions_ atlas)
  < 2 ^ 32 ->
  exists atlas',
    optimize (F:=Binary32.float) atlas = Some atlas' /\
    regions_disjoint atlas' /\
    Forall (fun r => 0 <= rect_x (bounds r) /\
                     rect_x (bounds r) + rect_width (bounds r)
                     <= width_ (atlasImage_ atlas')) (regions_ atlas').
Proof.
  intros Hwf Hfmt HW Hall Hsum. unfold optimize.
  set (sorted := std_sort (regions_ atlas)).
  set (new := Image_new (width_ (atlasImage_ atlas))
                (height_ (atlasImage_ atlas)) (format_ (atlasImage_ atlas))).
  destruct (repack_total (atlasImage_ atlas) sorted Hwf (new, cursor0, []))
    as ([[img cur] regions] & Hf & Hs & _); simpl.
  { destruct Hwf as (? & ? & ? & ?). apply wf_Image_new; done. }
  { done. }
  rewrite Hf. simpl. eexists. split; [reflexivity|].
  assert (HW' : 0 <= width_ (atlasImage_ atlas) < 2 ^ 31)
    by (destruct Hwf as (? & _); lia).
  assert (Hall' : Forall (fun r => 0 <= rect_width (bounds r)
                                   <= width_ (atlasImage_ atlas) /\
                                   0 <= rect_height (bounds r)) sorted)
    by (unfold sorted; by rewrite std_sort_permutation).
  assert (Hsum' : currentY cursor0 + rowHeight cursor0
                  + foldr (fun r acc => rect_height (bounds r) + acc) 0 sorted
                  < 2 ^ 32).
  { rewrite (heights_permutation sorted (regions_ atlas)); [simpl; lia|].
    apply std_sort_permutation. }
  destruct (repack_layout (atlasImage_ atlas) (width_ (atlasImage_ atlas))
              sorted HW' (new, cursor0, []) (img, cur, regions) Hf)
    as (_ & _ & _ & Hin & Hdis); simpl; try done; try lia.
  { unfold shelved. simpl. repeat split; try lia; [constructor|].
    intros i j ri rj _ Hi. by rewrite lookup_nil in Hi. }
  simpl in Hin, Hdis. split.
  - intros i j ri rj. simpl. apply Hdis.
  - simpl. simpl in Hs. destruct Hs as (-> & _).
    eapply Forall_impl; [exact Hin|]. simpl. intros r (? & ? & _). done.
Qed.

Lemma optimize_regions_disjoint_witness :
  let atlas :=
    mkTextureAtlas (Image_new 10 2 RGBA)
      [mkRegion (mkRect 3 1 5 1) "d"; mkRegion (mkRect 5 1 2 1) "e"] ∅ in
  rects_overlap (mkRect 3 1 5 1) (mkRect 5 1 2 1) /\
  exists atlas',
    optimize (F:=Binary32.float) (SR:=merge_std_sort) atlas = Some atlas' /\
    regions_disjoint atlas' /\
    Forall (fun r => 0 <= rect_x (bounds r) /\
                     rect_x (bounds r) + rect_width (bounds r)
                     <= width_ (atlasImage_ atlas')) (regions_ atlas').
Proof.
  split; [unfold rects_overlap; simpl; lia|].
  apply (optimize_regions_disjoint merge_std_sort).
  - apply wf_Image_new; simpl; lia.
  - done.
  - simpl. lia.
  - simpl. repeat constructor; simpl; lia.
  - simpl. lia.
Defined.

(** The repacking loop carries every region, pixels included, to its new
    place. *)
Lemma repack_pixels (old : Image) (W H : Z) (regions : list Region) :
  wf old -> width_ old = W -> height_ old = H ->
  0 <= W < 2 ^ 31 -> 0 <= H < 2 ^ 32 ->
  forall (done : list Region) (st0 st : Image * Cursor * list Region),
    foldl (fun st region => st ← st;
             repack_step (F:=Binary32.float) old st region)
          (Some st0) regions = Some st ->
    wf st0.1.1 -> format_ st0.1.1 = RGBA ->
    width_ st0.1.1 = W -> height_ st0.1.1 = H ->
    Forall (fun r => rect_within old (bounds r) /\
                     0 <= rect_width (bounds r) /\
                     0 <= rect_height (bounds r)) regions ->
    shelved W st0.1.2 st0.2 ->
    currentY st0.1.2 + rowHeight st0.1.2
    + foldr (fun r acc => rect_height (bounds r) + acc) 0 regions < 2 ^ 32 ->
    Forall2 (moved_from old st0.1.1) done st0.2 ->
    Forall2 (moved_from old st.1.1) (done ++ regions) st.2.
Proof.
  intros Hold HoW HoH HW HH.
  induction regions as [|r rest IH];
    intros done st0 st Hf Hwf Hfmt HWd HHt Hall Hsh Hsum Hdone; simpl in Hf.
  - injection Hf as <-. by rewrite app_nil_r.
  - destruct (repack_step old st0 r) as [st1|] eqn:E;
      [|by rewrite foldl_bind_None in Hf].
    apply Forall_cons in Hall as [(Hin & Hw & Hh) Hall].
    assert (Hrest : 0 <= foldr (fun r acc => rect_height (bounds r) + acc)
                           0 rest).
    { clear -Hall. induction Hall as [|x l (_ & _ & ?) _ IHl]; simpl; lia. }
    simpl in Hsum.
    destruct st0 as [[img cur] moved]. simpl in *.
    destruct Hin as (Hrx & Hry & Hrw & Hrh). rewrite HoW in Hrw.
    rewrite HoH in Hrh.
    destruct (repack_step_shelved old W img cur moved r st1)
      as (cx & cy & img1 & cur1 & -> & Hcb & Hcx & Hcw & Hcy & Hch & Hbud
          & Hsh1 & Hnew); try done; try lia.
    destruct (copy_block_pixels old (rect_x (bounds r)) (rect_y (bounds r))
                (rect_width (bounds r)) (rect_height (bounds r)) img cx cy)
      as (img1' & Hcb' & Hs & Hpix); try done; try lia.
    assert (img1' = img1) as -> by congruence.
    pose proof Hs as (Ew & Eh & Ef & El).
    replace (done ++ r :: rest) with ((done ++ [r]) ++ rest)
      by (by rewrite <- app_assoc).
    apply (IH (done ++ [r]) _ st Hf); simpl; try done; try lia.
    + by apply (same_shape_wf img).
    + congruence.
    + apply Forall2_app.
      * apply Forall2_same_length_lookup. split; [by eapply Forall2_length|].
        intros i r0 r0' Hi Hi'.
        pose proof (Forall2_lookup_lr _ _ _ _ _ _ Hdone Hi Hi')
          as (Hn & Hw0 & Hh0 & Hx0 & Hy0 & Hp).
        split; [done|]. split; [done|]. split; [done|].
        split; [done|]. split; [done|].
        intros dx dy Hdx Hdy Hlow. rewrite Hpix by lia.
        rewrite decide_False; [apply Hp; try done; lia|].
        intros (Hqx & Hqy & _).
        apply (Hnew r0'); [by eapply list_elem_of_lookup_2|].
        unfold rects_overlap. simpl. lia.
      * constructor; [|constructor]. unfold moved_from. simpl.
        split; [done|]. split; [done|]. split; [done|].
        split; [done|]. split; [done|].
        intros dx dy Hdx Hdy Hlow. rewrite Hpix by lia.
        rewrite decide_True by lia. f_equal; lia.
Qed.

(** X8.  [optimize()] moves the pixels with the regions, whichever order
    [std::sort] gives to regions of equal height.  On an RGBA atlas less
    than 2^31 pixels wide, whose regions lie inside the image and whose
    heights add up to less than 2^32, every region afterwards carries the
    name and the size of a region before, and each of its pixels that lies
    above the lower edge of the atlas reads as the corresponding pixel of
    that region read before. *)
Theorem optimize_moves_pixels (SR : StdSort) (atlas : TextureAtlas) :
  wf (atlasImage_ atlas) -> format_ (atlasImage_ atlas) = RGBA ->
  width_ (atlasImage_ atlas) < 2 ^ 31 ->
  height_ (atlasImage_ atlas) < 2 ^ 32 ->
  regions_within atlas ->
  Forall (fun r => 0 <= rect_width (bounds r) /\
                   0 <= rect_height (bounds r)) (regions_ atlas) ->
  foldr (fun r acc => rect_height (bounds r) + acc) 0 (regions_ atlas)
  < 2 ^ 32 ->
  exists atlas',
    optimize (F:=Binary32.float) atlas = Some atlas' /\
    forall r', r' ∈ regions_ atlas' ->
      exists r, r ∈ regions_ atlas /\
                moved_from (atlasImage_ atlas) (atlasImage_ atlas') r r'.
Proof.
  intros Hwf Hfmt HW HH Hin Hsizes Hsum. unfold optimize.
  set (sorted := std_sort (regions_ atlas)).
  set (old := atlasImage_ atlas) in *.
  set (new := Image_new (width_ old) (height_ old) (format_ old)).
  pose proof Hwf as (HW0 & HH0 & Hsz & Hlen).
  assert (Hwfn : wf new) by (by apply wf_Image_new).
  destruct (repack_total old sorted Hwf (new, cursor0, []))
    as ([[img cur] regions] & Hf & Hs & _); simpl; [done | by rewrite Hfmt |].
  rewrite Hf. simpl. eexists. split; [reflexivity|]. simpl.
  assert (Hall : Forall (fun r => rect_within old (bounds r) /\
                                  0 <= rect_width (bounds r) /\
                                  0 <= rect_height (bounds r)) sorted).
  { unfold sorted. rewrite std_sort_permutation.
    unfold regions_within in Hin. fold old in Hin.
    rewrite Forall_forall in Hin, Hsizes. apply Forall_forall.
    intros r Hr. split; [by apply Hin | by apply Hsizes]. }
  assert (Hsum' : currentY cursor0 + rowHeight cursor0
                  + foldr (fun r acc => rect_height (bounds r) + acc) 0 sorted
                  < 2 ^ 32).
  { rewrite (heights_permutation sorted (regions_ atlas)); [simpl; lia|].
    apply std_sort_permutation. }
  pose proof (repack_pixels old (width_ old) (height_ old) sorted Hwf
                eq_refl eq_refl ltac:(lia) ltac:(lia) []
                (new, cursor0, []) (img, cur, regions) Hf) as Hpix.
  simpl in Hpix.
  assert (Hmoved : Forall2 (moved_from old img) sorted regions).
  { apply Hpix; done || constructor. }
  intros r' (i & Hi)%list_elem_of_lookup_1.
  destruct (Forall2_lookup_r _ _ _ _ _ Hmoved Hi) as (r & Hr & Hm).
  exists r. split; [|done].
  apply (list_elem_of_lookup_2 _ i) in Hr. unfold sorted in Hr.
  by rewrite std_sort_permutation in Hr.
Qed.

Lemma optimize_moves_pixels_witness :
  (regions_ <$> optimize (F:=Binary32.float) (SR:=merge_std_sort) two_columns)
  = Some [mkRegion (mkRect 0 0 1 2) "b"; mkRegion (mkRect 1 0 1 1) "a"] /\
  (data_ <$> (atlasImage_
              <$> optimize (F:=Binary32.float) (SR:=merge_std_sort)
                    two_columns))
  = Some ["020"; "021"; "022"; "023"; "010"; "011"; "012"; "013";
          "040"; "041"; "042"; "043"; "000"; "000"; "000"; "000"]%byte /\
  exists atlas',
    optimize (F:=Binary32.float) (SR:=merge_std_sort) two_columns
    = Some atlas' /\
    forall r', r' ∈ regions_ atlas' ->
      exists r, r ∈ regions_ two_columns /\
                moved_from (atlasImage_ two_columns) (atlasImage_ atlas') r r'.
Proof.
  split; [vm_compute; reflexivity|].
  split; [vm_compute; reflexivity|].
  apply (optimize_moves_pixels merge_std_sort).
  - unfold wf. simpl. repeat split; try lia; reflexivity.
  - reflexivity.
  - simpl. lia.
  - simpl. lia.
  - unfold regions_within, rect_within. simpl.
    repeat constructor; simpl; lia.
  - simpl. repeat constructor; simpl; lia.
  - simpl. lia.
Defined.

(** ** Colours read from a buffer *)

(** X9.  A new image holds zeros: [getPixel] reads every pixel inside it as
    black, with alpha 0 in the four-channel formats, and with the default
    alpha 1 in the formats that store no alpha. *)
Theorem new_image_is_blank {F : Type} {AF : Arith F} (w h : Z) (f : Format)
    (x y : Z) :
  w * h * bytesPerPixel f < 2 ^ 32 -> 0 <= x < w -> 0 <= y < h ->
  getPixel (F:=F) (Image_new w h f) x y
  = Some (match f with
          | RGBA | BGRA => mkColor (of_Z 0) (of_Z 0) (of_Z 0) (of_Z 0)
          | RGB | BGR | Grayscale => Color3 (of_Z 0) (of_Z 0) (of_Z 0)
          end).
Proof.
  intros Hsize Hx Hy.
  assert (Hwf : wf (Image_new w h f)) by (apply wf_Image_new; lia).
  destruct (getPixelIndex_wf (Image_new w h f) x y Hwf) as (_ & Hi0 & Hlen);
    [simpl; lia..|].
  unfold getPixel. rewrite in_bounds_true by (simpl; lia).
  unfold getPixelUnsafe.
  set (i := getPixelIndex (Image_new w h f) x y) in *.
  assert (Hload : forall k, 0 <= k < bytesPerPixel f ->
            load (replicate (bufferSize w h f) zero_byte) (i + k)
            = Some zero_byte).
  { intros k Hk. unfold load. apply lookup_replicate_2.
    unfold getBytesPerPixel in Hlen. simpl in Hlen.
    rewrite length_replicate in Hlen. lia. }
  assert (Hzero : of_byte (F:=F) zero_byte = of_Z 0) by reflexivity.
  assert (H0 : load (replicate (bufferSize w h f) zero_byte) i
               = Some zero_byte).
  { rewrite <- (Z.add_0_r i). apply Hload. pose proof (bytesPerPixel_pos f).
    lia. }
  clearbody i. cbn [Image_new data_ format_].
  destruct f; simpl in Hload.
  all: rewrite ?H0, ?(Hload 1), ?(Hload 2), ?(Hload 3) by lia.
  all: cbn [mbind option_bind]; rewrite Hzero; reflexivity.
Qed.

Lemma new_image_is_blank_witness :
  getPixel (F:=Binary32.float) (Image_new 3 2 RGB) 2 1
  = Some (Color3 (of_Z 0) (of_Z 0) (of_Z 0)).
Proof. apply (new_image_is_blank 3 2 RGB 2 1); simpl; lia. Defined.

(** The byte a gray level is stored as when it is written as a colour. *)
Lemma gray_level_back (l : byte) :
  exists l' : byte,
    to_uint8 (F:=Binary32.float)
      (luminance (Color3 (of_byte l) (of_byte l) (of_byte l))) = Some l' /\
    byte_to_Z l' = if bool_decide (byte_to_Z l ∈ dimmed_levels)
                   then byte_to_Z l - 1 else byte_to_Z l.
Proof.
  destruct l; vm_compute; eexists; split; reflexivity.
Qed.

Lemma store_same (d : list byte) (i : Z) (v : byte) :
  load d i = Some v -> store d i v = Some d.
Proof.
  unfold load, store. intros Hl.
  pose proof (lookup_lt_Some _ _ _ Hl) as Hlt.
  destruct (Nat.ltb_spec (Z.to_nat i) (length d)); [|lia].
  by rewrite list_insert_id.
Qed.

Lemma with_data_same (img : Image) : with_data img (data_ img) = img.
Proof. by destruct img. Qed.

(** X10.  Writing back the colour just read from a pixel.  In the formats
    with colour channels the buffer is unchanged.  In a Grayscale buffer
    the colour read is [(l, l, l)], and what is stored is
    [0.299f * l + 0.587f * l + 0.114f * l] truncated, which in binary32 is
    [l - 1] for thirteen levels [l] and [l] for the others. *)
Theorem read_then_write_back (img : Image) (x y : Z)
    (c : Color Binary32.float) :
  wf img -> 0 <= x < width_ img -> 0 <= y < height_ img ->
  getPixel img x y = Some c ->
  (format_ img <> Grayscale -> setPixel img x y c = Some img) /\
  (format_ img = Grayscale ->
   exists (l l' : byte) (img' : Image),
     c = Color3 (of_byte l) (of_byte l) (of_byte l) /\
     setPixel img x y c = Some img' /\
     getPixel (F:=Binary32.float) img' x y
     = Some (Color3 (of_byte l') (of_byte l') (of_byte l')) /\
     byte_to_Z l' = if bool_decide (byte_to_Z l ∈ dimmed_levels)
                    then byte_to_Z l - 1 else byte_to_Z l).
Proof.
  intros Hwf Hx Hy Hget. split.
  - intros Hfmt. revert Hget. unfold getPixel, setPixel.
    rewrite in_bounds_true by lia.
    unfold getPixelUnsafe, setPixelUnsafe.
    set (i := getPixelIndex img x y).
    assert (Hb1 : to_uint8 (F:=Binary32.float) (of_Z 1) = Some x01)
      by apply to_uint8_one.
    destruct (format_ img); [| | | |done]; intros E.
    all: repeat match type of E with
         | context [load ?d ?j] =>
             let H := fresh "Hl" in
             destruct (load d j) as [?|] eqn:H;
             cbn [mbind option_bind] in E; [|done]
         end.
    all: apply (inj Some) in E as <-; unfold Color3; cbn [cr cg cb ca].
    all: rewrite ?to_uint8_of_byte; cbn [mbind option_bind].
    all: repeat (rewrite store_same by done; cbn [mbind option_bind];
                 rewrite ?to_uint8_of_byte; cbn [mbind option_bind]).
    all: by rewrite with_data_same.
  - intros Hfmt.
    destruct (getPixelIndex_wf img x y Hwf) as (_ & Hi0 & Hlen); [lia..|].
    pose proof Hget as Hget'. revert Hget'. unfold getPixel.
    rewrite in_bounds_true by lia. unfold getPixelUnsafe. rewrite Hfmt.
    destruct (load (data_ img) (getPixelIndex img x y)) as [l|] eqn:Hl;
      [|done].
    cbn [mbind option_bind]. intros [= <-].
    destruct (gray_level_back l) as (l' & Hl' & Hz).
    destruct (setPixel_spec (F:=Binary32.float) img x y
                (Color3 (of_byte l) (of_byte l) (of_byte l))
                (Color3 (of_byte l') (of_byte l') (of_byte l')))
      as (img' & Hset & _ & Hread & _); [done..| |].
    { rewrite Hfmt. unfold convert. rewrite Hl'. done. }
    exists l, l', img'. done.
Qed.

Lemma read_then_write_back_witness :
  let img := mkImage 1 1 Grayscale ["037"]%byte in
  let c : Color Binary32.float :=
    Color3 (of_byte "037"%byte) (of_byte "037"%byte) (of_byte "037"%byte) in
  (format_ img <> Grayscale -> setPixel img 0 0 c = Some img) /\
  (format_ img = Grayscale ->
   exists (l l' : byte) (img' : Image),
     c = Color3 (of_byte l) (of_byte l) (of_byte l) /\
     setPixel img 0 0 c = Some img' /\
     getPixel (F:=Binary32.float) img' 0 0
     = Some (Color3 (of_byte l') (of_byte l') (of_byte l')) /\
     byte_to_Z l' = if bool_decide (byte_to_Z l ∈ dimmed_levels)
                    then byte_to_Z l - 1 else byte_to_Z l).
Proof.
  apply (read_then_write_back (mkImage 1 1 Grayscale ["037"]%byte) 0 0).
  - unfold wf. simpl. repeat split; try lia; reflexivity.
  - simpl. lia.
  - simpl. lia.
  - reflexivity.
Defined.

Lemma getPixel_is_Some {F : Type} {AF : Arith F} img x y :
  wf img -> 0 <= x -> 0 <= y -> exists c, getPixel (F:=F) img x y = Some c.
Proof.
  intros Hwf Hx Hy. unfold getPixel, in_bounds.
  destruct (Z.ltb_spec x (width_ img)), (Z.ltb_spec y (height_ img)); simpl.
  2-4: by eexists.
  destruct (getPixelIndex_wf img x y Hwf) as (_ & Hi0 & Hlen); [lia..|].
  unfold getPixelUnsafe. set (i := getPixelIndex img x y) in *.
  unfold getBytesPerPixel in Hlen.
  destruct (format_ img); simpl in Hlen.
  all: repeat match goal with
       | |- context [load ?d ?j] =>
           let v := fresh "v" in
           destruct (load_is_Some d j) as [v ->]; [lia | lia |];
           cbn [mbind option_bind]
       end.
  all: by eexists.
Qed.

(** ** When a write is defined *)

(** X11.  [setPixel] inside a well-formed image is defined exactly when
    every channel the format stores converts to a byte, that is, truncates
    to a value from 0 to 255 (the luminance, for Grayscale); the float to
    [uint8_t] conversion is undefined otherwise.  When it is defined it
    keeps extent, format and byte count and changes no other pixel. *)
Theorem setPixel_defined_iff {F : Type} {AF : Arith F} (img : Image)
    (x y : Z) (c : Color F) :
  wf img -> 0 <= x < width_ img -> 0 <= y < height_ img ->
  (is_Some (setPixel img x y c) <-> is_Some (convert (format_ img) c)) /\
  (forall img', setPixel img x y c = Some img' ->
     wf img' /\ same_shape img img' /\
     getPixel img' x y = convert (format_ img) c /\
     forall x' y', 0 <= x' -> 0 <= y' -> (x', y') <> (x, y) ->
       getPixel (F:=F) img' x' y' = getPixel img x' y').
Proof.
  intros Hwf Hx Hy.
  pose proof (setPixel_getPixel img x y c Hwf Hx Hy) as Hrt.
  assert (Hpost : forall img', setPixel img x y c = Some img' ->
            wf img' /\ same_shape img img' /\
            getPixel img' x y = convert (format_ img) c /\
            forall x' y', 0 <= x' -> 0 <= y' -> (x', y') <> (x, y) ->
              getPixel (F:=F) img' x' y' = getPixel img x' y').
  { intros img' Hset. rewrite Hset in Hrt. cbn [mbind option_bind] in Hrt.
    pose proof (setPixel_shape img x y c img' Hset) as Hs.
    split; [by apply (same_shape_wf img)|]. split; [done|]. split; [done|].
    intros x' y' Hx' Hy' Hne.
    apply (setPixel_frame img x y c img' x' y'); try done; lia. }
  split; [|exact Hpost]. split.
  - intros [img' Hset]. destruct (Hpost img' Hset) as (Hwf' & _ & Hget & _).
    rewrite <- Hget.
    destruct (getPixel_is_Some (F:=F) img' x y Hwf') as [c' ->]; [lia..|].
    by eexists.
  - intros [c' Hc].
    destruct (setPixel_spec img x y c c') as (img' & -> & _); try done.
Qed.

Lemma setPixel_defined_iff_witness :
  let img := Image_new 1 1 RGBA in
  let c : Color Binary32.float :=
    mkColor (of_Z 256) (of_Z 0) (of_Z 0) (of_Z 0) in
  ((is_Some (setPixel img 0 0 c) <-> is_Some (convert (format_ img) c)) /\
   (forall img', setPixel img 0 0 c = Some img' ->
      wf img' /\ same_shape img img' /\
      getPixel img' 0 0 = convert (format_ img) c /\
      forall x' y', 0 <= x' -> 0 <= y' -> (x', y') <> (0, 0) ->
        getPixel (F:=Binary32.float) img' x' y' = getPixel img x' y')) /\
  setPixel img 0 0 c = None.
Proof.
  split; [|reflexivity].
  apply (setPixel_defined_iff (Image_new 1 1 RGBA) 0 0).
  - apply wf_Image_new; simpl; lia.
  - simpl. lia.
  - simpl. lia.
Defined.

(** ** Extents beyond [unsigned int] *)

Lemma store_None (d : list byte) (i : Z) (v : byte) :
  (length d <= Z.to_nat i)%nat -> store d i v = None.
Proof.
  intros Hi. unfold store.
  by destruct (Nat.ltb_spec (Z.to_nat i) (length d)); [lia|].
Qed.

Lemma load_None (d : list byte) (i : Z) :
  (length d <= Z.to_nat i)%nat -> load d i = None.
Proof. intros Hi. unfold load. by apply lookup_ge_None_2. Qed.

(** X12.  The byte count [width * height * bytesPerPixel] is computed in
    [unsigned int].  When the true product does not fit in 32 bits, the
    constructor allocates fewer bytes than the pixels need, and there is a
    pixel inside the image at which both [setPixel] and [getPixel] index the
    vector past its end, for every colour. *)
Theorem oversized_image_is_short {F : Type} {AF : Arith F} (w h : Z)
    (f : Format) :
  0 < w < 2 ^ 32 -> 0 < h < 2 ^ 32 -> 2 ^ 32 <= w * h * bytesPerPixel f ->
  Z.of_nat (length (data_ (Image_new w h f))) < w * h * bytesPerPixel f /\
  exists x y,
    0 <= x < w /\ 0 <= y < h /\
    (forall c : Color F, setPixel (Image_new w h f) x y c = None) /\
    getPixel (F:=F) (Image_new w h f) x y = None.
Proof.
  intros Hw Hh Hbig.
  pose proof (bytesPerPixel_pos f) as Hb.
  pose proof (Z.mod_pos_bound (w * h * bytesPerPixel f) (2 ^ 32) ltac:(lia))
    as HL.
  assert (Hlen : length (data_ (Image_new w h f))
                 = Z.to_nat ((w * h * bytesPerPixel f) mod 2 ^ 32)).
  { simpl. by rewrite length_replicate. }
  split; [rewrite Hlen; lia|].
  set (q := (2 ^ 32 - 1) / bytesPerPixel f).
  assert (Hq : 0 <= q /\ q * bytesPerPixel f < 2 ^ 32 /\ q < w * h /\
               (w * h * bytesPerPixel f) mod 2 ^ 32 <= q * bytesPerPixel f).
  { unfold q. destruct f; simpl bytesPerPixel in *.
    - change ((2 ^ 32 - 1) / 3) with 1431655765. lia.
    - change ((2 ^ 32 - 1) / 4) with 1073741823.
      replace (w * h * 4) with (4 * (w * h)) by lia.
      change (2 ^ 32) with (4 * 2 ^ 30).
      rewrite Z.mul_mod_distr_l by lia.
      pose proof (Z.mod_pos_bound (w * h) (2 ^ 30) ltac:(lia)). lia.
    - change ((2 ^ 32 - 1) / 3) with 1431655765. lia.
    - change ((2 ^ 32 - 1) / 4) with 1073741823.
      replace (w * h * 4) with (4 * (w * h)) by lia.
      change (2 ^ 32) with (4 * 2 ^ 30).
      rewrite Z.mul_mod_distr_l by lia.
      pose proof (Z.mod_pos_bound (w * h) (2 ^ 30) ltac:(lia)). lia.
    - change ((2 ^ 32 - 1) / 1) with 4294967295. lia. }
  destruct Hq as (Hq0 & Hq32 & HqN & HqL).
  pose proof (Z.div_mod q w ltac:(lia)) as Eq.
  pose proof (Z.mod_pos_bound q w ltac:(lia)) as Hx.
  assert (Hy : 0 <= q / w < h).
  { split; [apply Z.div_pos; lia|]. apply Z.div_lt_upper_bound; lia. }
  exists (q mod w), (q / w). split; [done|]. split; [done|].
  assert (Hidx : getPixelIndex (Image_new w h f) (q mod w) (q / w)
                 = q * bytesPerPixel f).
  { unfold getPixelIndex, getBytesPerPixel. simpl.
    replace (q / w * w + q mod w) with q by lia. apply u32_small. nia. }
  assert (Hst : forall (d : list byte) k v,
            length d = length (data_ (Image_new w h f)) -> 0 <= k ->
            store d (q * bytesPerPixel f + k) v = None).
  { intros d k v Hd Hk. apply store_None. rewrite Hd, Hlen. lia. }
  assert (Hld : forall k, 0 <= k ->
            load (data_ (Image_new w h f)) (q * bytesPerPixel f + k) = None).
  { intros k Hk. apply load_None. rewrite Hlen. lia. }
  pose proof (Hst (data_ (Image_new w h f))) as Hst0.
  pose proof (Hst0 0) as Hs0. pose proof (Hld 0) as Hl0.
  rewrite Z.add_0_r in Hs0, Hl0.
  split.
  - intros c. unfold setPixel. rewrite in_bounds_true by (simpl; lia).
    unfold setPixelUnsafe. rewrite Hidx.
    change (format_ (Image_new w h f)) with f.
    destruct f.
    + destruct (to_uint8 (cr c)); cbn [mbind option_bind]; [|done].
      by rewrite Hs0.
    + destruct (to_uint8 (cr c)); cbn [mbind option_bind]; [|done].
      by rewrite Hs0.
    + destruct (to_uint8 (cb c)); cbn [mbind option_bind]; [|done].
      by rewrite Hs0.
    + destruct (to_uint8 (cb c)); cbn [mbind option_bind]; [|done].
      by rewrite Hs0.
    + destruct (to_uint8 (luminance c)); cbn [mbind option_bind]; [|done].
      by rewrite Hs0.
  - unfold getPixel. rewrite in_bounds_true by (simpl; lia).
    unfold getPixelUnsafe. rewrite Hidx.
    change (format_ (Image_new w h f)) with f.
    destruct f; rewrite ?Hl0, ?(Hld 2) by lia; done.
Qed.

Lemma oversized_image_is_short_witness :
  Z.of_nat (length (data_ (Image_new 65536 65536 Grayscale)))
  < 65536 * 65536 * bytesPerPixel Grayscale /\
  exists x y,
    0 <= x < 65536 /\ 0 <= y < 65536 /\
    (forall c : Color Binary32.float,
       setPixel (Image_new 65536 65536 Grayscale) x y c = None) /\
    getPixel (F:=Binary32.float) (Image_new 65536 65536 Grayscale) x y = None.
Proof.
  apply (oversized_image_is_short 65536 65536 Grayscale); simpl; lia.
Defined.

(** ** Byte blocks *)

Lemma read_block_spec (d : list byte) (i n : Z) :
  0 <= i -> 0 <= n -> (Z.to_nat (i + n) <= length d)%nat ->
  exists block,
    read_block d i n = Some block /\ length block = Z.to_nat n /\
    forall k, 0 <= k < n -> load block k = load d (i + k).
Proof.
  intros Hi Hn Hlen. unfold read_block.
  destruct (Nat.leb_spec (Z.to_nat i + Z.to_nat n) (length d)); [|lia].
  eexists. split; [reflexivity|]. split.
  - rewrite length_take, length_drop. lia.
  - intros k Hk. unfold load. rewrite lookup_take_lt by lia.
    rewrite lookup_drop. f_equal. lia.
Qed.

Lemma write_block_spec (d : list byte) (i : Z) (block : list byte) :
  0 <= i -> (Z.to_nat i + length block <= length d)%nat ->
  exists d',
    write_block d i block = Some d' /\ length d' = length d /\
    forall j, 0 <= j ->
      load d' j = if decide (i <= j < i + Z.of_nat (length block))
                  then load block (j - i) else load d j.
Proof.
  intros Hi Hlen. unfold write_block.
  destruct (Nat.leb_spec (Z.to_nat i + length block) (length d)); [|lia].
  eexists. split; [reflexivity|]. split.
  - rewrite !length_app, length_take, length_drop. lia.
  - intros j Hj. unfold load.
    destruct (decide (i <= j < i + Z.of_nat (length block))) as [Hin|Hout].
    + rewrite lookup_app_r by (rewrite length_take; lia).
      rewrite length_take. rewrite lookup_app_l by lia. f_equal. lia.
    + destruct (decide (j < i)).
      * rewrite lookup_app_l by (rewrite length_take; lia).
        rewrite lookup_take_lt by lia. done.
      * rewrite lookup_app_r by (rewrite length_take; lia).
        rewrite length_take.
        rewrite lookup_app_r by lia. rewrite lookup_drop. f_equal. lia.
Qed.

Lemma element_Some (d : list byte) (i : Z) :
  (Z.to_nat i < length d)%nat -> element d i = Some i.
Proof.
  intros Hi. unfold element.
  by destruct (Nat.ltb_spec (Z.to_nat i) (length d)); [|lia].
Qed.

(** A byte offset inside a buffer of [w]-pixel rows determines its row, its
    pixel and its channel. *)
Lemma offset_bound (w b px k : Z) :
  0 <= px < w -> 0 <= k < b -> 0 <= px * b + k < w * b.
Proof. nia. Qed.

Lemma slot_cases (M o r y : Z) :
  0 <= o < M -> (y * M <= r * M + o < y * M + M <-> r = y).
Proof. nia. Qed.

Lemma load_ext (d d' : list byte) :
  length d' = length d ->
  (forall j, 0 <= j < Z.of_nat (length d) -> load d' j = load d j) -> d' = d.
Proof.
  intros Hlen Hload. apply list_eq. intros i.
  destruct (decide (i < length d)%nat) as [Hi|Hi].
  - specialize (Hload (Z.of_nat i)). unfold load in Hload.
    rewrite Nat2Z.id in Hload. apply Hload. lia.
  - rewrite !lookup_ge_None_2 by lia. done.
Qed.

(** ** Flips *)

(** One row of [flipHorizontally]: the pixels of the row at [start] are
    rewritten in reverse order; nothing else moves. *)
Lemma flip_row_bytes (w b start : Z) (d0 row : list byte) :
  0 < w -> 0 < b -> 0 <= start -> w * b < 2 ^ 32 ->
  (Z.to_nat (start + w * b) <= length d0)%nat ->
  length row = Z.to_nat (w * b) ->
  (forall o, 0 <= o < w * b -> load row o = load d0 (start + o)) ->
  exists d,
    for_loop 0 (Z.to_nat w) (fun x d =>
      let flippedX := u32 (w - 1 - x) in
      pixel ← read_block row (u32 (flippedX * b)) b;
      write_block d (start + u32 (x * b)) pixel) d0 = Some d /\
    length d = length d0 /\
    (forall px k, 0 <= px < w -> 0 <= k < b ->
       load d (start + (px * b + k))
       = load d0 (start + ((w - 1 - px) * b + k))) /\
    (forall j, 0 <= j -> j < start \/ start + w * b <= j ->
       load d j = load d0 j).
Proof.
  intros Hw Hb Hstart Hsize Hlen Hrow Hrowv.
  pose (P := fun (x : Z) (d : list byte) =>
    length d = length d0 /\
    (forall px k, 0 <= px < w -> 0 <= k < b ->
       load d (start + (px * b + k))
       = if decide (px < x) then load d0 (start + ((w - 1 - px) * b + k))
         else load d0 (start + (px * b + k))) /\
    (forall j, 0 <= j -> j < start \/ start + w * b <= j ->
       load d j = load d0 j)).
  destruct (for_loop_indexed P
              (fun x d =>
                 let flippedX := u32 (w - 1 - x) in
                 pixel ← read_block row (u32 (flippedX * b)) b;
                 write_block d (start + u32 (x * b)) pixel)
              (Z.to_nat w) 0 d0) as (d & Hrun & Hlen' & Hin & Hout).
  - split; [done|]. split; [|done].
    intros px k Hpx Hk. by rewrite decide_False by lia.
  - intros x d Hx (Hl & Hin & Hout). cbn zeta.
    pose proof (offset_bound w b x 0 ltac:(lia) ltac:(lia)) as Hox.
    pose proof (offset_bound w b (w - 1 - x) 0 ltac:(lia) ltac:(lia)) as Hof.
    assert (Hw32 : w < 2 ^ 32) by nia.
    rewrite (u32_small (w - 1 - x)) by lia.
    rewrite (u32_small ((w - 1 - x) * b)) by lia.
    rewrite (u32_small (x * b)) by lia.
    destruct (read_block_spec row ((w - 1 - x) * b) b)
      as (pixel & -> & Hpl & Hpv); [lia | lia | nia |].
    cbn [mbind option_bind].
    destruct (write_block_spec d (start + x * b) pixel)
      as (d' & -> & Hl' & Hv); [lia | nia |].
    exists d'. split; [done|]. split; [congruence|]. split.
    + intros px k Hpx Hk.
      pose proof (offset_bound w b px k Hpx Hk) as Hop.
      rewrite Hv by lia. rewrite Hpl.
      destruct (decide (px = x)) as [->|Hne].
      * rewrite decide_True by lia. rewrite decide_True by lia.
        replace (start + (x * b + k) - (start + x * b)) with k by lia.
        rewrite Hpv by lia. rewrite Hrowv by nia. done.
      * rewrite decide_False by nia. rewrite Hin by done.
        destruct (decide (px < x)), (decide (px < x + 1)); try lia; done.
    + intros j Hj Hjo. rewrite Hv by done. rewrite Hpl.
      rewrite decide_False by nia. by apply Hout.
  - exists d. split; [exact Hrun|]. split; [done|]. split; [|done].
    intros px k Hpx Hk. rewrite Hin by done.
    rewrite decide_True by lia. done.
Qed.

(** The bytes after [flipHorizontally]: channel [k] of pixel [px] of row [r]
    holds what channel [k] of the mirrored pixel held. *)
Lemma flipHorizontally_bytes (img : Image) :
  wf img -> 0 < width_ img ->
  exists d,
    flipHorizontally img = Some (with_data img d) /\
    length d = length (data_ img) /\
    forall r px k,
      0 <= r < height_ img -> 0 <= px < width_ img ->
      0 <= k < getBytesPerPixel img ->
      load d (r * (width_ img * getBytesPerPixel img) + (px * getBytesPerPixel img + k))
      = load (data_ img)
          (r * (width_ img * getBytesPerPixel img)
           + ((width_ img - 1 - px) * getBytesPerPixel img + k)).
Proof.
  intros (Hw0 & Hh0 & Hsize & Hlen) Hw. unfold flipHorizontally.
  pose proof (bytesPerPixel_pos (format_ img)) as Hb.
  fold (getBytesPerPixel img) in Hb.
  set (w := width_ img) in *. set (h := height_ img) in *.
  set (b := getBytesPerPixel img) in *. set (D := data_ img) in *.
  destruct (decide (h = 0)) as [Hh|Hh].
  { rewrite Hh. simpl. exists D. split; [done|]. split; [done|]. lia. }
  assert (HM : 0 < w * b < 2 ^ 32) by nia.
  rewrite (u32_small (w * b)) by lia.
  pose (P := fun (y : Z) (d : list byte) =>
    length d = length D /\
    forall r px k, 0 <= r < h -> 0 <= px < w -> 0 <= k < b ->
      load d (r * (w * b) + (px * b + k))
      = if decide (r < y)
        then load D (r * (w * b) + ((w - 1 - px) * b + k))
        else load D (r * (w * b) + (px * b + k))).
  destruct (for_loop_indexed P
              (fun y d =>
                 rowStart ← element d (u32 (y * (w * b)));
                 row ← read_block d rowStart (w * b);
                 for_loop 0 (Z.to_nat w) (fun x d =>
                   let flippedX := u32 (w - 1 - x) in
                   pixel ← read_block row (u32 (flippedX * b)) b;
                   write_block d (rowStart + u32 (x * b)) pixel) d)
              (Z.to_nat h) 0 D) as (d & Hrun & Hl & Hv).
  - split; [done|]. intros r px k Hr Hpx Hk. by rewrite decide_False by lia.
  - intros y d Hy (Hl & Hv).
    assert (Hrow : 0 <= y * (w * b) /\ y * (w * b) + w * b <= w * h * b)
      by nia.
    rewrite (u32_small (y * (w * b))) by lia.
    rewrite element_Some by lia. cbn [mbind option_bind].
    destruct (read_block_spec d (y * (w * b)) (w * b))
      as (row & -> & Hrl & Hrv); [lia..|]. cbn [mbind option_bind].
    destruct (flip_row_bytes w b (y * (w * b)) d row)
      as (d' & Hrun' & Hl' & Hin & Hout); try done; try lia.
    exists d'. split; [exact Hrun'|]. split; [congruence|].
    intros r px k Hr Hpx Hk.
    pose proof (offset_bound w b px k Hpx Hk) as Ho.
    pose proof (offset_bound w b (w - 1 - px) k ltac:(lia) Hk) as Ho'.
    destruct (decide (r = y)) as [->|Hne].
    + rewrite Hin by done. rewrite Hv by (done || lia).
      rewrite decide_False by lia. rewrite decide_True by lia. done.
    + pose proof (slot_cases (w * b) (px * b + k) r y Ho) as Hs.
      rewrite Hout by lia. rewrite Hv by done.
      destruct (decide (r < y)), (decide (r < y + 1)); try lia; done.
  - exists d. split.
    { match goal with |- ?l ≫= _ = _ =>
        replace l with (Some d) by (symmetry; exact Hrun) end. done. }
    split; [done|].
    intros r px k Hr Hpx Hk. rewrite Hv by done.
    rewrite decide_True by lia. done.
Qed.

(** Two pixels whose bytes agree read as the same colour. *)
Lemma getPixel_loads {F : Type} {AF : Arith F} (img img' : Image)
    (x y x' y' : Z) :
  format_ img' = format_ img ->
  x < width_ img -> y < height_ img -> x' < width_ img' -> y' < height_ img' ->
  (forall k, 0 <= k < getBytesPerPixel img ->
     load (data_ img') (getPixelIndex img' x' y' + k)
     = load (data_ img) (getPixelIndex img x y + k)) ->
  getPixel (F:=F) img' x' y' = getPixel img x y.
Proof.
  intros Hf Hx Hy Hx' Hy' Hk. unfold getPixel.
  rewrite !in_bounds_true by done. unfold getPixelUnsafe. rewrite Hf.
  pose proof (Hk 0) as H0. rewrite !Z.add_0_r in H0.
  unfold getBytesPerPixel in *.
  destruct (format_ img); simpl in *;
    rewrite ?H0, ?(Hk 1), ?(Hk 2), ?(Hk 3) by lia; done.
Qed.

(** X13.  [flipHorizontally] mirrors every row: on a well-formed image of
    positive width it runs to its end, keeps extent and format, and pixel
    [(x, y)] afterwards is pixel [(width - 1 - x, y)] before. *)
Theorem flipHorizontally_mirrors_rows {F : Type} {AF : Arith F}
    (img : Image) :
  wf img -> 0 < width_ img ->
  exists img',
    flipHorizontally img = Some img' /\ same_shape img img' /\
    forall x y, 0 <= x < width_ img -> 0 <= y < height_ img ->
      getPixel (F:=F) img' x y = getPixel img (width_ img - 1 - x) y.
Proof.
  intros Hwf Hw.
  destruct (flipHorizontally_bytes img Hwf Hw) as (d & Hrun & Hl & Hv).
  exists (with_data img d). split; [done|].
  split; [by unfold same_shape, with_data|].
  intros x y Hx Hy.
  destruct (getPixelIndex_wf img x y Hwf Hx Hy) as (Hi & _).
  destruct (getPixelIndex_wf img (width_ img - 1 - x) y Hwf) as (Hi' & _);
    [lia..|].
  apply getPixel_loads; simpl; try done; try lia.
  intros k Hk.
  assert (Hidx : getPixelIndex (with_data img d) x y = getPixelIndex img x y)
    by done.
  rewrite Hidx, Hi, Hi'.
  replace ((y * width_ img + x) * getBytesPerPixel img + k)
    with (y * (width_ img * getBytesPerPixel img)
          + (x * getBytesPerPixel img + k)) by lia.
  replace ((y * width_ img + (width_ img - 1 - x)) * getBytesPerPixel img + k)
    with (y * (width_ img * getBytesPerPixel img)
          + ((width_ img - 1 - x) * getBytesPerPixel img + k)) by lia.
  by apply Hv.
Qed.

Lemma flipHorizontally_mirrors_rows_witness :
  let img := mkImage 2 1 Grayscale ["010"; "020"]%byte in
  exists img',
    flipHorizontally img = Some img' /\ same_shape img img' /\
    forall x y, 0 <= x < width_ img -> 0 <= y < height_ img ->
      getPixel (F:=Binary32.float) img' x y
      = getPixel img (width_ img - 1 - x) y.
Proof.
  apply (flipHorizontally_mirrors_rows
           (mkImage 2 1 Grayscale ["010"; "020"]%byte)).
  - unfold wf. simpl. repeat split; try lia; reflexivity.
  - simpl. lia.
Defined.

Lemma offset_split (w h b j : Z) :
  0 < w -> 0 < b -> 0 <= j < h * (w * b) ->
  exists r px k,
    0 <= r < h /\ 0 <= px < w /\ 0 <= k < b /\ j = r * (w * b) + (px * b + k).
Proof.
  intros Hw Hb Hj.
  assert (HM : 0 < w * b) by nia.
  exists (j / (w * b)), (j mod (w * b) / b), (j mod (w * b) mod b).
  pose proof (Z.mod_pos_bound j (w * b) HM) as Ho.
  pose proof (Z.mod_pos_bound (j mod (w * b)) b Hb) as Hk.
  pose proof (Z.div_mod j (w * b) ltac:(lia)) as Ej.
  pose proof (Z.div_mod (j mod (w * b)) b ltac:(lia)) as Eo.
  split; [split; [apply Z.div_pos; lia | apply Z.div_lt_upper_bound; lia]|].
  split; [split; [apply Z.div_pos; lia | apply Z.div_lt_upper_bound; lia]|].
  split; [done|]. lia.
Qed.

(** X14.  [flipHorizontally] is its own inverse: applied twice to a
    well-formed image of positive width, it gives back the very same
    buffer. *)
Theorem flipHorizontally_twice (img : Image) :
  wf img -> 0 < width_ img ->
  exists img',
    flipHorizontally img = Some img' /\ flipHorizontally img' = Some img.
Proof.
  intros Hwf Hw.
  destruct (flipHorizontally_bytes img Hwf Hw) as (d & Hrun & Hl & Hv).
  exists (with_data img d). split; [done|].
  assert (Hwf' : wf (with_data img d)).
  { apply (same_shape_wf img); [|done]. by unfold same_shape, with_data. }
  destruct (flipHorizontally_bytes (with_data img d) Hwf' Hw)
    as (d2 & Hrun2 & Hl2 & Hv2).
  rewrite Hrun2. f_equal. simpl in *.
  assert (d2 = data_ img) as ->; [|by destruct img].
  apply load_ext; [congruence|].
  intros j Hj. destruct Hwf as (Hw0 & Hh0 & Hsize & Hlen).
  pose proof (bytesPerPixel_pos (format_ img)) as Hb.
  fold (getBytesPerPixel img) in Hb.
  destruct (offset_split (width_ img) (height_ img) (getBytesPerPixel img) j)
    as (r & px & k & Hr & Hpx & Hk & ->); [lia | lia | |].
  { rewrite Hlen in Hj. unfold getBytesPerPixel in *. nia. }
  change (getBytesPerPixel (with_data img d)) with (getBytesPerPixel img)
    in Hv2.
  rewrite Hv2 by done. rewrite Hv by (done || lia).
  f_equal. lia.
Qed.

Lemma flipHorizontally_twice_witness :
  exists img',
    flipHorizontally (mkImage 2 1 Grayscale ["010"; "020"]%byte) = Some img' /\
    flipHorizontally img' = Some (mkImage 2 1 Grayscale ["010"; "020"]%byte).
Proof.
  apply flipHorizontally_twice.
  - unfold wf. simpl. repeat split; try lia; reflexivity.
  - simpl. lia.
Defined.

(** The bytes after [flipVertically]: row [r] holds what row
    [height - 1 - r] held. *)
Lemma flipVertically_bytes (img : Image) :
  wf img -> 0 < width_ img ->
  exists d,
    flipVertically img = Some (with_data img d) /\
    length d = length (data_ img) /\
    forall r o,
      0 <= r < height_ img -> 0 <= o < width_ img * getBytesPerPixel img ->
      load d (r * (width_ img * getBytesPerPixel img) + o)
      = load (data_ img)
          ((height_ img - 1 - r) * (width_ img * getBytesPerPixel img) + o).
Proof.
  intros (Hw0 & Hh0 & Hsize & Hlen) Hw. unfold flipVertically.
  pose proof (bytesPerPixel_pos (format_ img)) as Hb.
  fold (getBytesPerPixel img) in Hb.
  set (w := width_ img) in *. set (h := height_ img) in *.
  set (b := getBytesPerPixel img) in *. set (D := data_ img) in *.
  pose proof (Z.div_mod h 2 ltac:(lia)) as Hh2.
  pose proof (Z.mod_pos_bound h 2 ltac:(lia)) as Hh2'.
  destruct (decide (h = 0)) as [Hh|Hh].
  { rewrite Hh. simpl. exists D. split; [done|]. split; [done|]. lia. }
  assert (HM : 0 < w * b < 2 ^ 32) by nia.
  assert (Hh32 : h < 2 ^ 32) by nia.
  set (M := w * b) in *.
  rewrite (u32_small M) by lia.
  pose (P := fun (y : Z) (d : list byte) =>
    length d = length D /\
    forall r o, 0 <= r < h -> 0 <= o < M ->
      load d (r * M + o)
      = if decide (r < y \/ h - 1 - y < r)
        then load D ((h - 1 - r) * M + o)
        else load D (r * M + o)).
  destruct (for_loop_indexed P
              (fun y d =>
                 let flippedY := u32 (h - 1 - y) in
                 topRow ← element d (u32 (y * M));
                 bottomRow ← element d (u32 (flippedY * M));
                 row ← read_block d topRow M;
                 d ← move_block d topRow bottomRow M;
                 write_block d bottomRow row)
              (Z.to_nat (h / 2)) 0 D) as (d & Hrun & Hl & Hv).
  - split; [done|]. intros r o Hr Ho. by rewrite decide_False by lia.
  - intros y d Hy (Hl & Hv). cbn zeta.
    assert (Hy' : 0 <= y /\ y < h - 1 - y) by lia.
    assert (Htop : 0 <= y * M /\ y * M + M <= (h - 1 - y) * M) by nia.
    assert (Hbot : (h - 1 - y) * M + M <= w * h * b) by (unfold M; nia).
    rewrite (u32_small (h - 1 - y)) by lia.
    rewrite (u32_small (y * M)) by lia.
    rewrite (u32_small ((h - 1 - y) * M)) by lia.
    rewrite !element_Some by lia. cbn [mbind option_bind].
    destruct (read_block_spec d (y * M) M)
      as (row & -> & Hrl & Hrv); [lia..|]. cbn [mbind option_bind].
    unfold move_block.
    destruct (Z.leb_spec (y * M + M) ((h - 1 - y) * M)); [|lia].
    cbn [orb].
    destruct (read_block_spec d ((h - 1 - y) * M) M)
      as (block & -> & Hbl & Hbv); [lia..|]. cbn [mbind option_bind].
    destruct (write_block_spec d (y * M) block)
      as (d1 & -> & Hl1 & Hv1); [lia | lia |]. cbn [mbind option_bind].
    destruct (write_block_spec d1 ((h - 1 - y) * M) row)
      as (d2 & -> & Hl2 & Hv2); [lia | lia |].
    exists d2. split; [done|]. split; [congruence|].
    intros r o Hr Ho.
    pose proof (slot_cases M o r y Ho) as Hs1.
    pose proof (slot_cases M o r (h - 1 - y) Ho) as Hs2.
    rewrite Hv2 by nia. rewrite Hrl.
    destruct (decide (r = h - 1 - y)) as [->|Hne2].
    + rewrite decide_True by lia.
      replace ((h - 1 - y) * M + o - (h - 1 - y) * M) with o by lia.
      rewrite Hrv by lia. rewrite Hv by lia.
      rewrite decide_False by lia. rewrite decide_True by lia.
      f_equal. lia.
    + rewrite decide_False by lia. rewrite Hv1 by nia. rewrite Hbl.
      destruct (decide (r = y)) as [->|Hne1].
      * rewrite decide_True by lia.
        replace (y * M + o - y * M) with o by lia.
        rewrite Hbv by lia. rewrite Hv by lia.
        rewrite decide_False by lia. rewrite decide_True by lia. done.
      * rewrite decide_False by lia. rewrite Hv by done.
        destruct (decide (r < y \/ h - 1 - y < r)),
                 (decide (r < y + 1 \/ h - 1 - (y + 1) < r)); try lia; done.
  - exists d. split.
    { match goal with |- ?l ≫= _ = _ =>
        replace l with (Some d) by (symmetry; exact Hrun) end. done. }
    split; [done|].
    intros r o Hr Ho. rewrite Hv by done.
    rewrite Z2Nat.id by (apply Z.div_pos; lia).
    destruct (decide (r < 0 + h / 2 \/ h - 1 - (0 + h / 2) < r)); [done|].
    assert (Hmid : h - 1 - r = r) by lia. rewrite Hmid. done.
Qed.

(** X15.  [flipVertically] mirrors the rows: on a well-formed image of
    positive width it runs to its end, keeps extent and format, and pixel
    [(x, y)] afterwards is pixel [(x, height - 1 - y)] before. *)
Theorem flipVertically_mirrors_columns {F : Type} {AF : Arith F}
    (img : Image) :
  wf img -> 0 < width_ img ->
  exists img',
    flipVertically img = Some img' /\ same_shape img img' /\
    forall x y, 0 <= x < width_ img -> 0 <= y < height_ img ->
      getPixel (F:=F) img' x y = getPixel img x (height_ img - 1 - y).
Proof.
  intros Hwf Hw.
  destruct (flipVertically_bytes img Hwf Hw) as (d & Hrun & Hl & Hv).
  exists (with_data img d). split; [done|].
  split; [by unfold same_shape, with_data|].
  intros x y Hx Hy.
  destruct (getPixelIndex_wf img x y Hwf Hx Hy) as (Hi & _).
  destruct (getPixelIndex_wf img x (height_ img - 1 - y) Hwf) as (Hi' & _);
    [lia..|].
  apply getPixel_loads; simpl; try done; try lia.
  intros k Hk.
  assert (Hidx : getPixelIndex (with_data img d) x y = getPixelIndex img x y)
    by done.
  rewrite Hidx, Hi, Hi'.
  pose proof (offset_bound (width_ img) (getBytesPerPixel img) x k Hx Hk).
  replace ((y * width_ img + x) * getBytesPerPixel img + k)
    with (y * (width_ img * getBytesPerPixel img)
          + (x * getBytesPerPixel img + k)) by lia.
  replace (((height_ img - 1 - y) * width_ img + x) * getBytesPerPixel img + k)
    with ((height_ img - 1 - y) * (width_ img * getBytesPerPixel img)
          + (x * getBytesPerPixel img + k)) by lia.
  by apply Hv.
Qed.

Lemma flipVertically_mirrors_columns_witness :
  let img := mkImage 1 2 Grayscale ["010"; "020"]%byte in
  exists img',
    flipVertically img = Some img' /\ same_shape img img' /\
    forall x y, 0 <= x < width_ img -> 0 <= y < height_ img ->
      getPixel (F:=Binary32.float) img' x y
      = getPixel img x (height_ img - 1 - y).
Proof.
  apply (flipVertically_mirrors_columns
           (mkImage 1 2 Grayscale ["010"; "020"]%byte)).
  - unfold wf. simpl. repeat split; try lia; reflexivity.
  - simpl. lia.
Defined.

Lemma with_data_wf (img : Image) (d : list byte) :
  wf img -> length d = length (data_ img) -> wf (with_data img d).
Proof.
  intros Hwf Hl. apply (same_shape_wf img); [|done].
  by unfold same_shape, with_data.
Qed.

(** X16.  [flipVertically] is its own inverse: applied twice to a
    well-formed image of positive width, it gives back the very same
    buffer. *)
Theorem flipVertically_twice (img : Image) :
  wf img -> 0 < width_ img ->
  exists img',
    flipVertically img = Some img' /\ flipVertically img' = Some img.
Proof.
  intros Hwf Hw.
  destruct (flipVertically_bytes img Hwf Hw) as (d & Hrun & Hl & Hv).
  exists (with_data img d). split; [done|].
  destruct (flipVertically_bytes (with_data img d)
              (with_data_wf img d Hwf Hl) Hw) as (d2 & Hrun2 & Hl2 & Hv2).
  rewrite Hrun2. f_equal. simpl in *.
  assert (d2 = data_ img) as ->; [|by destruct img].
  apply load_ext; [congruence|].
  intros j Hj. destruct Hwf as (Hw0 & Hh0 & Hsize & Hlen).
  pose proof (bytesPerPixel_pos (format_ img)) as Hb.
  fold (getBytesPerPixel img) in Hb.
  destruct (offset_split (width_ img) (height_ img) (getBytesPerPixel img) j)
    as (r & px & k & Hr & Hpx & Hk & ->); [lia | lia | |].
  { rewrite Hlen in Hj. unfold getBytesPerPixel in *. nia. }
  pose proof (offset_bound _ _ px k Hpx Hk) as Ho.
  change (getBytesPerPixel (with_data img d)) with (getBytesPerPixel img)
    in Hv2.
  rewrite Hv2 by done. rewrite Hv by (done || lia).
  f_equal. lia.
Qed.

Lemma flipVertically_twice_witness :
  exists img',
    flipVertically (mkImage 1 2 Grayscale ["010"; "020"]%byte) = Some img' /\
    flipVertically img' = Some (mkImage 1 2 Grayscale ["010"; "020"]%byte).
Proof.
  apply flipVertically_twice.
  - unfold wf. simpl. repeat split; try lia; reflexivity.
  - simpl. lia.
Defined.

(** X17.  The two flips commute: flipping a well-formed image of positive
    width horizontally and then vertically gives the same buffer as
    flipping it vertically and then horizontally, and in that buffer pixel
    [(x, y)] is pixel [(width - 1 - x, height - 1 - y)] of the original. *)
Theorem flips_commute {F : Type} {AF : Arith F} (img : Image) :
  wf img -> 0 < width_ img ->
  exists imgH imgV img',
    flipHorizontally img = Some imgH /\ flipVertically imgH = Some img' /\
    flipVertically img = Some imgV /\ flipHorizontally imgV = Some img' /\
    forall x y, 0 <= x < width_ img -> 0 <= y < height_ img ->
      getPixel (F:=F) img' x y
      = getPixel img (width_ img - 1 - x) (height_ img - 1 - y).
Proof.
  intros Hwf Hw.
  destruct (flipHorizontally_bytes img Hwf Hw) as (dH & HrunH & HlH & HvH).
  destruct (flipVertically_bytes img Hwf Hw) as (dV & HrunV & HlV & HvV).
  destruct (flipVertically_bytes (with_data img dH)
              (with_data_wf img dH Hwf HlH) Hw) as (dHV & HrunHV & HlHV & HvHV).
  destruct (flipHorizontally_bytes (with_data img dV)
              (with_data_wf img dV Hwf HlV) Hw) as (dVH & HrunVH & HlVH & HvVH).
  simpl in *.
  change (getBytesPerPixel (with_data img dH)) with (getBytesPerPixel img)
    in HvHV.
  change (getBytesPerPixel (with_data img dV)) with (getBytesPerPixel img)
    in HvVH.
  pose proof Hwf as (Hw0 & Hh0 & Hsize & Hlen).
  pose proof (bytesPerPixel_pos (format_ img)) as Hb.
  fold (getBytesPerPixel img) in Hb.
  assert (Hbytes : forall r px k,
            0 <= r < height_ img -> 0 <= px < width_ img ->
            0 <= k < getBytesPerPixel img ->
            load dHV (r * (width_ img * getBytesPerPixel img)
                      + (px * getBytesPerPixel img + k))
            = load (data_ img)
                ((height_ img - 1 - r) * (width_ img * getBytesPerPixel img)
                 + ((width_ img - 1 - px) * getBytesPerPixel img + k))).
  { intros r px k Hr Hpx Hk.
    pose proof (offset_bound _ _ px k Hpx Hk) as Ho.
    rewrite HvHV by done. rewrite HvH by (done || lia). done. }
  assert (Heq : dVH = dHV).
  { apply load_ext; [congruence|].
    intros j Hj.
    destruct (offset_split (width_ img) (height_ img)
                (getBytesPerPixel img) j)
      as (r & px & k & Hr & Hpx & Hk & ->); [lia | lia | |].
    { rewrite HlHV, HlH, Hlen in Hj. unfold getBytesPerPixel in *. nia. }
    pose proof (offset_bound (width_ img) (getBytesPerPixel img)
                  (width_ img - 1 - px) k ltac:(lia) Hk) as Ho.
    rewrite Hbytes by done. rewrite HvVH by done. rewrite HvV by (done || lia).
    done. }
  exists (with_data img dH), (with_data img dV), (with_data img dHV).
  split; [done|]. split; [done|]. split; [done|].
  split; [by rewrite HrunVH, Heq|].
  intros x y Hx Hy.
  destruct (getPixelIndex_wf img x y Hwf Hx Hy) as (Hi & _).
  destruct (getPixelIndex_wf img (width_ img - 1 - x) (height_ img - 1 - y)
              Hwf) as (Hi' & _); [lia..|].
  apply getPixel_loads; simpl; try done; try lia.
  intros k Hk.
  assert (Hidx : getPixelIndex (with_data img dHV) x y
                 = getPixelIndex img x y) by done.
  rewrite Hidx, Hi, Hi'.
  replace ((y * width_ img + x) * getBytesPerPixel img + k)
    with (y * (width_ img * getBytesPerPixel img)
          + (x * getBytesPerPixel img + k)) by lia.
  replace (((height_ img - 1 - y) * width_ img + (width_ img - 1 - x))
           * getBytesPerPixel img + k)
    with ((height_ img - 1 - y) * (width_ img * getBytesPerPixel img)
          + ((width_ img - 1 - x) * getBytesPerPixel img + k)) by lia.
  by apply Hbytes.
Qed.

Lemma flips_commute_witness :
  let img := mkImage 2 2 Grayscale ["010"; "020"; "030"; "040"]%byte in
  exists imgH imgV img',
    flipHorizontally img = Some imgH /\ flipVertically imgH = Some img' /\
    flipVertically img = Some imgV /\ flipHorizontally imgV = Some img' /\
    forall x y, 0 <= x < width_ img -> 0 <= y < height_ img ->
      getPixel (F:=Binary32.float) img' x y
      = getPixel img (width_ img - 1 - x) (height_ img - 1 - y).
Proof.
  apply (flips_commute
           (mkImage 2 2 Grayscale ["010"; "020"; "030"; "040"]%byte)).
  - unfold wf. simpl. repeat split; try lia; reflexivity.
  - simpl. lia.
Defined.

(** ** The grayscale filter *)

(** A loop whose last iteration has no result has none. *)
Lemma for_loop_fails {S : Type} (P : S -> Prop) (body : Z -> S -> option S)
    (n : nat) :
  forall (lo : Z) (s : S),
    P s ->
    (forall i s s', P s -> body i s = Some s' -> P s') ->
    (forall s, P s -> body (lo + Z.of_nat n) s = None) ->
    for_loop lo (Datatypes.S n) body s = None.
Proof.
  induction n as [|n IH]; intros lo s Hs Hkeep Hlast.
  - simpl. rewrite Z.add_0_r in Hlast. by rewrite Hlast.
  - rewrite for_loop_step.
    destruct (body lo s) as [s1|] eqn:E; [|done]. simpl.
    apply IH; [by eapply Hkeep | done |].
    intros s2 Hs2. replace (lo + 1 + Z.of_nat n)
      with (lo + Z.of_nat (Datatypes.S n)) by lia. by apply Hlast.
Qed.

Lemma gray_step_length {F : Type} {AF : Arith F} (b i : Z) (d d' : list byte) :
  gray_step (F:=F) b i d = Some d' -> length d' = length d.
Proof.
  unfold gray_step. intros E.
  repeat match type of E with
  | (?m ≫= _) = Some _ =>
      destruct m eqn:?; cbn [mbind option_bind] in E; [|done]
  end.
  repeat match goal with
  | H : store _ _ _ = Some _ |- _ => apply store_inv in H as [_ ->]
  end.
  by rewrite !length_insert.
Qed.

(** X18.  [applyGrayscale] on a Grayscale buffer that holds at least one
    pixel has no defined result: such a buffer has one byte per pixel, and
    the filter reads and writes three bytes from each pixel on, so that at
    the last pixel it runs past the end of the vector. *)
Theorem applyGrayscale_overruns_grayscale {F : Type} {AF : Arith F}
    (img : Image) :
  wf img -> format_ img = Grayscale -> 0 < width_ img -> 0 < height_ img ->
  applyGrayscale (F:=F) img = None.
Proof.
  intros (Hw0 & Hh0 & Hsize & Hlen) Hfmt Hw Hh. unfold applyGrayscale.
  unfold getBytesPerPixel in *. rewrite Hfmt in *. simpl in Hsize, Hlen.
  cbn [bytesPerPixel].
  assert (Hn : 0 < width_ img * height_ img < 2 ^ 32) by nia.
  rewrite (u32_small (width_ img * height_ img)) by lia.
  set (n := width_ img * height_ img) in *.
  assert (Hnat : Z.to_nat n = Datatypes.S (Z.to_nat (n - 1))) by lia.
  rewrite Hnat.
  rewrite (for_loop_fails (fun d => length d = Z.to_nat n)); [done| | |].
  - rewrite Hlen. f_equal. lia.
  - intros i d d' Hd E. apply gray_step_length in E. congruence.
  - intros d Hd. unfold gray_step.
    rewrite Z2Nat.id by lia. rewrite Z.add_0_l, Z.mul_1_r.
    rewrite (u32_small (n - 1)) by lia.
    rewrite element_Some by lia. cbn [mbind option_bind].
    destruct (load d (n - 1)) as [p0|]; [|done]. cbn [mbind option_bind].
    assert (load d (n - 1 + 1) = None) as ->; [|done].
    unfold load. apply lookup_ge_None_2. lia.
Qed.

Lemma applyGrayscale_overruns_grayscale_witness :
  applyGrayscale (F:=Binary32.float) (mkImage 2 2 Grayscale
                                       ["010"; "020"; "030"; "040"]%byte)
  = None.
Proof.
  apply applyGrayscale_overruns_grayscale.
  - unfold wf. simpl. repeat split; try lia; reflexivity.
  - reflexivity.
  - simpl. lia.
  - simpl. lia.
Defined.

Lemma store_spec (d : list byte) (i : Z) (v : byte) :
  0 <= i -> (Z.to_nat i < length d)%nat ->
  exists d',
    store d i v = Some d' /\ length d' = length d /\
    forall j, 0 <= j ->
      load d' j = if decide (j = i) then Some v else load d j.
Proof.
  intros Hi Hlt. rewrite store_Some by done. eexists. split; [done|].
  split; [by rewrite length_insert|].
  intros j Hj. destruct (decide (j = i)) as [->|Hne].
  - by apply load_insert_eq.
  - apply load_insert_ne. lia.
Qed.

(** The bytes after [applyGrayscale] on a buffer of at least three bytes
    per pixel: the first three bytes of every pixel hold its gray level,
    a fourth byte is kept. *)
Lemma applyGrayscale_bytes {F : Type} {AF : Arith F} (img : Image) :
  (forall q p0 p1 p2,
     0 <= q < width_ img * height_ img ->
     load (data_ img) (q * getBytesPerPixel img) = Some p0 ->
     load (data_ img) (q * getBytesPerPixel img + 1) = Some p1 ->
     load (data_ img) (q * getBytesPerPixel img + 2) = Some p2 ->
     is_Some (to_uint8 (F:=F) (gray_level p0 p1 p2))) ->
  wf img -> format_ img <> Grayscale ->
  exists d,
    applyGrayscale (F:=F) img = Some (with_data img d) /\
    length d = length (data_ img) /\
    forall q k,
      0 <= q < width_ img * height_ img -> 0 <= k < getBytesPerPixel img ->
      load d (q * getBytesPerPixel img + k)
      = if decide (k < 3)
        then p0 ← load (data_ img) (q * getBytesPerPixel img);
             p1 ← load (data_ img) (q * getBytesPerPixel img + 1);
             p2 ← load (data_ img) (q * getBytesPerPixel img + 2);
             to_uint8 (F:=F) (gray_level p0 p1 p2)
        else load (data_ img) (q * getBytesPerPixel img + k).
Proof.
  intros Hgray (Hw0 & Hh0 & Hsize & Hlen) Hfmt. unfold applyGrayscale.
  assert (Hb : 3 <= getBytesPerPixel img <= 4)
    by (unfold getBytesPerPixel; destruct (format_ img); simpl; done || lia).
  set (b := getBytesPerPixel img) in *. set (D := data_ img) in *.
  assert (Hn : 0 <= width_ img * height_ img < 2 ^ 32) by nia.
  rewrite (u32_small (width_ img * height_ img)) by lia.
  set (n := width_ img * height_ img) in *.
  assert (HL : length D = Z.to_nat (n * b)) by (rewrite Hlen; f_equal; lia).
  pose (gray := fun q : Z =>
    p0 ← load D (q * b); p1 ← load D (q * b + 1); p2 ← load D (q * b + 2);
    to_uint8 (F:=F) (gray_level p0 p1 p2)).
  pose (P := fun (i : Z) (d : list byte) =>
    length d = length D /\
    forall q k, 0 <= q < n -> 0 <= k < b ->
      load d (q * b + k)
      = if decide (q < i /\ k < 3) then gray q else load D (q * b + k)).
  destruct (for_loop_indexed P (gray_step (F:=F) b) (Z.to_nat n) 0 D)
    as (d & Hrun & Hl & Hv).
  - split; [done|]. intros q k Hq Hk. by rewrite decide_False by lia.
  - intros i d Hi (Hl & Hv). unfold gray_step.
    assert (Hib : 0 <= i * b /\ i * b + b <= n * b) by nia.
    rewrite (u32_small (i * b)) by nia.
    rewrite element_Some by lia. cbn [mbind option_bind].
    pose proof (Hv i 0 ltac:(lia) ltac:(lia)) as H0.
    pose proof (Hv i 1 ltac:(lia) ltac:(lia)) as H1.
    pose proof (Hv i 2 ltac:(lia) ltac:(lia)) as H2.
    rewrite decide_False in H0, H1, H2 by lia. rewrite Z.add_0_r in H0.
    destruct (load_is_Some D (i * b)) as [p0 Hp0]; [lia..|].
    destruct (load_is_Some D (i * b + 1)) as [p1 Hp1]; [lia..|].
    destruct (load_is_Some D (i * b + 2)) as [p2 Hp2]; [lia..|].
    rewrite H0, H1, H2, Hp0, Hp1, Hp2. cbn [mbind option_bind].
    destruct (Hgray i p0 p1 p2) as [g Hg]; [lia | done..|].
    rewrite Hg. cbn [mbind option_bind].
    destruct (store_spec d (i * b + 2) g) as (d1 & -> & Hl1 & Hv1); [lia..|].
    cbn [mbind option_bind].
    destruct (store_spec d1 (i * b + 1) g) as (d2 & -> & Hl2 & Hv2); [lia..|].
    cbn [mbind option_bind].
    destruct (store_spec d2 (i * b) g) as (d3 & -> & Hl3 & Hv3); [lia..|].
    exists d3. split; [done|]. split; [congruence|].
    intros q k Hq Hk.
    assert (Hgi : gray i = Some g) by (unfold gray; by rewrite Hp0, Hp1, Hp2).
    rewrite Hv3, Hv2, Hv1 by nia.
    destruct (decide (q = i)) as [->|Hne].
    + destruct (decide (k < 3)).
      * rewrite (decide_True (P := i < i + 1 /\ k < 3)) by lia. rewrite Hgi.
        destruct (decide (i * b + k = i * b)); [done|].
        destruct (decide (i * b + k = i * b + 1)); [done|].
        rewrite decide_True by lia. done.
      * rewrite !decide_False by lia. rewrite Hv by lia.
        rewrite decide_False by lia. done.
    + rewrite !decide_False by nia. rewrite Hv by done.
      destruct (decide (q < i /\ k < 3)), (decide (q < i + 1 /\ k < 3));
        try lia; done.
  - exists d. split.
    { match goal with |- ?l ≫= _ = _ =>
        replace l with (Some d) by (symmetry; exact Hrun) end. done. }
    split; [done|].
    intros q k Hq Hk. rewrite Hv by done.
    destruct (decide (k < 3)).
    + rewrite decide_True by lia. done.
    + rewrite decide_False by lia. done.
Qed.

(** X19.  [applyGrayscale] on a buffer with colour channels, whenever the
    weighted sum of three bytes converts to a byte (as it does without
    rounding): the filter runs to its end and keeps extent and format;
    afterwards red, green and blue of every pixel equal its gray level and
    alpha is as before.  The gray level weighs the first three stored bytes
    by 0.299, 0.587 and 0.114, so that in the BGR and BGRA formats blue is
    weighted as red and red as blue. *)
Theorem applyGrayscale_pixels {F : Type} {AF : Arith F} (img : Image) :
  (forall p0 p1 p2 : byte, is_Some (to_uint8 (F:=F) (gray_level p0 p1 p2))) ->
  wf img -> format_ img <> Grayscale ->
  exists img',
    applyGrayscale (F:=F) img = Some img' /\ same_shape img img' /\
    forall x y (c : Color F),
      0 <= x < width_ img -> 0 <= y < height_ img ->
      getPixel img x y = Some c ->
      exists l : byte,
        to_uint8 (luminance (as_stored (format_ img) c)) = Some l /\
        getPixel img' x y
        = Some (mkColor (of_byte l) (of_byte l) (of_byte l) (ca c)).
Proof.
  intros Hgray Hwf Hfmt.
  destruct (applyGrayscale_bytes img) as (d & Hrun & Hl & Hv); [|done..|].
  { intros q p0 p1 p2 _ _ _ _. apply Hgray. }
  exists (with_data img d). split; [done|].
  split; [by unfold same_shape, with_data|].
  intros x y c Hx Hy.
  destruct (getPixelIndex_wf img x y Hwf Hx Hy) as (Hi & Hi0 & Hilen).
  assert (Hq : 0 <= y * width_ img + x < width_ img * height_ img) by nia.
  specialize (Hv (y * width_ img + x)). rewrite <- Hi in Hv.
  unfold getPixel. rewrite !in_bounds_true by (simpl; lia).
  unfold getPixelUnsafe.
  change (getPixelIndex (with_data img d) x y) with (getPixelIndex img x y).
  cbn [with_data data_ format_].
  set (i := getPixelIndex img x y) in *.
  assert (Hb : 3 <= getBytesPerPixel img)
    by (unfold getBytesPerPixel; destruct (format_ img); simpl; done || lia).
  destruct (load_is_Some (data_ img) i) as [p0 Hp0]; [lia..|].
  destruct (load_is_Some (data_ img) (i + 1)) as [p1 Hp1]; [lia..|].
  destruct (load_is_Some (data_ img) (i + 2)) as [p2 Hp2]; [lia..|].
  destruct (Hgray p0 p1 p2) as [l Hg].
  pose proof (Hv 0 Hq) as H0. pose proof (Hv 1 Hq) as H1.
  pose proof (Hv 2 Hq) as H2. pose proof (Hv 3 Hq) as H3.
  rewrite Z.add_0_r in H0.
  rewrite decide_True in H0, H1, H2 by lia.
  rewrite decide_False in H3 by lia.
  rewrite Hp0, Hp1, Hp2 in H0, H1, H2. cbn [mbind option_bind] in H0, H1, H2.
  rewrite Hg in H0, H1, H2.
  rewrite Hp0, Hp1, Hp2. cbn [mbind option_bind].
  unfold getBytesPerPixel in H0, H1, H2, H3.
  destruct (format_ img) eqn:Ef; [| | | |done]; simpl in H0, H1, H2, H3.
  all: rewrite H0, H1, H2, ?H3 by lia; cbn [mbind option_bind].
  2, 4: destruct (load (data_ img) (i + 3)) as [p3|];
        cbn [mbind option_bind]; [|done].
  all: intros [= <-]; exists l; split; [exact Hg | reflexivity].
Qed.

(** Without rounding the weighted sum of three bytes lies between 0 and
    255. *)
Lemma gray_level_exact (p0 p1 p2 : byte) :
  is_Some (to_uint8 (F:=Q) (gray_level p0 p1 p2)).
Proof.
  pose proof (byte_to_Z_range p0). pose proof (byte_to_Z_range p1).
  pose proof (byte_to_Z_range p2).
  set (q := gray_level (F:=Q) p0 p1 p2).
  assert (Hq : 0 <= Qnum q /\ Qnum q < 256 * QDen q).
  { unfold q, gray_level, of_byte. simpl. lia. }
  assert (Ht : 0 <= Z.quot (Qnum q) (QDen q) < 256).
  { split; [apply Z.quot_pos; lia|]. apply Z.quot_lt_upper_bound; lia. }
  change (to_uint8 q) with (byte_of_Z (Z.quot (Qnum q) (QDen q))).
  unfold byte_of_Z.
  destruct (Z.leb_spec 0 (Z.quot (Qnum q) (QDen q))); [|lia].
  destruct (Z.ltb_spec (Z.quot (Qnum q) (QDen q)) 256); [|lia].
  cbn [andb]. destruct (Byte.of_N _) eqn:E; [by eexists|].
  exfalso. apply Byte.of_N_None_iff in E. lia.
Qed.

Lemma applyGrayscale_pixels_witness :
  let img := mkImage 1 1 BGR ["200"; "100"; "000"]%byte in
  exists img',
    applyGrayscale (F:=Q) img = Some img' /\ same_shape img img' /\
    forall x y (c : Color Q),
      0 <= x < width_ img -> 0 <= y < height_ img ->
      getPixel img x y = Some c ->
      exists l : byte,
        to_uint8 (luminance (as_stored (format_ img) c)) = Some l /\
        getPixel img' x y
        = Some (mkColor (of_byte l) (of_byte l) (of_byte l) (ca c)).
Proof.
  apply (applyGrayscale_pixels (F:=Q)
           (mkImage 1 1 BGR ["200"; "100"; "000"]%byte)).
  - apply gray_level_exact.
  - unfold wf. simpl. repeat split; try lia; reflexivity.
  - done.
Defined.

Lemma of_byte_inj (b b' : byte) :
  of_byte (F:=Binary32.float) b = of_byte b' -> b = b'.
Proof.
  intros E. apply (f_equal to_uint8) in E.
  rewrite !to_uint8_of_byte in E. congruence.
Qed.

(** The first three bytes of a pixel that reads as gray are equal. *)
Lemma gray_pixel_bytes (img : Image) (x y : Z) (l : byte)
    (a : Binary32.float) :
  format_ img <> Grayscale -> x < width_ img -> y < height_ img ->
  getPixel img x y
  = Some (mkColor (of_byte l) (of_byte l) (of_byte l) a) ->
  load (data_ img) (getPixelIndex img x y) = Some l /\
  load (data_ img) (getPixelIndex img x y + 1) = Some l /\
  load (data_ img) (getPixelIndex img x y + 2) = Some l.
Proof.
  intros Hfmt Hx Hy. unfold getPixel. rewrite in_bounds_true by done.
  unfold getPixelUnsafe.
  destruct (format_ img); [| | | |done]; intros E.
  all: repeat match type of E with
       | (?m ≫= _) = Some _ =>
           destruct m as [?|] eqn:?; cbn [mbind option_bind] in E; [|done]
       end.
  all: apply (inj Some) in E; unfold Color3 in E.
  all: injection E as E1 E2 E3 E4.
  all: apply of_byte_inj in E1, E2, E3; subst; done.
Qed.

(** X20.  In binary32 [applyGrayscale] changes an image that is gray
    already: where red, green and blue all equal [l], they all become
    [l - 1] for the thirteen levels that [0.299f * l + 0.587f * l + 0.114f * l]
    falls short of, and stay [l] for the others; alpha is kept.  So applying
    the filter to its own output can change the output once more. *)
Theorem applyGrayscale_dims_gray_image (img : Image) :
  wf img -> format_ img <> Grayscale ->
  (forall x y, 0 <= x < width_ img -> 0 <= y < height_ img ->
     exists (l : byte) (a : Binary32.float),
       getPixel img x y
       = Some (mkColor (of_byte l) (of_byte l) (of_byte l) a)) ->
  exists img',
    applyGrayscale (F:=Binary32.float) img = Some img' /\
    forall x y (l : byte) (a : Binary32.float),
      0 <= x < width_ img -> 0 <= y < height_ img ->
      getPixel img x y
      = Some (mkColor (of_byte l) (of_byte l) (of_byte l) a) ->
      exists l' : byte,
        getPixel img' x y
        = Some (mkColor (of_byte l') (of_byte l') (of_byte l') a) /\
        byte_to_Z l' = if bool_decide (byte_to_Z l ∈ dimmed_levels)
                       then byte_to_Z l - 1 else byte_to_Z l.
Proof.
  intros Hwf Hfmt Hgrayimg.
  pose proof Hwf as (Hw0 & Hh0 & Hsize & Hlen).
  pose proof (bytesPerPixel_pos (format_ img)) as Hb.
  fold (getBytesPerPixel img) in Hb.
  destruct (applyGrayscale_bytes (F:=Binary32.float) img)
    as (d & Hrun & Hl & Hv); [|done..|].
  { intros q p0 p1 p2 Hq Hp0 Hp1 Hp2.
    assert (Hw : 0 < width_ img) by nia.
    pose proof (Z.div_mod q (width_ img) ltac:(lia)) as Eq.
    pose proof (Z.mod_pos_bound q (width_ img) Hw) as Hx.
    assert (Hy : 0 <= q / width_ img < height_ img).
    { split; [apply Z.div_pos; lia|]. apply Z.div_lt_upper_bound; lia. }
    destruct (Hgrayimg (q mod width_ img) (q / width_ img) Hx Hy)
      as (l & a & Hget).
    destruct (getPixelIndex_wf img (q mod width_ img) (q / width_ img)
                Hwf Hx Hy) as (Hi & _).
    apply gray_pixel_bytes in Hget as (G0 & G1 & G2); [|done|lia|lia].
    rewrite Hi in G0, G1, G2.
    replace ((q / width_ img * width_ img + q mod width_ img)
             * getBytesPerPixel img)
      with (q * getBytesPerPixel img) in G0, G1, G2 by nia.
    assert (p0 = l) as -> by congruence.
    assert (p1 = l) as -> by congruence.
    assert (p2 = l) as -> by congruence.
    destruct (gray_level_back l) as (l' & Hl' & _). by exists l'. }
  exists (with_data img d). split; [done|].
  intros x y l a Hx Hy Hget.
  destruct (getPixelIndex_wf img x y Hwf Hx Hy) as (Hi & Hi0 & Hilen).
  pose proof Hget as Hbytes.
  apply gray_pixel_bytes in Hbytes as (G0 & G1 & G2); [|done|lia|lia].
  destruct (gray_level_back l) as (l' & Hl' & Hz). exists l'.
  split; [|done].
  assert (Hq : 0 <= y * width_ img + x < width_ img * height_ img) by nia.
  specialize (Hv (y * width_ img + x)). rewrite <- Hi in Hv.
  revert Hget. unfold getPixel. rewrite !in_bounds_true by (simpl; lia).
  unfold getPixelUnsafe.
  change (getPixelIndex (with_data img d) x y) with (getPixelIndex img x y).
  cbn [with_data data_ format_].
  set (i := getPixelIndex img x y) in *.
  assert (Hb3 : 3 <= getBytesPerPixel img)
    by (unfold getBytesPerPixel; destruct (format_ img); simpl; done || lia).
  pose proof (Hv 0 Hq) as H0. pose proof (Hv 1 Hq) as H1.
  pose proof (Hv 2 Hq) as H2. pose proof (Hv 3 Hq) as H3.
  rewrite Z.add_0_r in H0.
  rewrite decide_True in H0, H1, H2 by lia.
  rewrite decide_False in H3 by lia.
  rewrite G0, G1, G2 in H0, H1, H2. cbn [mbind option_bind] in H0, H1, H2.
  change (gray_level l l l)
    with (luminance (Color3 (of_byte (F:=Binary32.float) l) (of_byte l)
                       (of_byte l))) in H0, H1, H2.
  rewrite Hl' in H0, H1, H2.
  rewrite G0, G1, G2. cbn [mbind option_bind].
  unfold getBytesPerPixel in H0, H1, H2, H3.
  destruct (format_ img) eqn:Ef; [| | | |done]; simpl in H0, H1, H2, H3.
  all: rewrite H0, H1, H2, ?H3 by lia; cbn [mbind option_bind].
  2, 4: destruct (load (data_ img) (i + 3)) as [p3|];
        cbn [mbind option_bind]; [|done].
  all: unfold Color3; intros [= <-]; reflexivity.
Qed.

Lemma applyGrayscale_dims_gray_image_witness :
  let img := mkImage 1 1 RGB ["037"; "037"; "037"]%byte in
  exists img',
    applyGrayscale (F:=Binary32.float) img = Some img' /\
    forall x y (l : byte) (a : Binary32.float),
      0 <= x < width_ img -> 0 <= y < height_ img ->
      getPixel img x y
      = Some (mkColor (of_byte l) (of_byte l) (of_byte l) a) ->
      exists l' : byte,
        getPixel img' x y
        = Some (mkColor (of_byte l') (of_byte l') (of_byte l') a) /\
        byte_to_Z l' = if bool_decide (byte_to_Z l ∈ dimmed_levels)
                       then byte_to_Z l - 1 else byte_to_Z l.
Proof.
  apply (applyGrayscale_dims_gray_image
           (mkImage 1 1 RGB ["037"; "037"; "037"]%byte)).
  - unfold wf. simpl. repeat split; try lia; reflexivity.
  - done.
  - intros x y Hx Hy. simpl in Hx, Hy.
    assert (x = 0) as -> by lia. assert (y = 0) as -> by lia.
    exists "037"%byte, (of_Z 1). reflexivity.
Defined.

(** ** Degenerate arguments *)

(** X24.  [applyGaussianBlur(0.0f)] has no defined result on an image with
    at least one pixel: the kernel has [ceil(0 * 6) = 0] taps, so for the
    first pixel both the weighted sum and the weight sum stay zero, their
    quotient is not a number, and its conversion to a byte is undefined.
    For a sigma that is not a number or infinite, the conversion of
    [ceil(sigma * 6)] to [int] is undefined already. *)
Theorem applyGaussianBlur_zero_sigma {LF : Libm Binary32.float} (img : Image) :
  0 < width_ img -> 0 < height_ img ->
  kernelSize (F:=Binary32.float) (of_Z 0) = Some 0 /\
  makeKernel (F:=Binary32.float) (of_Z 0) 0 = Some [] /\
  applyGaussianBlur (F:=Binary32.float) img (of_Z 0) = None /\
  forall sigma : Binary32.float,
    sigma = S754_nan \/ sigma = S754_infinity false
    \/ sigma = S754_infinity true ->
    kernelSize sigma = None /\ applyGaussianBlur img sigma = None.
Proof.
  intros Hw Hh. split; [reflexivity|]. split; [reflexivity|].
  split; [|by intros sigma [-> | [-> | ->]]].
  unfold applyGaussianBlur.
  change (kernelSize (F:=Binary32.float) (of_Z 0)) with (Some 0).
  cbn [mbind option_bind].
  change (makeKernel (F:=Binary32.float) (of_Z 0) 0)
    with (Some (@nil Binary32.float)).
  cbn [mbind option_bind].
  assert (Hfail : forall dst : Image,
            fill_pixels (F:=Binary32.float) (width_ img) (height_ img)
              (fun x y => blur_pixel (fun srcX => getPixel img srcX y)
                            (width_ img) x 0 []) dst = None).
  { intros dst. unfold fill_pixels.
    destruct (Z.to_nat (height_ img)) as [|nh] eqn:Eh; [lia|].
    destruct (Z.to_nat (width_ img)) as [|nw] eqn:Ew; [lia|].
    reflexivity. }
  by rewrite Hfail.
Qed.

Lemma applyGaussianBlur_zero_sigma_witness :
  kernelSize (F:=Binary32.float) (of_Z 0) = Some 0 /\
  makeKernel (F:=Binary32.float) (of_Z 0) 0 = Some [] /\
  applyGaussianBlur (F:=Binary32.float) gray_square (of_Z 0) = None /\
  forall sigma : Binary32.float,
    sigma = S754_nan \/ sigma = S754_infinity false
    \/ sigma = S754_infinity true ->
    kernelSize sigma = None /\ applyGaussianBlur gray_square sigma = None.
Proof.
  apply (applyGaussianBlur_zero_sigma gray_square); simpl; lia.
Defined.

Lemma for_loop_rows_empty {S : Type} (body : Z -> Z -> S -> option S)
    (nx ny : nat) (s : S) :
  nx = 0%nat \/ ny = 0%nat ->
  for_loop 0 ny (fun y s => for_loop 0 nx (fun x s => body x y s) s) s
  = Some s.
Proof.
  intros [-> | ->]; [|done]. apply for_loop_id. intros i _. done.
Qed.

(** X25.  [generatePerlinNoise] with a width or a height of zero returns
    the empty Grayscale image of that extent, for every scale, every number
    of octaves and every outcome of the random draws: no loop body runs, so
    the undefined normalisation of a flat field is never reached. *)
Theorem generatePerlinNoise_empty {LF : Libm Binary32.float}
    (draw : nat -> Binary32.float) (width height : Z)
    (scale : Binary32.float) (octaves : Z) :
  0 <= width -> 0 <= height -> width = 0 \/ height = 0 ->
  generatePerlinNoise draw width height scale octaves
  = Some (mkImage width height Grayscale []).
Proof.
  intros Hw Hh Hzero.
  assert (Hn : Z.to_nat width = 0%nat \/ Z.to_nat height = 0%nat) by lia.
  unfold generatePerlinNoise.
  assert (Hacc : accumulate (make_gradients draw) width height scale octaves
                 = Some (flat_noise width height)).
  { unfold accumulate. apply for_loop_id. intros octave _.
    apply (for_loop_rows_empty
             (fun x y noise =>
                value ← octave_value (make_gradients draw) width height scale
                          (powf (of_Z 2) octave) x y;
                noise_add noise x y
                  (value * powf (of_dec 1 2) octave)%flt)).
    done. }
  rewrite Hacc. cbn [mbind option_bind].
  unfold min_max.
  rewrite (for_loop_rows_empty
             (fun x y (mm : Binary32.float * Binary32.float) =>
                v ← noise_get (flat_noise width height) x y;
                Some (fmin mm.1 v, fmax mm.2 v))) by done.
  cbn [mbind option_bind]. unfold emit.
  rewrite (for_loop_rows_empty
             (fun x y result =>
                n ← normalizedValue (flat_noise width height) _ _ x y;
                pixel ← to_uint8 (n * of_Z 255)%flt;
                setPixel result x y
                  (Color3 (of_byte pixel) (of_byte pixel) (of_byte pixel))))
    by done.
  unfold Image_new, bufferSize. do 2 f_equal.
  assert (width * height * bytesPerPixel Grayscale = 0) as -> by (simpl; nia).
  reflexivity.
Qed.

Lemma generatePerlinNoise_empty_witness :
  generatePerlinNoise draws_a 0 3 (of_Z 1) 4
  = Some (mkImage 0 3 Grayscale []).
Proof. apply generatePerlinNoise_empty; lia. Defined.

(** ** Colours on the unit scale *)

Lemma to_uint8_unit (v : byte) :
  to_uint8 (F:=Binary32.float) (of_byte v / of_Z 255)%flt
  = Some (unit_byte v).
Proof. destruct v; vm_compute; reflexivity. Qed.

(** X26.  [Color::fromRGB] and [Color::fromHex] scale their bytes to the
    interval from 0 to 1, while [setPixel] truncates each channel to a
    byte.  So a colour made by [fromRGB(r, g, b, a)] and written to a pixel
    of an RGBA buffer is stored as bytes that are 1 where the channel was
    255 and 0 everywhere else, and [getPixel] reads these back; [fromHex]
    makes the same colour from the packed bytes. *)
Theorem fromRGB_is_stored_as_zero_or_one (img : Image) (x y : Z)
    (r g b a : byte) :
  wf img -> format_ img = RGBA ->
  0 <= x < width_ img -> 0 <= y < height_ img ->
  (exists img',
     setPixel (F:=Binary32.float) img x y (Color_fromRGB r g b a)
     = Some img' /\
     getPixel (F:=Binary32.float) img' x y
     = Some (mkColor (of_byte (unit_byte r)) (of_byte (unit_byte g))
                     (of_byte (unit_byte b)) (of_byte (unit_byte a)))) /\
  Color_fromHex (F:=Binary32.float)
    (byte_to_Z a * 2 ^ 24 + byte_to_Z r * 2 ^ 16 + byte_to_Z g * 2 ^ 8
     + byte_to_Z b)
  = Color_fromRGB r g b a.
Proof.
  intros Hwf Hfmt Hx Hy. split.
  - destruct (setPixel_spec (F:=Binary32.float) img x y
                (Color_fromRGB r g b a)
                (mkColor (of_byte (unit_byte r)) (of_byte (unit_byte g))
                         (of_byte (unit_byte b)) (of_byte (unit_byte a))))
      as (img' & Hset & _ & Hget & _); try done.
    + rewrite Hfmt. unfold convert, Color_fromRGB. cbn [cr cg cb ca].
      by rewrite !to_uint8_unit.
    + by exists img'.
  - pose proof (byte_to_Z_range r). pose proof (byte_to_Z_range g).
    pose proof (byte_to_Z_range b). pose proof (byte_to_Z_range a).
    set (hex := byte_to_Z a * 2 ^ 24 + byte_to_Z r * 2 ^ 16
                + byte_to_Z g * 2 ^ 8 + byte_to_Z b).
    assert (Hb : Z.land hex 255 = byte_to_Z b).
    { change 255 with (Z.ones 8). rewrite Z.land_ones by lia.
      unfold hex. symmetry. apply (Z.mod_unique_pos _ _
        (byte_to_Z a * 2 ^ 16 + byte_to_Z r * 2 ^ 8 + byte_to_Z g)); lia. }
    assert (Hg : Z.land (Z.shiftr hex 8) 255 = byte_to_Z g).
    { change 255 with (Z.ones 8). rewrite Z.land_ones by lia.
      rewrite Z.shiftr_div_pow2 by lia.
      assert (hex / 2 ^ 8
              = byte_to_Z a * 2 ^ 16 + byte_to_Z r * 2 ^ 8 + byte_to_Z g) as ->.
      { unfold hex. symmetry. apply (Z.div_unique_pos _ _ _ (byte_to_Z b));
          lia. }
      symmetry. apply (Z.mod_unique_pos _ _
        (byte_to_Z a * 2 ^ 8 + byte_to_Z r)); lia. }
    assert (Hr : Z.land (Z.shiftr hex 16) 255 = byte_to_Z r).
    { change 255 with (Z.ones 8). rewrite Z.land_ones by lia.
      rewrite Z.shiftr_div_pow2 by lia.
      assert (hex / 2 ^ 16 = byte_to_Z a * 2 ^ 8 + byte_to_Z r) as ->.
      { unfold hex. symmetry.
        apply (Z.div_unique_pos _ _ _ (byte_to_Z g * 2 ^ 8 + byte_to_Z b));
          lia. }
      symmetry. apply (Z.mod_unique_pos _ _ (byte_to_Z a)); lia. }
    assert (Ha : Z.land (Z.shiftr hex 24) 255 = byte_to_Z a).
    { change 255 with (Z.ones 8). rewrite Z.land_ones by lia.
      rewrite Z.shiftr_div_pow2 by lia.
      assert (hex / 2 ^ 24 = byte_to_Z a) as ->.
      { unfold hex. symmetry.
        apply (Z.div_unique_pos _ _ _
                 (byte_to_Z r * 2 ^ 16 + byte_to_Z g * 2 ^ 8 + byte_to_Z b));
          lia. }
      apply Z.mod_small. lia. }
    unfold Color_fromHex, Color_fromRGB, of_byte.
    by rewrite Hr, Hg, Hb, Ha.
Qed.

Lemma fromRGB_is_stored_as_zero_or_one_witness :
  (exists img',
     setPixel (F:=Binary32.float) (Image_new 1 1 RGBA) 0 0
       (Color_fromRGB "255" "128" "000" "255")
     = Some img' /\
     getPixel (F:=Binary32.float) img' 0 0
     = Some (mkColor (of_byte (unit_byte "255")) (of_byte (unit_byte "128"))
                     (of_byte (unit_byte "000"))
                     (of_byte (unit_byte "255")))) /\
  Color_fromHex (F:=Binary32.float)
    (byte_to_Z "255" * 2 ^ 24 + byte_to_Z "255" * 2 ^ 16
     + byte_to_Z "128" * 2 ^ 8 + byte_to_Z "000")
  = Color_fromRGB "255" "128" "000" "255".
Proof.
  apply (fromRGB_is_stored_as_zero_or_one (Image_new 1 1 RGBA) 0 0).
  - apply wf_Image_new; simpl; lia.
  - reflexivity.
  - simpl. lia.
  - simpl. lia.
Defined.
